(** * The heartbeat aggregation of [src/app/api/heartbeat/route.ts]

    A shallow embedding of [percentile75], [computeHeartbeat], [ensureRow]
    and the ingestion join of [GET].  JavaScript numbers are IEEE 754
    binary64 values: Rocq's primitive floats, whose operations are the
    correctly rounded ones of [SpecFloat].  The first part holds the
    model, the second the properties proved of it. *)

From Stdlib Require Import ZArith Uint63 Floats String Ascii Lia OrdersEx.
From stdpp Require Import base option list sorting gmap strings.

(* 0.7 and 0.4 denote, as in JavaScript, the nearest binary64 values. *)
#[local] Set Warnings "-inexact-float".

(** * Part I: the model *)

(** ** JavaScript values *)

(** A JavaScript [number]. *)
Definition number := float.

(** [x ?? d]: [d] only when [x] is undefined. *)
Definition nullish {A} (x : option A) (d : A) : A :=
  match x with Some v => v | None => d end.

(** A number is falsy when it is [+0], [-0] or [NaN]. *)
Definition falsy (x : number) : bool := is_zero x || is_nan x.

(** [x || d] on numbers. *)
Definition or_else (x d : number) : number := if falsy x then d else x.

(** [!s] on an optional string: undefined and the empty string are falsy. *)
Definition falsyStr (s : option string) : bool :=
  match s with
  | Some (String _ _) => false
  | _ => true
  end.

(** The number of a length or a size. *)
Definition number_of_nat (n : nat) : number :=
  PrimFloat.of_uint63 (Uint63.of_Z (Z.of_nat n)).

(** [Array.prototype.sort(comparefn)]: the sort is stable, and [b] is moved
    in front of [a] only where [comparefn(a, b) > 0].  For a consistent
    comparator this fixes the result; it is written here as the stable
    insertion sort. *)
Section JSsort.
Context {A : Type} (comparefn : A -> A -> number).

Definition sortsAfter (a b : A) : bool := (0 <? comparefn a b)%float.

Fixpoint sort_insert (x : A) (l : list A) : list A :=
  match l with
  | [] => [x]
  | y :: l' => if sortsAfter x y then y :: sort_insert x l' else x :: y :: l'
  end.

Fixpoint JSsort (l : list A) : list A :=
  match l with
  | [] => []
  | x :: l' => sort_insert x (JSsort l')
  end.

(** [comparefn] does not send [b] in front of [a]. *)
Definition keepsBefore (a b : A) : Prop := sortsAfter a b = false.
End JSsort.

(** ** Data model *)

Record MetricsRow := {
  date : string;
  orders : option number;
  shipping_labels : option number;
  total_packers : option number;
  total_warehouses_packers : option number;
  total_pickers : option number;
  total_warehouses_pickers : option number;
  active_countries : option number
}.

(** The seven metric fields of [HeartbeatPoint.metrics]. *)
Record Metrics := {
  m_orders : number;
  m_shipping_labels : number;
  m_total_packers : number;
  m_total_pickers : number;
  m_total_warehouses_packers : number;
  m_total_warehouses_pickers : number;
  m_active_countries : number
}.

Record HeartbeatPoint := {
  timestamp : string;
  intensity : number;
  metrics : Metrics
}.

(** An element of [safeRows]: the spread copy of a row with every metric
    field a number. *)
Record SafeRow := { s_date : string; s_metrics : Metrics }.

Inductive MetricKey :=
  | Orders | ShippingLabels | TotalPackers | TotalPickers
  | TotalWarehousesPackers | TotalWarehousesPickers | ActiveCountries.

#[global] Instance MetricKey_eq_dec : EqDecision MetricKey.
Proof. solve_decision. Defined.

Definition metricsKeys : list MetricKey :=
  [Orders; ShippingLabels; TotalPackers; TotalPickers;
   TotalWarehousesPackers; TotalWarehousesPickers; ActiveCountries].

(** [r[key]] on a row as ingested. *)
Definition rawField (r : MetricsRow) (key : MetricKey) : option number :=
  match key with
  | Orders => orders r
  | ShippingLabels => shipping_labels r
  | TotalPackers => total_packers r
  | TotalPickers => total_pickers r
  | TotalWarehousesPackers => total_warehouses_packers r
  | TotalWarehousesPickers => total_warehouses_pickers r
  | ActiveCountries => active_countries r
  end.

(** [m[key]] on a fully populated record. *)
Definition field (m : Metrics) (key : MetricKey) : number :=
  match key with
  | Orders => m_orders m
  | ShippingLabels => m_shipping_labels m
  | TotalPackers => m_total_packers m
  | TotalPickers => m_total_pickers m
  | TotalWarehousesPackers => m_total_warehouses_packers m
  | TotalWarehousesPickers => m_total_warehouses_pickers m
  | ActiveCountries => m_active_countries m
  end.

(** [{ date: dateStr }] *)
Definition emptyRow (d : string) : MetricsRow :=
  {| date := d; orders := None; shipping_labels := None; total_packers := None;
     total_warehouses_packers := None; total_pickers := None;
     total_warehouses_pickers := None; active_countries := None |}.

(** [r[key] = v] *)
Definition setField (key : MetricKey) (v : number) (r : MetricsRow) : MetricsRow :=
  {| date := date r;
     orders := match key with Orders => Some v | _ => orders r end;
     shipping_labels :=
       match key with ShippingLabels => Some v | _ => shipping_labels r end;
     total_packers := match key with TotalPackers => Some v | _ => total_packers r end;
     total_warehouses_packers :=
       match key with
       | TotalWarehousesPackers => Some v
       | _ => total_warehouses_packers r
       end;
     total_pickers := match key with TotalPickers => Some v | _ => total_pickers r end;
     total_warehouses_pickers :=
       match key with
       | TotalWarehousesPickers => Some v
       | _ => total_warehouses_pickers r
       end;
     active_countries :=
       match key with ActiveCountries => Some v | _ => active_countries r end |}.

(** ** [percentile75] *)

(** [Math.floor(0.75 * (n - 1))].  An array has fewer than [2^32] elements,
    so [n - 1] and [0.75 * (n - 1)] are exact in binary64 and the floor is
    the integer quotient of [3 * (n - 1)] by [4]. *)
Definition idx75 (n : nat) : nat := (3 * (n - 1)) / 4.

(** [[...values].sort((a, b) => a - b)] *)
Definition sortNumeric (values : list number) : list number :=
  JSsort (fun a b => (a - b)%float) values.

Definition percentile75 (values : list number) : number :=
  match values with
  | [] => 1%float
  | _ =>
      let sorted := sortNumeric values in
      let idx := idx75 (length sorted) in
      match sorted !! idx with
      | Some v => or_else v 1%float
      | None => 1%float
      end
  end.

(** ** [computeHeartbeat], on values *)

Definition safeRow (r : MetricsRow) : SafeRow :=
  {| s_date := date r;
     s_metrics :=
       {| m_orders := nullish (orders r) 0%float;
          m_shipping_labels := nullish (shipping_labels r) 0%float;
          m_total_packers := nullish (total_packers r) 0%float;
          m_total_pickers := nullish (total_pickers r) 0%float;
          m_total_warehouses_packers := nullish (total_warehouses_packers r) 0%float;
          m_total_warehouses_pickers := nullish (total_warehouses_pickers r) 0%float;
          m_active_countries := nullish (active_countries r) 0%float |} |}.

Definition weights (key : MetricKey) : number :=
  match key with
  | Orders => 1.0
  | ShippingLabels => 1.0
  | TotalPackers => 0.7
  | TotalPickers => 0.7
  | TotalWarehousesPackers => 0.4
  | TotalWarehousesPickers => 0.4
  | ActiveCountries => 0.5
  end%float.

(** [Object.values(weights).reduce((a, b) => a + b, 0)]; the values come in
    the order the keys are written, which is that of [metricsKeys]. *)
Definition totalWeight : number :=
  fold_left (fun a b => (a + b)%float) (map weights metricsKeys) 0%float.

(** The table [q75], filled key by key from the columns of [safeRows]. *)
Definition q75 (safeRows : list SafeRow) (key : MetricKey) : number :=
  let arr := map (fun r => field (s_metrics r) key) safeRows in
  or_else (percentile75 arr) 1%float.

(** The loop over [metricsKeys] in the final [map] callback; [r[key]] is a
    number there, so its [?? 0] does nothing. *)
Definition score (q : MetricKey -> number) (r : SafeRow) : number :=
  fold_left
    (fun score key =>
       let v := field (s_metrics r) key in
       let denom := or_else (q key) 1%float in
       let norm := (v / denom)%float in
       (score + weights key * norm)%float)
    metricsKeys 0%float.

(** [s.replace(" ", "T")]: a string pattern replaces its first occurrence
    only. *)
Fixpoint replace_space_T (s : string) : string :=
  match s with
  | EmptyString => EmptyString
  | String c s' =>
      if Ascii.eqb c " "%char then String "T"%char s'
      else String c (replace_space_T s')
  end.

Definition heartbeatPoint (q : MetricKey -> number) (r : SafeRow) : HeartbeatPoint :=
  {| timestamp := replace_space_T (s_date r) +:+ "Z";
     intensity := (100 * score q r / totalWeight)%float;
     metrics := s_metrics r |}.

(** ** The store: arrays and objects by reference *)

Abbreviation ref := nat.

Inductive object :=
  | RowObject (r : MetricsRow)
  | SafeObject (r : SafeRow)
  | ArrayObject (items : list ref).

(** A reference is an index into the store; allocation appends. *)
Abbreviation store := (list object).

(** Computations that read and write the store; [None] is a read of a
    reference that holds no object of the expected kind. *)
Definition M (A : Type) : Type := store -> option (A * store).

Definition ret {A} (a : A) : M A := fun h => Some (a, h).

Definition bind {A B} (m : M A) (k : A -> M B) : M B :=
  fun h => match m h with Some (a, h') => k a h' | None => None end.

Notation "'let!' x ':=' m 'in' k" := (bind m (fun x => k))
  (at level 10, x pattern, m at level 100, k at level 200).

Definition alloc (o : object) : M ref := fun h => Some (length h, h ++ [o]).

Definition readArray (a : ref) : M (list ref) :=
  fun h => match h !! a with Some (ArrayObject items) => Some (items, h) | _ => None end.

Definition readRow (r : ref) : M MetricsRow :=
  fun h => match h !! r with Some (RowObject row) => Some (row, h) | _ => None end.

Definition readSafe (r : ref) : M SafeRow :=
  fun h => match h !! r with Some (SafeObject row) => Some (row, h) | _ => None end.

(** [target[key] = v] *)
Definition assign (target : ref) (key : MetricKey) (v : number) : M unit :=
  fun h =>
    match h !! target with
    | Some (RowObject row) => Some (tt, <[target := RowObject (setField key v row)]> h)
    | _ => None
    end.

Fixpoint mapM {A B} (f : A -> M B) (l : list A) : M (list B) :=
  match l with
  | [] => ret []
  | x :: l' => let! y := f x in let! ys := mapM f l' in ret (y :: ys)
  end.

Fixpoint foldM {A S} (f : S -> A -> M S) (l : list A) (s : S) : M S :=
  match l with
  | [] => ret s
  | x :: l' => let! s' := f s x in foldM f l' s'
  end.

(** The spread copy of one row, [{ ...r, orders: r.orders ?? 0, ... }]:
    a new object. *)
Definition spreadRow (r : ref) : M ref :=
  let! row := readRow r in alloc (SafeObject (safeRow row)).

(** The rows an array of row objects holds. *)
Definition readRows (rows : ref) : M (list MetricsRow) :=
  let! items := readArray rows in mapM readRow items.

Section Runtime.
(** [String.prototype.localeCompare] is the runtime's collation,
    [String.prototype.trim] and [Number(...)] its conversions; they are
    parameters of the development.  [Number] is also given the undefined
    of a missing column. *)
Variable localeCompare : string -> string -> number.
Variable trim : string -> string.
Variable Number : option string -> number.

Definition sortByDate (safeRows : list SafeRow) : list SafeRow :=
  JSsort (fun a b => localeCompare (s_date a) (s_date b)) safeRows.

Definition computeHeartbeat (rows : list MetricsRow) : list HeartbeatPoint :=
  let safeRows := map safeRow rows in
  let q := q75 safeRows in
  map (heartbeatPoint q) (sortByDate safeRows).

(** ** [computeHeartbeat], on the store *)

(** [r.date] of the object behind a reference. *)
Definition dateAt (h : store) (r : ref) : string :=
  match h !! r with
  | Some (SafeObject s) => s_date s
  | Some (RowObject row) => date row
  | _ => ""
  end.

(** [a.sort((x, y) => x.date.localeCompare(y.date))]: the array is
    reordered in place. *)
Definition sortArrayByDate (a : ref) : M unit :=
  fun h =>
    match h !! a with
    | Some (ArrayObject items) =>
        let sorted := JSsort (fun x y => localeCompare (dateAt h x) (dateAt h y)) items in
        Some (tt, <[a := ArrayObject sorted]> h)
    | _ => None
    end.

(** The function as it runs: [rows] is a reference to the caller's array
    of row objects.  The columns of [q75] are read from [safeRows] before
    it is sorted.  Arrays of numbers and the points returned are new
    values that nothing else refers to; they are not kept in the store. *)
Definition computeHeartbeat_st (rows : ref) : M (list HeartbeatPoint) :=
  let! items := readArray rows in
  let! safeRefs := mapM spreadRow items in
  let! safeRows := alloc (ArrayObject safeRefs) in
  let! columns := (let! refs := readArray safeRows in mapM readSafe refs) in
  let q := q75 columns in
  let! _ := sortArrayByDate safeRows in
  let! sortedRefs := readArray safeRows in
  let! sorted := mapM readSafe sortedRefs in
  ret (map (heartbeatPoint q) sorted).

(** ** Ingestion: the join of [GET] *)

(** A parsed CSV record, [Record<string, string>]. *)
Definition RawRow := gmap string string.

(** [Map<string, MetricsRow>]: keys in insertion order, each with the
    reference of its row object. *)
Definition MetricsMap := list (string * ref).

Fixpoint map_get {V} (m : list (string * V)) (k : string) : option V :=
  match m with
  | [] => None
  | (k', v) :: m' => if String.eqb k' k then Some v else map_get m' k
  end.

(** [map.set] changes the map in place; here the map is handed back with
    the row. *)
Definition ensureRow (map : MetricsMap) (dateStr : string) : M (MetricsMap * ref) :=
  match map_get map dateStr with
  | Some row => ret (map, row)
  | None =>
      let! row := alloc (RowObject (emptyRow dateStr)) in
      ret (map ++ [(dateStr, row)], row)
  end.

(** [if (Number.isFinite(v)) target[key] = v] *)
Definition assignFinite (target : ref) (key : MetricKey) (v : number) : M unit :=
  if is_finite v then assign target key v else ret tt.

(** The bodies of the four loops over the rows of a feed.  [continue]
    leaves the map as it is; past the guard [dateStr] is a non-empty
    string. *)
Definition ordersStep (map : MetricsMap) (row : RawRow) : M MetricsMap :=
  let rawDate :=
    match row !! "date_utc" with Some d => Some d | None => row !! "date" end in
  let dateStr := trim <$> rawDate in
  if falsyStr dateStr then ret map
  else
    let! (map, target) := ensureRow map (nullish dateStr "") in
    let orders := Number (row !! "orders") in
    let! _ := assignFinite target Orders orders in
    ret map.

Definition labelsStep (map : MetricsMap) (row : RawRow) : M MetricsMap :=
  let dateStr := trim <$> row !! "date" in
  if falsyStr dateStr then ret map
  else
    let! (map, target) := ensureRow map (nullish dateStr "") in
    let labels := Number (row !! "shipping_labels") in
    let! _ := assignFinite target ShippingLabels labels in
    ret map.

Definition packersStep (map : MetricsMap) (row : RawRow) : M MetricsMap :=
  let dateStr := trim <$> row !! "date" in
  if falsyStr dateStr then ret map
  else
    let! (map, target) := ensureRow map (nullish dateStr "") in
    let packers := Number (row !! "total_packers") in
    let warehouses := Number (row !! "total_warehouses") in
    let! _ := assignFinite target TotalPackers packers in
    let! _ := assignFinite target TotalWarehousesPackers warehouses in
    ret map.

Definition pickersStep (map : MetricsMap) (row : RawRow) : M MetricsMap :=
  let dateStr := trim <$> row !! "date" in
  if falsyStr dateStr then ret map
  else
    let! (map, target) := ensureRow map (nullish dateStr "") in
    let pickers := Number (row !! "total_pickers") in
    let warehouses := Number (row !! "total_warehouses") in
    let! _ := assignFinite target TotalPickers pickers in
    let! _ := assignFinite target TotalWarehousesPickers warehouses in
    ret map.

(** [Map<string, Set<string>>], keys in insertion order. *)
Definition CountryMap := list (string * gset string).

Fixpoint addCountry (m : CountryMap) (dateStr country : string) : CountryMap :=
  match m with
  | [] => [(dateStr, {[country]})]
  | (k, set) :: m' =>
      if String.eqb k dateStr then (k, set ∪ {[country]}) :: m'
      else (k, set) :: addCountry m' dateStr country
  end.

Definition countryStep (countriesByDate : CountryMap) (row : RawRow) : CountryMap :=
  let dateStr := trim <$> row !! "date" in
  let country := trim <$> row !! "shipping_country" in
  if falsyStr dateStr || falsyStr country then countriesByDate
  else addCountry countriesByDate (nullish dateStr "") (nullish country "").

Definition activeCountriesStep (map : MetricsMap) (entry : string * gset string)
    : M MetricsMap :=
  let '(dateStr, set) := entry in
  let! (map, target) := ensureRow map dateStr in
  let! _ := assign target ActiveCountries (number_of_nat (size set)) in
  ret map.

(** The five loops, then [Array.from(map.values())]: the array of the row
    objects, in insertion order. *)
Definition buildRows (ordersCsv labelsCsv byCountryCsv packersCsv pickersCsv : list RawRow)
    : M ref :=
  let! map := foldM ordersStep ordersCsv [] in
  let! map := foldM labelsStep labelsCsv map in
  let! map := foldM packersStep packersCsv map in
  let! map := foldM pickersStep pickersCsv map in
  let countriesByDate := fold_left countryStep byCountryCsv [] in
  let! map := foldM activeCountriesStep countriesByDate map in
  alloc (ArrayObject (List.map snd map)).

(** The JSON body and the status of the response. *)
Inductive Response :=
  | Json200 (body : list HeartbeatPoint)
  | Error500.

(** [GET], given what the five [fetchCsvSafe] calls returned; a failed
    read of the store stands for the exception the [catch] turns into the
    status 500. *)
Definition GET (ordersCsv labelsCsv byCountryCsv packersCsv pickersCsv : list RawRow)
    : Response :=
  let run :=
    let! rows := buildRows ordersCsv labelsCsv byCountryCsv packersCsv pickersCsv in
    let! items := readArray rows in
    match items with
    | [] => ret []
    | _ => computeHeartbeat_st rows
    end in
  match run [] with
  | Some (heartbeat, _) => Json200 heartbeat
  | None => Error500
  end.
End Runtime.

(** ** Notions the statements use *)

(** *** Numbers and orders *)

(** Truthiness and finiteness, read on the specification side. *)
Definition sf_falsy (f : spec_float) : bool :=
  match f with S754_zero _ | S754_nan => true | _ => false end.

Definition sf_finite (f : spec_float) : bool :=
  match f with S754_zero _ | S754_finite _ _ _ => true | _ => false end.

(** A rounding result that kept the sign [sx] and did not vanish. *)
Definition signed_nonzero (sx : bool) (f : spec_float) : Prop :=
  match f with
  | S754_finite s _ _ | S754_infinity s => s = sx
  | _ => False
  end.

(** The position of a number on the integer line of multiples of
    [2^emin]; the infinities lie beyond every finite number. *)
Definition huge : Z := 2 ^ 2100.

Definition ordZ (f : spec_float) : Z :=
  match f with
  | S754_zero _ | S754_nan => 0
  | S754_infinity s => cond_Zopp s huge
  | S754_finite s m e => cond_Zopp s (Z.pos m * 2 ^ (e - emin))
  end.

Definition ord (x : number) : Z := ordZ (Prim2SF x).

(** Ascending numeric order. *)
Definition numLe (a b : number) : Prop := (a <=? b)%float = true.

(** [localeCompare] keeps [a] in front of [b]. *)
Definition localeLe (localeCompare : string -> string -> number) (a b : string) : Prop :=
  (0 <? localeCompare a b)%float = false.

(** A comparator is consistent on a set of dates when [localeLe] is total
    and transitive there. *)
Definition consistentOn (localeCompare : string -> string -> number)
    (ds : list string) : Prop :=
  (forall a b, In a ds -> In b ds ->
     localeLe localeCompare a b \/ localeLe localeCompare b a)
  /\ (forall a b c, In a ds -> In b ds -> In c ds ->
        localeLe localeCompare a b -> localeLe localeCompare b c ->
        localeLe localeCompare a c).

(** Lexical order: byte-wise comparison of the strings. *)
Definition lexLe (a b : string) : Prop := String.leb a b = true.

Definition signOf (c : comparison) : number :=
  match c with Lt => (-1)%float | Eq => 0%float | Gt => 1%float end.

(** The byte-wise comparison as a comparator. *)
Definition lexicalCompare (a b : string) : number := signOf (String.compare a b).

(** Upper-case letters folded to lower case. *)
Definition foldCase (c : ascii) : ascii :=
  let n := nat_of_ascii c in
  if (65 <=? n)%nat && (n <=? 90)%nat then ascii_of_nat (n + 32) else c.

Fixpoint foldCases (s : string) : string :=
  match s with
  | EmptyString => EmptyString
  | String c s' => String (foldCase c) (foldCases s')
  end.

(** A comparator with the behaviour of locale collation on letters: the
    alphabetical position decides before the case does, and on equal
    letters lower case goes first.  So ["a"] comes before ["B"], as
    ["a".localeCompare("B")] is negative under the collations of the
    runtime. *)
Definition alphabeticalCompare (a b : string) : number :=
  match String.compare (foldCases a) (foldCases b) with
  | Eq => signOf (String.compare b a)
  | c => signOf c
  end.

(** *** Rows and stores of the examples *)

(** The row with every absent metric written out as [0]. *)
Definition fillDefaults (r : MetricsRow) : MetricsRow :=
  {| date := date r;
     orders := Some (nullish (orders r) 0%float);
     shipping_labels := Some (nullish (shipping_labels r) 0%float);
     total_packers := Some (nullish (total_packers r) 0%float);
     total_warehouses_packers := Some (nullish (total_warehouses_packers r) 0%float);
     total_pickers := Some (nullish (total_pickers r) 0%float);
     total_warehouses_pickers := Some (nullish (total_warehouses_pickers r) 0%float);
     active_countries := Some (nullish (active_countries r) 0%float) |}.

(** A row with [orders = n] and the six other fields [0]. *)
Definition ordersRow (d : string) (n : number) : MetricsRow :=
  {| date := d; orders := Some n; shipping_labels := Some 0%float;
     total_packers := Some 0%float; total_warehouses_packers := Some 0%float;
     total_pickers := Some 0%float; total_warehouses_pickers := Some 0%float;
     active_countries := Some 0%float |}.

Definition ordersMetrics (n : number) : Metrics :=
  {| m_orders := n; m_shipping_labels := 0; m_total_packers := 0;
     m_total_pickers := 0; m_total_warehouses_packers := 0;
     m_total_warehouses_pickers := 0; m_active_countries := 0 |}%float.

Definition example_rows : list MetricsRow :=
  [ordersRow "2025-01-01" 10%float; ordersRow "2025-01-02" 20%float].

Definition example_point1 : HeartbeatPoint :=
  {| timestamp := "2025-01-01Z";
     intensity := (100 * 1.0 / 4.7)%float;
     metrics := ordersMetrics 10%float |}.

Definition example_point2 : HeartbeatPoint :=
  {| timestamp := "2025-01-02Z";
     intensity := (100 * 2.0 / 4.7)%float;
     metrics := ordersMetrics 20%float |}.

(** A row with the same value in every field. *)
Definition constRow (d : string) (v : number) : MetricsRow :=
  {| date := d; orders := Some v; shipping_labels := Some v;
     total_packers := Some v; total_warehouses_packers := Some v;
     total_pickers := Some v; total_warehouses_pickers := Some v;
     active_countries := Some v |}.

(** Four rows whose orders are [4, 1, 3, 2]. *)
Definition quartile_rows : list MetricsRow :=
  [ordersRow "2025-11-27" 4%float; ordersRow "2025-11-28" 1%float;
   ordersRow "2025-11-29" 3%float; ordersRow "2025-11-30" 2%float].

(** [fst <$> readRows rows h]: the rows a caller's array holds. *)
Definition rowsAt (h : store) (rows : ref) : option (list MetricsRow) :=
  fst <$> readRows rows h.

(** A store with the two example rows, later date first, and their array. *)
Definition example_store : store :=
  [RowObject (ordersRow "2025-01-02" 20%float);
   RowObject (ordersRow "2025-01-01" 10%float);
   ArrayObject [0; 1]].

(** *** The invariant of the join *)

(** [r.date] of the row object behind a reference, if there is one. *)
Definition dateOfRow (h : store) (r : ref) : option string :=
  match h !! r with
  | Some (RowObject row) => Some (date row)
  | _ => None
  end.

(** Every metric a row carries is a finite number. *)
Definition finiteRow (row : MetricsRow) : Prop :=
  forall key v, rawField row key = Some v -> is_finite v = true.

Definition finiteRows (h : store) : Prop :=
  forall r row, h !! r = Some (RowObject row) -> finiteRow row.

(** The invariant of the join: the keys of the map are distinct, each is
    the date of the row object its entry refers to, and the row objects
    hold finite numbers only. *)
Definition joinInv (h : store) (m : MetricsMap) : Prop :=
  NoDup (List.map fst m)
  /\ Forall (fun e => dateOfRow h (snd e) = Some (fst e)) m
  /\ finiteRows h.

(** Row objects stay row objects, keep their dates and stay finite. *)
Definition keepsRows (h h' : store) : Prop :=
  (forall r k, dateOfRow h r = Some k -> dateOfRow h' r = Some k)
  /\ (finiteRows h -> finiteRows h').

(** A step of the join succeeds and keeps the invariant. *)
Definition stepKeeps {A} (step : MetricsMap -> A -> M MetricsMap) : Prop :=
  forall h m x,
    joinInv h m -> exists m' h', step m x h = Some (m', h') /\ joinInv h' m'.

(** *** The index of the percentile, in binary64 *)

(** [Math.floor] of a non-negative finite number, and the index of
    [percentile75] as the binary64 expression computes it. *)
Definition floorNat (x : number) : nat :=
  match Prim2SF x with
  | S754_finite false m e => Z.to_nat (Z.shiftl (Z.pos m) e)
  | _ => 0
  end.

Definition idx75_binary64 (n : nat) : nat :=
  floorNat (0.75 * (number_of_nat n - 1))%float.


(** ** Further notions: ranks and geometry of the percentile *)

(** How many of [values] are at most, and at least, [v]. *)
Definition countLe (v : number) (values : list number) : nat :=
  length (List.filter (fun x => (x <=? v)%float) values).

Definition countGe (v : number) (values : list number) : nat :=
  length (List.filter (fun x => (v <=? x)%float) values).

(** The rows of [safeRows] whose date is [d]. *)
Definition withDate (d : string) (safeRows : list SafeRow) : list SafeRow :=
  List.filter (fun s => String.eqb (s_date s) d) safeRows.

(** ** Further notions: what the join files under a date *)

(** The string a loop goes on with: none where [!s] makes it [continue]. *)
Definition keyOf (s : option string) : option string :=
  if falsyStr s then None else Some (nullish s "").

(** The keys of a map after [ensureRow] of [d]. *)
Definition addKey (keys : list string) (d : string) : list string :=
  if existsb (String.eqb d) keys then keys else keys ++ [d].

(** The distinct strings of a list, each at its first occurrence. *)
Definition firstSeen (ds : list string) : list string := fold_left addKey ds [].

(** The last finite number of a list, if it has one, else [init]. *)
Definition lastFrom (init : option number) (vs : list number) : option number :=
  fold_left (fun acc v => if is_finite v then Some v else acc) vs init.

Definition lastFinite (vs : list number) : option number := lastFrom None vs.

(** One pass of a loop of the join, as what it does to the map: the date
    whose row it takes from [ensureRow], and the values it offers to the
    fields of that row. *)
Definition Event : Type := string * list (MetricKey * number).

Fixpoint writeAll (target : ref) (ws : list (MetricKey * number)) : M unit :=
  match ws with
  | [] => ret tt
  | (key, v) :: ws' => let! _ := assignFinite target key v in writeAll target ws'
  end.

Definition eventStep (map : MetricsMap) (e : Event) : M MetricsMap :=
  let! (map, target) := ensureRow map (fst e) in
  let! _ := writeAll target (snd e) in
  ret map.

(** The values the events offer to the field [key] of the date [d]. *)
Definition writesOf (events : list Event) (d : string) (key : MetricKey) : list number :=
  flat_map
    (fun e : Event =>
       if String.eqb (fst e) d
       then List.map snd (List.filter (fun w => bool_decide (fst w = key)) (snd e))
       else [])
    events.

(** The fields the events leave to the row of a date. *)
Definition fieldsOf (events : list Event) (d : string) (key : MetricKey) : option number :=
  lastFinite (writesOf events d key).

(** The store and the map hold, for every date [d] of the map, a row
    object of that date whose fields are [F d]. *)
Definition holds (h : store) (m : MetricsMap) (F : string -> MetricKey -> option number)
    : Prop :=
  NoDup (List.map fst m)
  /\ forall d r, In (d, r) m ->
       exists row, h !! r = Some (RowObject row) /\ date row = d
                   /\ forall key, rawField row key = F d key.

Section JoinReading.
Variable trim : string -> string.
Variable Number : option string -> number.

(** The date of a row of the orders feed, and of a row of the other
    feeds. *)
Definition ordersDate (row : RawRow) : option string :=
  keyOf (trim <$> match row !! "date_utc" with Some d => Some d | None => row !! "date" end).

Definition rowDate (row : RawRow) : option string := keyOf (trim <$> row !! "date").

(** The date and the country of a row of the by-country feed, where both
    are there. *)
Definition rowCountry (row : RawRow) : option (string * string) :=
  match rowDate row, keyOf (trim <$> row !! "shipping_country") with
  | Some d, Some c => Some (d, c)
  | _, _ => None
  end.

(** The numbers a feed has in column [col] on the rows of date [d]. *)
Definition valuesOn (dateOf : RawRow -> option string) (col d : string)
    (csv : list RawRow) : list number :=
  List.map (fun row => Number (row !! col))
    (List.filter (fun row => bool_decide (dateOf row = Some d)) csv).

(** The countries the by-country feed has on the rows of date [d]. *)
Definition countriesOn (d : string) (csv : list RawRow) : gset string :=
  list_to_set
    (omap (fun row =>
             match rowCountry row with
             | Some (d', c) => if String.eqb d' d then Some c else None
             | None => None
             end) csv).

(** The number of countries of a date, where the by-country feed has
    any. *)
Definition activeOn (d : string) (csv : list RawRow) : option number :=
  match size (countriesOn d csv) with
  | O => None
  | n => Some (number_of_nat n)
  end.

(** The row of the date [d], read off the five feeds. *)
Definition joinedRow (ordersCsv labelsCsv byCountryCsv packersCsv pickersCsv : list RawRow)
    (d : string) : MetricsRow :=
  {| date := d;
     orders := lastFinite (valuesOn ordersDate "orders" d ordersCsv);
     shipping_labels := lastFinite (valuesOn rowDate "shipping_labels" d labelsCsv);
     total_packers := lastFinite (valuesOn rowDate "total_packers" d packersCsv);
     total_warehouses_packers :=
       lastFinite (valuesOn rowDate "total_warehouses" d packersCsv);
     total_pickers := lastFinite (valuesOn rowDate "total_pickers" d pickersCsv);
     total_warehouses_pickers :=
       lastFinite (valuesOn rowDate "total_warehouses" d pickersCsv);
     active_countries := activeOn d byCountryCsv |}.

(** What the loop over the by-country feed has after the rows [csv]. *)
Definition countriesAfter (cbd : CountryMap) (csv : list RawRow) : Prop :=
  NoDup (List.map fst cbd)
  /\ List.map fst cbd = firstSeen (omap (fun row => fst <$> rowCountry row) csv)
  /\ (forall d s, In (d, s) cbd -> s = countriesOn d csv /\ s <> ∅)
  /\ (forall d, ~ In d (List.map fst cbd) -> countriesOn d csv = ∅).

(** Every date the five feeds file a row under, in the order of the
    loops. *)
Definition feedDates (ordersCsv labelsCsv byCountryCsv packersCsv pickersCsv : list RawRow)
    : list string :=
  omap ordersDate ordersCsv ++ omap rowDate labelsCsv ++ omap rowDate packersCsv
  ++ omap rowDate pickersCsv ++ omap (fun row => fst <$> rowCountry row) byCountryCsv.

(** The events of a row of a feed that writes the columns [cols]. *)
Definition feedEvents (dateOf : RawRow -> option string)
    (cols : list (MetricKey * string)) (row : RawRow) : list Event :=
  match dateOf row with
  | Some d => [(d, List.map (fun c => (fst c, Number (row !! snd c))) cols)]
  | None => []
  end.

Definition countryEvent (entry : string * gset string) : Event :=
  (fst entry, [(ActiveCountries, number_of_nat (size (snd entry)))]).

(** All the events of a run of [buildRows], in the order of the loops. *)
Definition joinEvents (ordersCsv labelsCsv byCountryCsv packersCsv pickersCsv : list RawRow)
    : list Event :=
  flat_map (feedEvents ordersDate [(Orders, "orders")]) ordersCsv
  ++ flat_map (feedEvents rowDate [(ShippingLabels, "shipping_labels")]) labelsCsv
  ++ flat_map (feedEvents rowDate
                 [(TotalPackers, "total_packers");
                  (TotalWarehousesPackers, "total_warehouses")]) packersCsv
  ++ flat_map (feedEvents rowDate
                 [(TotalPickers, "total_pickers");
                  (TotalWarehousesPickers, "total_warehouses")]) pickersCsv
  ++ List.map countryEvent (fold_left (countryStep trim) byCountryCsv []).
End JoinReading.

(** ** The comets route: arcs from the warehouse to the countries of a date *)

Module Comets.

Definition LonLat : Type := number * number.

(** New York, the origin of every arc. *)
Definition ORIGIN : LonLat := ((-74.0060)%float, 40.7128%float).

Definition COUNTRY_COORDS : list (string * LonLat) :=
  [("US", ((-98.35)%float, 39.50%float));
   ("CA", ((-106.35)%float, 56.13%float));
   ("MX", ((-102.55)%float, 23.63%float));
   ("GB", ((-3.43)%float, 55.38%float));
   ("DE", (10.45%float, 51.16%float));
   ("FR", (2.21%float, 46.23%float));
   ("ES", ((-3.75)%float, 40.46%float));
   ("IT", (12.57%float, 41.87%float));
   ("NL", (5.29%float, 52.13%float));
   ("BE", (4.47%float, 50.50%float));
   ("AU", (133.78%float, (-25.27)%float));
   ("NZ", (174.89%float, (-40.90)%float));
   ("BR", ((-51.93)%float, (-14.23)%float));
   ("AR", ((-63.62)%float, (-38.42)%float));
   ("CL", ((-71.54)%float, (-35.68)%float));
   ("ZA", (22.94%float, (-30.56)%float));
   ("JP", (138.25%float, 36.20%float));
   ("CN", (104.19%float, 35.86%float));
   ("IN", (78.96%float, 20.59%float));
   ("SG", (103.82%float, 1.35%float));
   ("KR", (127.98%float, 37.66%float))].

(** What [COUNTRY_COORDS[country] ?? ...] can be: a pair of the table, or
    the member of [Object.prototype] the name [country] reaches, the table
    being an object literal. *)
Inductive Dest :=
  | Coords (lonLat : LonLat)
  | PrototypeMember (name : string).

Record CometArc := {
  a_date : string;
  country : string;
  count : number;
  origin : LonLat;
  dest : Dest
}.

(** An element of the response. *)
Record Bucket := { b_date : string; arcs : list CometArc }.

(** [arr.push(arc)] on the array [byDate] has for [date], a new array
    being set at the end of the map when it has none. *)
Fixpoint pushArc (byDate : list (string * list CometArc)) (date : string) (arc : CometArc)
    : list (string * list CometArc) :=
  match byDate with
  | [] => [(date, [arc])]
  | (k, arr) :: m =>
      if String.eqb k date then (k, arr ++ [arc]) :: m
      else (k, arr) :: pushArc m date arc
  end.

Section Runtime.
Variable localeCompare : string -> string -> number.
Variable trim : string -> string.
Variable Number : option string -> number.
(** Whether [Object.prototype] has a property of the name. *)
Variable inherited : string -> bool.

(** [COUNTRY_COORDS[name]]; every member of [Object.prototype] is a
    function or an object, so not nullish. *)
Definition lookup (name : string) : option Dest :=
  match map_get COUNTRY_COORDS name with
  | Some lonLat => Some (Coords lonLat)
  | None => if inherited name then Some (PrototypeMember name) else None
  end.

Definition destOf (country : string) : Dest :=
  nullish (lookup country)
    (nullish (lookup "US") (Coords ((-98.35)%float, 39.50%float))).

(** The body of the loop over the rows. *)
Definition arcStep (byDate : list (string * list CometArc)) (row : RawRow)
    : list (string * list CometArc) :=
  let date := trim <$> row !! "date" in
  let country := trim <$> row !! "shipping_country" in
  let count := Number (row !! "shipping_labels_by_country") in
  if falsyStr date || falsyStr country || negb (is_finite count) then byDate
  else
    let dest := destOf (nullish country "") in
    pushArc byDate (nullish date "")
      {| a_date := nullish date "";
         country := nullish country "";
         count := count;
         origin := ORIGIN;
         dest := dest |}.

(** [GET], given the rows [fetchCsv] returned. *)
Definition GET (rows : list RawRow) : list Bucket :=
  match rows with
  | [] => []
  | _ =>
      let byDate := fold_left arcStep rows [] in
      let sorted := JSsort (fun a b => localeCompare (fst a) (fst b)) byDate in
      List.map (fun e => {| b_date := fst e; arcs := snd e |}) sorted
  end.

(** The arc of a row, where the row passes the guard. *)
Definition arcOf (row : RawRow) : option CometArc :=
  match keyOf (trim <$> row !! "date"), keyOf (trim <$> row !! "shipping_country") with
  | Some date, Some country =>
      let count := Number (row !! "shipping_labels_by_country") in
      if is_finite count
      then Some {| a_date := date; country := country; count := count;
                   origin := ORIGIN; dest := destOf country |}
      else None
  | _, _ => None
  end.

(** The arcs of the rows of date [d], in the order of the rows. *)
Definition arcsOn (d : string) (rows : list RawRow) : list CometArc :=
  List.filter (fun a => String.eqb (a_date a) d) (omap arcOf rows).

Definition arcDates (rows : list RawRow) : list string :=
  List.map a_date (omap arcOf rows).
End Runtime.
End Comets.

(** ** The heartbeat chart: what it keeps and scales of a response *)

Module HeartbeatChart.

Definition MAX_RECENT_POINTS : nat := 96.

(** The filter of [cleaned], on elements of the declared type: a finite
    intensity and a non-empty timestamp. *)
Definition keep (p : HeartbeatPoint) : bool :=
  is_finite (intensity p) && negb (falsyStr (Some (timestamp p))).

Section Runtime.
Variable localeCompare : string -> string -> number.

Definition cleaned (raw : list HeartbeatPoint) : list HeartbeatPoint :=
  JSsort (fun a b => localeCompare (timestamp a) (timestamp b)) (List.filter keep raw).
End Runtime.

(** [data.slice(-MAX_RECENT_POINTS)] where the data are longer. *)
Definition recentData (data : list HeartbeatPoint) : list HeartbeatPoint :=
  match data with
  | [] => []
  | _ =>
      if (length data <=? MAX_RECENT_POINTS)%nat then data
      else drop (length data - MAX_RECENT_POINTS) data
  end.

Definition maxIntensity (recentData : list HeartbeatPoint) : number :=
  match recentData with
  | [] => 0%float
  | p0 :: _ =>
      fold_left (fun max p => if (max <? intensity p)%float then intensity p else max)
        recentData (intensity p0)
  end.

(** [[minAll, maxAll]] *)
Definition minMaxAll (data : list HeartbeatPoint) : number * number :=
  match data with
  | [] => (0%float, 1%float)
  | p0 :: _ =>
      let '(min, max) :=
        fold_left
          (fun '(min, max) p =>
             let min := if (intensity p <? min)%float then intensity p else min in
             let max := if (max <? intensity p)%float then intensity p else max in
             (min, max))
          data (intensity p0, intensity p0) in
      if (min =? max)%float then (min, (min + 1)%float) else (min, max)
  end.
End HeartbeatChart.
(** * Part II: properties *)

(** ** Facts about binary64 numbers *)

Lemma SFeqb_refl_non_nan f : f <> S754_nan -> SFeqb f f = true.
Proof.
  destruct f as [s|s| |s m e]; intros Hn; try congruence; unfold SFeqb; simpl.
  - reflexivity.
  - destruct s; reflexivity.
  - rewrite Z.compare_refl.
    change PosDef.Pos.compare_cont with Pos.compare_cont.
    rewrite Pos.compare_cont_refl. destruct s; reflexivity.
Qed.

Lemma is_nan_spec x : is_nan x = match Prim2SF x with S754_nan => true | _ => false end.
Proof.
  unfold is_nan. rewrite FloatAxioms.eqb_spec.
  destruct (Prim2SF x) eqn:E; try (rewrite SFeqb_refl_non_nan by congruence);
    reflexivity.
Qed.

Lemma is_zero_spec x : is_zero x = match Prim2SF x with S754_zero _ => true | _ => false end.
Proof.
  unfold is_zero. rewrite FloatAxioms.eqb_spec.
  change (Prim2SF PrimFloat.zero) with (S754_zero false).
  destruct (Prim2SF x) as [s|s| |s m e]; try destruct s; reflexivity.
Qed.

Lemma is_infinity_spec x :
  is_infinity x = match Prim2SF x with S754_infinity _ => true | _ => false end.
Proof.
  unfold is_infinity. rewrite FloatAxioms.eqb_spec, abs_spec.
  change (Prim2SF PrimFloat.infinity) with (S754_infinity false).
  destruct (Prim2SF x) as [s|s| |s m e]; reflexivity.
Qed.

Lemma falsy_spec x : falsy x = sf_falsy (Prim2SF x).
Proof.
  unfold falsy. rewrite is_zero_spec, is_nan_spec.
  destruct (Prim2SF x); reflexivity.
Qed.

Lemma is_finite_spec x : is_finite x = sf_finite (Prim2SF x).
Proof.
  unfold is_finite. rewrite is_nan_spec, is_infinity_spec.
  destruct (Prim2SF x); reflexivity.
Qed.

(** [x || 1] is never falsy, and is [x] itself on a truthy [x]. *)
Lemma or_else_truthy x : falsy (or_else x 1%float) = false.
Proof. unfold or_else. destruct (falsy x) eqn:E; [reflexivity | exact E]. Qed.

Lemma or_else_id x : falsy x = false -> or_else x 1%float = x.
Proof. unfold or_else. intros ->. reflexivity. Qed.

Lemma or_else_idem x : or_else (or_else x 1%float) 1%float = or_else x 1%float.
Proof. apply or_else_id, or_else_truthy. Qed.

Lemma truthy_not_zero x : falsy x = false -> is_zero x = false.
Proof. unfold falsy. intros H. apply orb_false_iff in H. tauto. Qed.

(** A finite non-zero number divided by itself is exactly [1]: the
    quotient of the mantissas is [2^53] with remainder [0]. *)
Lemma SFdiv_self s m e :
  SFdiv prec emax (S754_finite s m e) (S754_finite s m e) = Prim2SF 1%float.
Proof.
  unfold SFdiv, SFdiv_core_binary. cbv zeta.
  replace (Zdigits2 (Z.pos m) + e - (Zdigits2 (Z.pos m) + e))%Z with 0%Z by lia.
  replace (e - e)%Z with 0%Z by lia.
  change (Z.min (fexp prec emax 0) 0) with (-53)%Z.
  change (0 - -53)%Z with 53%Z. cbv iota.
  assert (Hd : Z.div_eucl (Z.shiftl (Z.pos m) 53) (Z.pos m) = (2 ^ 53, 0)%Z).
  { pose proof (Z.div_eucl_eq (Z.shiftl (Z.pos m) 53) (Z.pos m)) as H.
    pose proof (Z.mod_pos_bound (Z.shiftl (Z.pos m) 53) (Z.pos m)) as Hb.
    unfold Z.modulo in Hb.
    destruct (Z.div_eucl (Z.shiftl (Z.pos m) 53) (Z.pos m)) as [q r].
    rewrite Z.shiftl_mul_pow2 in H by lia.
    specialize (H ltac:(lia)). specialize (Hb ltac:(lia)).
    assert (q = 2 ^ 53)%Z by nia. subst q. f_equal. lia. }
  rewrite Hd.
  replace (new_location (Z.pos m) 0) with loc_Exact
    by (unfold new_location; destruct (Z.even (Z.pos m)); reflexivity).
  destruct s; reflexivity.
Qed.

Lemma div_self x :
  is_finite x = true -> falsy x = false -> (x / x)%float = 1%float.
Proof.
  rewrite is_finite_spec, falsy_spec. intros Hf Hz.
  apply Prim2SF_inj. rewrite div_spec. unfold SF64div.
  destruct (Prim2SF x) as [s|s| |s m e]; try discriminate.
  apply SFdiv_self.
Qed.

(** Zero divided by a truthy number is a zero, and so is its product with
    a weight. *)
Lemma zero_div_truthy d : falsy d = false -> is_zero (0 / d)%float = true.
Proof.
  rewrite falsy_spec, is_zero_spec, div_spec. unfold SF64div.
  change (Prim2SF 0%float) with (S754_zero false).
  destruct (Prim2SF d) as [s|s| |s m e]; simpl; intros; congruence.
Qed.

Lemma weight_mul_zero key z : is_zero z = true -> is_zero (weights key * z)%float = true.
Proof.
  rewrite !is_zero_spec, mul_spec. unfold SF64mul.
  destruct (Prim2SF z) as [s|s| |s m e]; try discriminate. intros _.
  destruct key; reflexivity.
Qed.

(** ** The order of binary64 numbers

    Subtraction never rounds a non-zero difference to zero, so the sign of
    [a - b] is that of the exact difference; the lemmas are stated on the
    integer position [ordZ] of a valid number. *)

Section Binary64Order.
Local Open Scope Z_scope.

Lemma digits2_pos_bounds m :
  2 ^ (Z.pos (digits2_pos m) - 1) <= Z.pos m < 2 ^ Z.pos (digits2_pos m).
Proof.
  induction m as [m IH|m IH|]; simpl digits2_pos.
  - rewrite Pos2Z.inj_succ.
    replace (Z.succ (Z.pos (digits2_pos m)) - 1) with (Z.succ (Z.pos (digits2_pos m) - 1)) by lia.
    rewrite !Z.pow_succ_r by lia. lia.
  - rewrite Pos2Z.inj_succ.
    replace (Z.succ (Z.pos (digits2_pos m)) - 1) with (Z.succ (Z.pos (digits2_pos m) - 1)) by lia.
    rewrite !Z.pow_succ_r by lia. lia.
  - simpl. lia.
Qed.

Lemma digits2_pos_le m k : Z.pos m < 2 ^ k -> Z.pos (digits2_pos m) <= k.
Proof.
  intros H. pose proof (digits2_pos_bounds m) as [Hl _].
  destruct (Z.le_gt_cases (Z.pos (digits2_pos m)) k) as [|Hgt]; [assumption|exfalso].
  assert (2 ^ k <= 2 ^ (Z.pos (digits2_pos m) - 1)).
  { apply Z.pow_le_mono_r; [lia|]. lia. }
  lia.
Qed.

Lemma shr_1_m mrs : 0 <= shr_m mrs -> shr_m (shr_1 mrs) = shr_m mrs / 2.
Proof.
  destruct mrs as [m r s]. simpl. intros Hm.
  destruct m as [|p|p]; [reflexivity| |lia].
  destruct p as [p|p|]; simpl shr_m.
  - rewrite Pos2Z.inj_xI. apply Z.div_unique with 1; lia.
  - rewrite Pos2Z.inj_xO. apply Z.div_unique with 0; lia.
  - reflexivity.
Qed.

Lemma iter_pos_shr_1_m p : forall mrs,
  0 <= shr_m mrs -> shr_m (SpecFloat.iter_pos shr_1 p mrs) = shr_m mrs / 2 ^ Z.pos p.
Proof.
  induction p as [p IH|p IH|]; intros mrs Hm; simpl SpecFloat.iter_pos.
  - assert (H1 : 0 <= shr_m (shr_1 mrs)) by (rewrite shr_1_m by lia; apply Z.div_pos; lia).
    assert (H2 : 0 <= shr_m (SpecFloat.iter_pos shr_1 p (shr_1 mrs)))
      by (rewrite IH by lia; apply Z.div_pos; lia).
    rewrite IH, IH, shr_1_m by lia.
    rewrite !Z.div_div by lia. f_equal.
    replace (Z.pos p~1) with (1 + Z.pos p + Z.pos p) by lia.
    rewrite !Z.pow_add_r by lia. change (2 ^ 1) with 2. lia.
  - assert (H2 : 0 <= shr_m (SpecFloat.iter_pos shr_1 p mrs))
      by (rewrite IH by lia; apply Z.div_pos; lia).
    rewrite IH, IH by lia.
    rewrite !Z.div_div by lia. f_equal.
    replace (Z.pos p~0) with (Z.pos p + Z.pos p) by lia.
    rewrite !Z.pow_add_r by lia. lia.
  - rewrite shr_1_m by lia. reflexivity.
Qed.

(** The shift of [shr_fexp], with the exponent and the mantissa it leaves. *)
Lemma shr_fexp_bounds m e l :
  emin <= e ->
  exists m' r s e',
    shr_fexp prec emax (Z.pos m) e l = (Build_shr_record (Z.pos m') r s, e')
    /\ emin <= e'
    /\ e' <= Z.max e (Z.pos (digits2_pos m) + e - prec)
    /\ Z.pos m' <= Z.pos m.
Proof.
  intros He. unfold shr_fexp, shr.
  set (n := fexp prec emax (Zdigits2 (Z.pos m) + e) - e).
  assert (Hn : n <= Z.pos (digits2_pos m) - 1).
  { unfold n, fexp, SpecFloat.emin, prec, emax in *. simpl Zdigits2.
    pose proof (Pos2Z.is_pos (digits2_pos m)). lia. }
  assert (Hn' : 0 < n -> e + n = Z.pos (digits2_pos m) + e - prec).
  { unfold n, fexp, SpecFloat.emin, prec, emax in *. simpl Zdigits2. lia. }
  pose proof (digits2_pos_bounds m) as [Hlo _].
  destruct n as [|p|p] eqn:En.
  - destruct l as [|[| |]]; simpl; exists m; eauto 10 with lia.
  - assert (Hm : shr_m (SpecFloat.iter_pos shr_1 p (shr_record_of_loc (Z.pos m) l))
                 = Z.pos m / 2 ^ Z.pos p).
    { rewrite iter_pos_shr_1_m; destruct l as [|[| |]]; simpl; try lia; reflexivity. }
    assert (Hp2 : 0 < 2 ^ Z.pos p) by (apply Z.pow_pos_nonneg; lia).
    assert (Hpos : 0 < Z.pos m / 2 ^ Z.pos p).
    { apply Z.div_str_pos. split; [lia|].
      eapply Z.le_trans; [|exact Hlo]. apply Z.pow_le_mono_r; lia. }
    assert (Hle : Z.pos m / 2 ^ Z.pos p <= Z.pos m).
    { apply Z.div_le_upper_bound; [lia|]. nia. }
    destruct (SpecFloat.iter_pos shr_1 p (shr_record_of_loc (Z.pos m) l)) as [m' r s].
    simpl in Hm. destruct m' as [|m'|m']; try lia.
    exists m', r, s, (e + Z.pos p). split; [reflexivity|]. lia.
  - destruct l as [|[| |]]; simpl; exists m; eauto 10 with lia.
Qed.

Lemma binary_round_aux_sign sx m e l :
  emin <= e -> signed_nonzero sx (binary_round_aux prec emax sx (Z.pos m) e l).
Proof.
  intros He. unfold binary_round_aux.
  destruct (shr_fexp_bounds m e l He) as (m1 & r1 & s1 & e1 & -> & He1 & _).
  assert (Hr : exists m2, round_nearest_even (shr_m {| shr_m := Z.pos m1; shr_r := r1; shr_s := s1 |})
            (loc_of_shr_record {| shr_m := Z.pos m1; shr_r := r1; shr_s := s1 |}) = Z.pos m2).
  { assert (Hs : Z.pos m1 + 1 = Z.pos (m1 + 1)) by lia.
    destruct r1, s1; cbn [shr_m loc_of_shr_record round_nearest_even];
      try destruct (Z.even (Z.pos m1)); rewrite ?Hs; eauto. }
  destruct Hr as [m2 ->].
  destruct (shr_fexp_bounds m2 e1 loc_Exact He1) as (m3 & r3 & s3 & e3 & -> & He3 & _).
  simpl shr_m. destruct (e3 <=? emax - prec); reflexivity.
Qed.

Lemma binary_round_sign sx m e :
  emin <= e -> signed_nonzero sx (binary_round prec emax sx m e).
Proof.
  intros He. unfold binary_round, shl_align.
  set (e' := fexp prec emax (Z.pos (digits2_pos m) + e)).
  assert (He' : emin <= e') by (unfold e', fexp; lia).
  destruct (e' - e); apply binary_round_aux_sign; assumption.
Qed.

Lemma binary_normalize_sign d e :
  emin <= e ->
  SFltb (S754_zero false) (binary_normalize prec emax d e false) = (0 <? d).
Proof.
  intros He. destruct d as [|p|p]; simpl binary_normalize; [reflexivity| |].
  - pose proof (binary_round_sign false p e He) as H.
    destruct (binary_round prec emax false p e); simpl in H; try contradiction;
      subst; reflexivity.
  - pose proof (binary_round_sign true p e He) as H.
    destruct (binary_round prec emax true p e); simpl in H; try contradiction;
      subst; reflexivity.
Qed.

Lemma pos_iter_xO m d : Z.pos (Pos.iter xO m d) = Z.pos m * 2 ^ Z.pos d.
Proof.
  induction d as [|d IH] using Pos.peano_ind.
  - simpl. lia.
  - rewrite Pos.iter_succ, Pos2Z.inj_xO, IH, Pos2Z.inj_succ, Z.pow_succ_r by lia. lia.
Qed.

Lemma shl_align_value m e e' :
  e' <= e -> Z.pos (fst (shl_align m e e')) = Z.pos m * 2 ^ (e - e').
Proof.
  intros H. unfold shl_align. destruct (e' - e) as [|p|p] eqn:E; simpl fst.
  - replace (e - e') with 0 by lia. lia.
  - lia.
  - rewrite pos_iter_xO. f_equal. f_equal. lia.
Qed.

Lemma valid_finite s m e :
  valid_binary (S754_finite s m e) = true ->
  emin <= e <= emax - prec /\ Z.pos (digits2_pos m) <= prec
  /\ (e = emin \/ Z.pos (digits2_pos m) = prec).
Proof.
  unfold valid_binary, bounded, canonical_mantissa, fexp.
  intros H. apply andb_prop in H as [H1 H2].
  apply Z.eqb_eq in H1. apply Z.leb_le in H2. lia.
Qed.

Lemma huge_pos : 0 < huge.
Proof. unfold huge. apply Z.pow_pos_nonneg; lia. Qed.

Lemma finite_below_huge s m e :
  valid_binary (S754_finite s m e) = true ->
  0 < Z.pos m * 2 ^ (e - emin) < huge.
Proof.
  intros H. apply valid_finite in H as (He & Hd & _).
  pose proof (digits2_pos_bounds m) as [_ Hm].
  assert (Hm' : Z.pos m < 2 ^ 53).
  { eapply Z.lt_le_trans; [exact Hm|]. apply Z.pow_le_mono_r; unfold prec in *; lia. }
  assert (Hp : 0 < 2 ^ (e - emin)) by (apply Z.pow_pos_nonneg; lia).
  assert (Hq : 2 ^ (e - emin) <= 2 ^ 2045).
  { apply Z.pow_le_mono_r; unfold emax, prec, SpecFloat.emin in *; lia. }
  assert (Hh : huge = 2 ^ 53 * 2 ^ 2045 * 4).
  { unfold huge. rewrite <- Z.pow_add_r by lia. change 4 with (2 ^ 2).
    rewrite <- Z.pow_add_r by lia. reflexivity. }
  rewrite Hh. clear Hh.
  set (P := 2 ^ (e - emin)) in *. set (A := 2 ^ 53) in *. set (B := 2 ^ 2045) in *.
  assert (0 < A) by (apply Z.pow_pos_nonneg; lia).
  assert (0 < B) by (apply Z.pow_pos_nonneg; lia).
  nia.
Qed.

Lemma finite_compare m1 e1 m2 e2 :
  valid_binary (S754_finite false m1 e1) = true ->
  valid_binary (S754_finite false m2 e2) = true ->
  (Z.pos m1 * 2 ^ (e1 - emin) ?= Z.pos m2 * 2 ^ (e2 - emin)) =
    match e1 ?= e2 with
    | Eq => Pos.compare_cont Eq m1 m2
    | Lt => Lt
    | Gt => Gt
    end.
Proof.
  intros H1 H2.
  apply valid_finite in H1 as (He1 & Hd1 & Hc1).
  apply valid_finite in H2 as (He2 & Hd2 & Hc2).
  pose proof (digits2_pos_bounds m1) as [Hl1 Hu1].
  pose proof (digits2_pos_bounds m2) as [Hl2 Hu2].
  assert (Hlt : forall ma ea mb eb,
             emin <= ea -> ea < eb ->
             Z.pos ma < 2 ^ Z.pos (digits2_pos ma) -> Z.pos (digits2_pos ma) <= prec ->
             2 ^ (prec - 1) <= Z.pos mb ->
             Z.pos ma * 2 ^ (ea - emin) < Z.pos mb * 2 ^ (eb - emin)).
  { intros ma ea mb eb Hea Hab Hma Hda Hmb.
    assert (Ha : Z.pos ma < 2 ^ prec).
    { eapply Z.lt_le_trans; [exact Hma|]. apply Z.pow_le_mono_r; lia. }
    replace (eb - emin) with ((ea - emin) + 1 + (eb - ea - 1)) by lia.
    rewrite !Z.pow_add_r by lia.
    replace (2 ^ prec) with (2 ^ (prec - 1) * 2) in Ha by reflexivity.
    change (2 ^ 1) with 2.
    assert (0 < 2 ^ (ea - emin)) by (apply Z.pow_pos_nonneg; lia).
    assert (0 < 2 ^ (eb - ea - 1)) by (apply Z.pow_pos_nonneg; lia).
    set (P := 2 ^ (ea - emin)) in *. set (Q := 2 ^ (eb - ea - 1)) in *.
    set (H52 := 2 ^ (prec - 1)) in *.
    assert (S1 : Z.pos ma * P < H52 * 2 * P) by nia.
    assert (S2 : H52 * 2 * P <= Z.pos mb * 2 * P) by nia.
    assert (S3 : Z.pos mb * 2 * P * 1 <= Z.pos mb * 2 * P * Q)
      by (apply Z.mul_le_mono_nonneg_l; nia).
    nia. }
  destruct (Z.compare_spec e1 e2) as [Heq|Hl|Hg].
  - subst e2. change (Pos.compare_cont Eq m1 m2) with (Z.pos m1 ?= Z.pos m2).
    assert (0 < 2 ^ (e1 - emin)) by (apply Z.pow_pos_nonneg; lia).
    destruct (Z.compare_spec (Z.pos m1) (Z.pos m2)) as [E|E|E].
    + rewrite E. apply Z.compare_refl.
    + apply Z.compare_lt_iff. nia.
    + apply Z.compare_gt_iff. nia.
  - apply Z.compare_lt_iff. apply Hlt; try lia.
    destruct Hc2 as [?|Hc2]; [lia|]. rewrite <- Hc2. exact Hl2.
  - apply Z.compare_gt_iff. apply Hlt; try lia.
    destruct Hc1 as [?|Hc1]; [lia|]. rewrite <- Hc1. exact Hl1.
Qed.

Lemma SFcompare_ordZ_finite sx mx ex sy my ey :
  valid_binary (S754_finite sx mx ex) = true ->
  valid_binary (S754_finite sy my ey) = true ->
  SFcompare (S754_finite sx mx ex) (S754_finite sy my ey) =
    Some (ordZ (S754_finite sx mx ex) ?= ordZ (S754_finite sy my ey)).
Proof.
  intros Vx Vy.
  pose proof (finite_below_huge _ _ _ Vx) as Bx.
  pose proof (finite_below_huge _ _ _ Vy) as By.
  unfold SFcompare, ordZ. f_equal.
  destruct sx, sy; cbn [cond_Zopp].
  - rewrite Z.compare_opp, (finite_compare my ey mx ex) by assumption.
    rewrite (Z.compare_antisym ex ey).
    destruct (ex ?= ey); simpl; try reflexivity.
    change (Pos.compare_cont Eq my mx) with (Pos.compare my mx).
    change (PosDef.Pos.compare_cont Eq mx my) with (Pos.compare mx my).
    rewrite (Pos.compare_antisym mx my). reflexivity.
  - symmetry. apply Z.compare_lt_iff. lia.
  - symmetry. apply Z.compare_gt_iff. lia.
  - rewrite (finite_compare mx ex my ey) by assumption. reflexivity.
Qed.

Lemma SFcompare_ordZ x y :
  valid_binary x = true -> valid_binary y = true ->
  x <> S754_nan -> y <> S754_nan ->
  SFcompare x y = Some (ordZ x ?= ordZ y).
Proof.
  intros Vx Vy Nx Ny. pose proof huge_pos as Hh.
  destruct x as [sx|sx| |sx mx ex]; try congruence;
    destruct y as [sy|sy| |sy my ey]; try congruence;
    try (apply SFcompare_ordZ_finite; assumption);
    try (pose proof (finite_below_huge _ _ _ Vx) as Bx);
    try (pose proof (finite_below_huge _ _ _ Vy) as By);
    unfold SFcompare, ordZ; f_equal;
    try destruct sx; try destruct sy; cbn [cond_Zopp]; symmetry;
    first [ apply Z.compare_refl
          | apply Z.compare_lt_iff; lia
          | apply Z.compare_gt_iff; lia ].
Qed.

Lemma SFsub_sign_finite sx mx ex sy my ey :
  valid_binary (S754_finite sx mx ex) = true ->
  valid_binary (S754_finite sy my ey) = true ->
  SFltb (S754_zero false)
        (SFsub prec emax (S754_finite sx mx ex) (S754_finite sy my ey)) =
    (ordZ (S754_finite sy my ey) <? ordZ (S754_finite sx mx ex)).
Proof.
  intros Vx Vy. cbn [SFsub ordZ].
  apply valid_finite in Vx as (Hex & _). apply valid_finite in Vy as (Hey & _).
  cbv zeta. rewrite binary_normalize_sign by lia.
  rewrite !shl_align_value by lia.
  set (ez := Z.min ex ey).
  assert (Hx : Z.pos mx * 2 ^ (ex - emin) = Z.pos mx * 2 ^ (ex - ez) * 2 ^ (ez - emin)).
  { rewrite <- Z.mul_assoc, <- Z.pow_add_r by lia. do 2 f_equal. lia. }
  assert (Hy : Z.pos my * 2 ^ (ey - emin) = Z.pos my * 2 ^ (ey - ez) * 2 ^ (ez - emin)).
  { rewrite <- Z.mul_assoc, <- Z.pow_add_r by lia. do 2 f_equal. lia. }
  rewrite Hx, Hy.
  assert (Hp : 0 < 2 ^ (ez - emin)) by (apply Z.pow_pos_nonneg; lia).
  set (P := 2 ^ (ez - emin)) in *.
  set (X := Z.pos mx * 2 ^ (ex - ez)). set (Y := Z.pos my * 2 ^ (ey - ez)).
  destruct sx, sy; cbn [cond_Zopp];
    match goal with
    | |- (0 <? ?d) = (?a <? ?b) =>
        destruct (Z.ltb_spec 0 d); destruct (Z.ltb_spec a b); try reflexivity; nia
    end.
Qed.

Lemma SFsub_sign x y :
  valid_binary x = true -> valid_binary y = true ->
  x <> S754_nan -> y <> S754_nan ->
  SFltb (S754_zero false) (SFsub prec emax x y) = (ordZ y <? ordZ x).
Proof.
  intros Vx Vy Nx Ny. pose proof huge_pos as Hh.
  destruct x as [sx|sx| |sx mx ex]; try congruence;
    destruct y as [sy|sy| |sy my ey]; try congruence;
    try (apply SFsub_sign_finite; assumption);
    try (pose proof (finite_below_huge _ _ _ Vx) as Bx);
    try (pose proof (finite_below_huge _ _ _ Vy) as By);
    cbn [SFsub ordZ];
    try destruct sx; try destruct sy; cbn [cond_Zopp negb SFltb SFcompare]; symmetry;
    first [ apply Z.ltb_irrefl | apply Z.ltb_lt; lia | apply Z.ltb_ge; lia ].
Qed.

(** A 63-bit integer converts to a finite number. *)
Lemma binary_round_aux_finite sx m e l :
  emin <= e -> e <= 0 -> Z.pos m < 2 ^ 63 ->
  sf_finite (binary_round_aux prec emax sx (Z.pos m) e l) = true.
Proof.
  intros He He0 Hm. unfold binary_round_aux.
  pose proof (digits2_pos_le m 63 Hm) as Hd.
  destruct (shr_fexp_bounds m e l He) as (m1 & r1 & s1 & e1 & -> & He1 & Hu1 & Hm1).
  assert (Hr : exists m2, round_nearest_even (shr_m {| shr_m := Z.pos m1; shr_r := r1; shr_s := s1 |})
            (loc_of_shr_record {| shr_m := Z.pos m1; shr_r := r1; shr_s := s1 |}) = Z.pos m2
            /\ Z.pos m2 <= Z.pos m1 + 1).
  { assert (Hs : Z.pos m1 + 1 = Z.pos (m1 + 1)) by lia.
    destruct r1, s1; cbn [shr_m loc_of_shr_record round_nearest_even];
      try destruct (Z.even (Z.pos m1)); rewrite ?Hs; eexists; split; try reflexivity; lia. }
  destruct Hr as (m2 & -> & Hm2).
  assert (Hd2 : Z.pos (digits2_pos m2) <= 64).
  { apply digits2_pos_le. change (2 ^ 64) with (2 ^ 63 * 2). lia. }
  destruct (shr_fexp_bounds m2 e1 loc_Exact He1) as (m3 & r3 & s3 & e3 & -> & He3 & Hu3 & Hm3).
  simpl shr_m.
  assert (Hle : e3 <= emax - prec) by (unfold emax, prec in *; lia).
  apply Z.leb_le in Hle. rewrite Hle. reflexivity.
Qed.

Lemma binary_normalize_finite z :
  0 <= z < 2 ^ 63 -> sf_finite (binary_normalize prec emax z 0 false) = true.
Proof.
  intros Hz. destruct z as [|m|m]; [reflexivity| |lia].
  unfold binary_normalize, binary_round, shl_align.
  set (e' := fexp prec emax (Z.pos (digits2_pos m) + 0)).
  pose proof (digits2_pos_bounds m) as [_ Hu].
  destruct (e' - 0) as [|p|p] eqn:E.
  - apply binary_round_aux_finite; unfold SpecFloat.emin, emax, prec; lia.
  - apply binary_round_aux_finite; unfold SpecFloat.emin, emax, prec; lia.
  - assert (He' : e' = Z.pos (digits2_pos m) - prec /\ emin <= e').
    { unfold e', fexp, SpecFloat.emin, emax, prec in *. lia. }
    destruct He' as [He' Hmin].
    apply binary_round_aux_finite; [exact Hmin|lia|].
    rewrite pos_iter_xO.
    assert (Hp : Z.pos p = prec - Z.pos (digits2_pos m)) by lia.
    rewrite Hp.
    assert (Z.pos m * 2 ^ (prec - Z.pos (digits2_pos m)) < 2 ^ prec).
    { replace (2 ^ prec) with (2 ^ Z.pos (digits2_pos m) * 2 ^ (prec - Z.pos (digits2_pos m))).
      - apply Z.mul_lt_mono_pos_r; [apply Z.pow_pos_nonneg; lia|exact Hu].
      - rewrite <- Z.pow_add_r by lia. f_equal. lia. }
    eapply Z.lt_trans; [eassumption|]. reflexivity.
Qed.

End Binary64Order.

Lemma Prim2SF_non_nan x : is_nan x = false -> Prim2SF x <> S754_nan.
Proof. rewrite is_nan_spec. destruct (Prim2SF x); congruence. Qed.

(** The comparator [(a, b) => a - b] sends [b] in front of [a] exactly
    when [b] is the smaller number. *)
Lemma sub_sortsAfter a b :
  is_nan a = false -> is_nan b = false ->
  (0 <? a - b)%float = (ord b <? ord a)%Z.
Proof.
  intros Ha Hb. rewrite FloatAxioms.ltb_spec, sub_spec.
  change (Prim2SF 0%float) with (S754_zero false).
  apply SFsub_sign; auto using Prim2SF_valid, Prim2SF_non_nan.
Qed.

Lemma leb_ord a b :
  is_nan a = false -> is_nan b = false ->
  (a <=? b)%float = (ord a <=? ord b)%Z.
Proof.
  intros Ha Hb. rewrite FloatAxioms.leb_spec. unfold SFleb, ord, Z.leb.
  rewrite SFcompare_ordZ by auto using Prim2SF_valid, Prim2SF_non_nan.
  reflexivity.
Qed.

(** A length or a size is a finite number. *)
Lemma number_of_nat_finite n : is_finite (number_of_nat n) = true.
Proof.
  rewrite is_finite_spec. unfold number_of_nat. rewrite of_uint63_spec.
  apply binary_normalize_finite.
  pose proof (Uint63.to_Z_bounded (Uint63.of_Z (Z.of_nat n))) as H.
  exact H.
Qed.

(** ** Facts about the stable sort *)

Section JSsortFacts.
Context {A : Type} (comparefn : A -> A -> number).

Lemma sort_insert_perm x l : Permutation (sort_insert comparefn x l) (x :: l).
Proof.
  induction l as [|y l IH]; simpl; [reflexivity|].
  destruct (sortsAfter comparefn x y); [|reflexivity].
  rewrite IH. apply perm_swap.
Qed.

Lemma JSsort_perm l : Permutation (JSsort comparefn l) l.
Proof.
  induction l as [|x l IH]; simpl; [reflexivity|].
  rewrite sort_insert_perm. now constructor.
Qed.

Lemma JSsort_length l : length (JSsort comparefn l) = length l.
Proof. apply Permutation_length, JSsort_perm. Qed.

(** On a domain [P] where [keepsBefore] is a total preorder, the result is
    sorted for that preorder. *)

Section Sorted.
Variable P : A -> Prop.
Hypothesis keeps_total : forall a b, P a -> P b -> keepsBefore comparefn a b \/ keepsBefore comparefn b a.
Hypothesis keeps_trans :
  forall a b c, P a -> P b -> P c -> keepsBefore comparefn a b -> keepsBefore comparefn b c -> keepsBefore comparefn a c.

Lemma sort_insert_sorted x l :
  P x -> Forall P l -> StronglySorted (keepsBefore comparefn) l ->
  StronglySorted (keepsBefore comparefn) (sort_insert comparefn x l).
Proof.
  intros Px Pl Hs. induction Hs as [|y l Hs IH Hy]; simpl.
  - repeat constructor.
  - apply Forall_cons in Pl as [Py Pl].
    destruct (sortsAfter comparefn x y) eqn:E.
    + constructor; [now apply IH|].
      eapply Permutation_Forall; [symmetry; apply sort_insert_perm|].
      constructor; [|exact Hy].
      destruct (keeps_total x y Px Py) as [H|H]; [unfold keepsBefore in H; congruence|exact H].
    + constructor; [now constructor|].
      constructor; [exact E|].
      rewrite Forall_forall in Hy, Pl |- *. intros z Hz.
      apply (keeps_trans x y z); auto.
Qed.

Lemma JSsort_sorted l : Forall P l -> StronglySorted (keepsBefore comparefn) (JSsort comparefn l).
Proof.
  induction 1 as [|x l Px Pl IH]; simpl; [constructor|].
  apply sort_insert_sorted; auto.
  eapply Permutation_Forall; [symmetry; apply JSsort_perm|exact Pl].
Qed.
End Sorted.
End JSsortFacts.

(** ** The total weight *)

(** C5: the divisor of the intensity is the sum of the seven fixed
    weights, added in key order; that binary64 sum is the number [4.7],
    whatever the input, and every point is divided by it. *)
Theorem totalWeight_is_4_7 :
  totalWeight = (0 + 1.0 + 1.0 + 0.7 + 0.7 + 0.4 + 0.4 + 0.5)%float
  /\ totalWeight = 4.7%float
  /\ forall q r, intensity (heartbeatPoint q r) = (100 * score q r / 4.7)%float.
Proof.
  split; [reflexivity|]. split; [reflexivity|]. intros; reflexivity.
Qed.

(** ** The example of two records *)

(** C1: on the rows [2025-01-01, orders 10] and [2025-01-02, orders 20],
    the sorted orders column is [10, 20], the index is [0] and
    [q75[orders]] is [10]; every all-zero column gets the denominator [1];
    the two points carry the intensities [100 * 1.0 / 4.7] and
    [100 * 2.0 / 4.7], in the order the date comparison gives. *)
Theorem example_two_records :
  let safeRows := map safeRow example_rows in
  sortNumeric (map (fun r => field (s_metrics r) Orders) safeRows) = [10; 20]%float
  /\ idx75 2 = 0
  /\ q75 safeRows Orders = 10%float
  /\ (forall key, key <> Orders -> q75 safeRows key = 1%float)
  /\ intensity (heartbeatPoint (q75 safeRows) (safeRow (ordersRow "2025-01-01" 10%float))) =
       (100 * 1.0 / 4.7)%float
  /\ intensity (heartbeatPoint (q75 safeRows) (safeRow (ordersRow "2025-01-02" 20%float))) =
       (100 * 2.0 / 4.7)%float
  /\ forall localeCompare,
       computeHeartbeat localeCompare example_rows =
         if (0 <? localeCompare "2025-01-01" "2025-01-02")%float
         then [example_point2; example_point1]
         else [example_point1; example_point2].
Proof.
  cbv zeta. repeat split; try reflexivity.
  - intros key Hk. destruct key; try reflexivity. congruence.
  - intros lc. unfold computeHeartbeat, sortByDate, example_rows. simpl.
    unfold sortsAfter. simpl.
    destruct (0 <? lc "2025-01-01" "2025-01-02")%float; reflexivity.
Qed.

(** ** Empty input *)

(** C7: on the empty sequence [computeHeartbeat] returns the empty
    sequence; the function is total, no step of it can fail. *)
Theorem computeHeartbeat_empty :
  forall localeCompare, computeHeartbeat localeCompare [] = [].
Proof. reflexivity. Qed.

(** ** Records that sit on the denominators *)

Lemma computeHeartbeat_points localeCompare rows :
  Permutation (computeHeartbeat localeCompare rows)
    (map (fun r => heartbeatPoint (q75 (map safeRow rows)) (safeRow r)) rows).
Proof.
  unfold computeHeartbeat, sortByDate. rewrite JSsort_perm.
  rewrite map_map. reflexivity.
Qed.

Lemma q75_truthy safeRows key : falsy (q75 safeRows key) = false.
Proof. apply or_else_truthy. Qed.

Lemma norm_on_denominator safeRows key v :
  v = q75 safeRows key -> is_finite v = true ->
  (v / or_else (q75 safeRows key) 1)%float = 1%float.
Proof.
  intros Hv Hf. rewrite or_else_id by apply q75_truthy. rewrite <- Hv.
  apply div_self; [exact Hf|]. rewrite Hv. apply q75_truthy.
Qed.

Lemma intensity_100 safeRows s :
  (forall key, is_finite (field (s_metrics s) key) = true) ->
  (forall key, field (s_metrics s) key = q75 safeRows key) ->
  intensity (heartbeatPoint (q75 safeRows) s) = 100%float.
Proof.
  intros Hfin Heq.
  unfold heartbeatPoint, intensity, score, metricsKeys, fold_left.
  rewrite !norm_on_denominator by auto. reflexivity.
Qed.

Lemma point_in_output localeCompare rows r :
  In r rows ->
  In (heartbeatPoint (q75 (map safeRow rows)) (safeRow r))
     (computeHeartbeat localeCompare rows).
Proof.
  intros Hin. eapply Permutation_in; [symmetry; apply computeHeartbeat_points|].
  apply (in_map (fun r => heartbeatPoint (q75 (map safeRow rows)) (safeRow r))), Hin.
Qed.

(** C4: a record whose seven values are the seven denominators gets
    intensity [100] exactly, and its point is in the output.  The values
    are finite numbers, as the ingestion makes them (see
    [GET_intensity_on_denominators]). *)
Theorem intensity_on_denominators :
  forall localeCompare rows r,
    In r rows ->
    (forall key, is_finite (field (s_metrics (safeRow r)) key) = true) ->
    (forall key, field (s_metrics (safeRow r)) key = q75 (map safeRow rows) key) ->
    let p := heartbeatPoint (q75 (map safeRow rows)) (safeRow r) in
    In p (computeHeartbeat localeCompare rows) /\ intensity p = 100%float.
Proof.
  intros lc rows r Hin Hfin Heq. cbv zeta. split.
  - now apply point_in_output.
  - now apply intensity_100.
Qed.

Lemma intensity_on_denominators_witness :
  In (heartbeatPoint (q75 (map safeRow [constRow "2025-11-28" 5%float])) (safeRow (constRow "2025-11-28" 5%float)))
     (computeHeartbeat (fun _ _ => 0%float) [constRow "2025-11-28" 5%float])
  /\ intensity (heartbeatPoint (q75 (map safeRow [constRow "2025-11-28" 5%float])) (safeRow (constRow "2025-11-28" 5%float))) = 100%float.
Proof.
  apply (intensity_on_denominators (fun _ _ => 0%float) [constRow "2025-11-28" 5%float] (constRow "2025-11-28" 5%float)).
  - simpl. left. reflexivity.
  - intros key. destruct key; reflexivity.
  - intros key. destruct key; reflexivity.
Defined.

(** ** Absent fields *)

Lemma safeRow_field r key :
  field (s_metrics (safeRow r)) key = nullish (rawField r key) 0%float.
Proof. destruct key; reflexivity. Qed.

(** C6: an absent field is the number [0] in [safeRows], the table the
    percentile columns are read from; the column of a key has one entry per
    row, [0] for the rows that lack the field; the normalized value of such
    a field and the term it adds to the score are zero; and the whole
    result is that of the rows with the zeros written out. *)
Theorem absent_field_is_zero :
  forall localeCompare rows,
    (forall r key, rawField r key = None -> field (s_metrics (safeRow r)) key = 0%float)
    /\ (forall r key v, rawField r key = Some v -> field (s_metrics (safeRow r)) key = v)
    /\ (forall key,
          map (fun s => field (s_metrics s) key) (map safeRow rows) =
            map (fun r => nullish (rawField r key) 0%float) rows)
    /\ (forall key,
          q75 (map safeRow rows) key =
            or_else (percentile75 (map (fun r => nullish (rawField r key) 0%float) rows)) 1%float)
    /\ (forall r key,
          rawField r key = None ->
          is_zero (field (s_metrics (safeRow r)) key /
                   or_else (q75 (map safeRow rows) key) 1)%float = true
          /\ is_zero (weights key *
                      (field (s_metrics (safeRow r)) key /
                       or_else (q75 (map safeRow rows) key) 1))%float = true)
    /\ computeHeartbeat localeCompare rows =
         computeHeartbeat localeCompare (map fillDefaults rows).
Proof.
  intros lc rows.
  assert (Hcol : forall key,
            map (fun s => field (s_metrics s) key) (map safeRow rows) =
              map (fun r => nullish (rawField r key) 0%float) rows).
  { intros key. rewrite map_map. apply map_ext. intros r. apply safeRow_field. }
  split; [intros r key H; rewrite safeRow_field, H; reflexivity|].
  split; [intros r key v H; rewrite safeRow_field, H; reflexivity|].
  split; [exact Hcol|].
  split; [intros key; unfold q75; rewrite Hcol; reflexivity|].
  split.
  - intros r key H. rewrite safeRow_field, H. simpl nullish.
    pose proof (zero_div_truthy _ (or_else_truthy (q75 (map safeRow rows) key))) as Hz.
    split; [exact Hz|]. now apply weight_mul_zero.
  - unfold computeHeartbeat. rewrite map_map. reflexivity.
Qed.

(** ** The timestamp *)

Lemma append_assoc' (a b c : string) : (a +:+ b) +:+ c = a +:+ (b +:+ c).
Proof.
  induction a as [|x a IH]; [reflexivity|].
  change (String x ((a +:+ b) +:+ c) = String x (a +:+ (b +:+ c))). now rewrite IH.
Qed.

Lemma replace_space_T_none s :
  (forall n, String.get n s <> Some " "%char) -> replace_space_T s = s.
Proof.
  induction s as [|c s IH]; intros H; simpl; [reflexivity|].
  destruct (Ascii.eqb_spec c " "%char) as [->|Hc].
  - exfalso. apply (H 0). reflexivity.
  - f_equal. apply IH. intros n. apply (H (S n)).
Qed.

Lemma replace_space_T_first pre post :
  (forall n, String.get n pre <> Some " "%char) ->
  replace_space_T (pre +:+ " " +:+ post) = pre +:+ "T" +:+ post.
Proof.
  induction pre as [|c pre IH]; intros H; simpl; [reflexivity|].
  destruct (Ascii.eqb_spec c " "%char) as [->|Hc].
  - exfalso. apply (H 0). reflexivity.
  - rewrite IH by (intros n; apply (H (S n))). reflexivity.
Qed.

(** C8: the timestamp of every point is the date of its record with the
    first space replaced by [T] and [Z] appended, and every record has its
    point: a date without a space is kept whole, and in
    [pre +:+ " " +:+ post] with no space in [pre] only that space
    changes. *)
Theorem timestamp_decoration :
  forall localeCompare rows,
    map timestamp (computeHeartbeat localeCompare rows) =
      map (fun s => replace_space_T (s_date s) +:+ "Z")
          (sortByDate localeCompare (map safeRow rows))
    /\ Permutation (map timestamp (computeHeartbeat localeCompare rows))
                   (map (fun r => replace_space_T (date r) +:+ "Z") rows)
    /\ (forall s, (forall n, String.get n s <> Some " "%char) ->
                  replace_space_T s +:+ "Z" = s +:+ "Z")
    /\ (forall pre post, (forall n, String.get n pre <> Some " "%char) ->
          replace_space_T (pre +:+ " " +:+ post) +:+ "Z" = pre +:+ "T" +:+ post +:+ "Z").
Proof.
  intros lc rows. split; [|split; [|split]].
  - unfold computeHeartbeat. rewrite map_map. reflexivity.
  - rewrite computeHeartbeat_points, map_map. reflexivity.
  - intros s H. now rewrite replace_space_T_none.
  - intros pre post H. rewrite replace_space_T_first by exact H.
    rewrite !append_assoc'. reflexivity.
Qed.

(** ** The order of the output *)

Lemma lexLe_total a b : lexLe a b \/ lexLe b a.
Proof. apply String.leb_total. Qed.

Lemma lexLe_trans a b c : lexLe a b -> lexLe b c -> lexLe a c.
Proof.
  unfold lexLe, String.leb. intros Hab Hbc.
  destruct (String.compare a c) eqn:Hac; try reflexivity. exfalso.
  assert (Hca : String_as_OT.lt c a).
  { unfold String_as_OT.lt. change String_as_OT.compare with String.compare.
    rewrite String.compare_antisym, Hac. reflexivity. }
  destruct (String_as_OT.compare_spec a b) as [Heq|Hlt|Hgt].
  - hnf in Heq. subst b.
    hnf in Hca. change String_as_OT.compare with String.compare in Hca.
    rewrite String.compare_antisym in Hca.
    destruct (String.compare a c); simpl in *; congruence.
  - assert (Hcb : String_as_OT.lt c b)
      by (eapply (@StrictOrder_Transitive _ _ String_as_OT.lt_strorder); eauto).
    hnf in Hcb. change String_as_OT.compare with String.compare in Hcb.
    rewrite String.compare_antisym in Hcb.
    destruct (String.compare b c); simpl in *; congruence.
  - hnf in Hgt. change String_as_OT.compare with String.compare in Hgt.
    rewrite String.compare_antisym in Hgt.
    destruct (String.compare a b); simpl in *; congruence.
Qed.

Lemma sortByDate_perm localeCompare safeRows :
  Permutation (sortByDate localeCompare safeRows) safeRows.
Proof. apply JSsort_perm. Qed.

Lemma sortByDate_sorted localeCompare safeRows :
  consistentOn localeCompare (map s_date safeRows) ->
  StronglySorted (fun a b => localeLe localeCompare (s_date a) (s_date b))
    (sortByDate localeCompare safeRows).
Proof.
  intros [Htot Htrans]. unfold sortByDate.
  apply (JSsort_sorted (fun a b => localeCompare (s_date a) (s_date b))
           (fun s => In (s_date s) (map s_date safeRows))).
  - intros a b Ha Hb. apply (Htot _ _ Ha Hb).
  - intros a b c Ha Hb Hc. apply (Htrans _ _ _ Ha Hb Hc).
  - apply List.Forall_forall. intros s Hs. now apply in_map.
Qed.

Lemma safeRow_dates rows : map s_date (map safeRow rows) = map date rows.
Proof. rewrite map_map. reflexivity. Qed.

(** C3, as the code has it: the points are those of the rows taken in the
    order [localeCompare] gives their dates, which is ascending for every
    comparator consistent on these dates; the order is the ascending
    lexical one whenever [localeCompare] and the lexical comparison agree
    on them. *)
Theorem output_sorted_by_localeCompare :
  forall localeCompare rows,
    let sorted := sortByDate localeCompare (map safeRow rows) in
    computeHeartbeat localeCompare rows =
      map (heartbeatPoint (q75 (map safeRow rows))) sorted
    /\ Permutation (map s_date sorted) (map date rows)
    /\ (consistentOn localeCompare (map date rows) ->
        StronglySorted (fun a b => localeLe localeCompare (s_date a) (s_date b)) sorted)
    /\ ((forall a b, In a (map date rows) -> In b (map date rows) ->
           (localeLe localeCompare a b <-> lexLe a b)) ->
        StronglySorted (fun a b => lexLe (s_date a) (s_date b)) sorted).
Proof.
  intros lc rows sorted.
  assert (Hperm : Permutation (map s_date sorted) (map date rows)).
  { unfold sorted. rewrite sortByDate_perm, safeRow_dates. reflexivity. }
  split; [reflexivity|]. split; [exact Hperm|]. split.
  - intros Hc. apply sortByDate_sorted. rewrite safeRow_dates. exact Hc.
  - intros Hagree.
    assert (Hc : consistentOn lc (map date rows)).
    { split.
      - intros a b Ha Hb.
        destruct (lexLe_total a b); [left|right]; now apply Hagree.
      - intros a b c Ha Hb Hc Hab Hbc. apply Hagree; auto.
        apply (lexLe_trans a b c); now apply Hagree. }
    assert (Hs := sortByDate_sorted lc (map safeRow rows)).
    rewrite safeRow_dates in Hs. specialize (Hs Hc). fold sorted in Hs.
    assert (Hin : Forall (fun s => In (s_date s) (map date rows)) sorted).
    { apply List.Forall_forall. intros s Hs'.
      eapply Permutation_in; [exact Hperm|]. now apply in_map. }
    clear Hperm. induction Hs as [|s l Hs IH Hl]; [constructor|].
    apply Forall_cons in Hin as [Hs0 Hin].
    constructor; [now apply IH|].
    rewrite Forall_forall in Hl, Hin |- *. intros z Hz.
    apply Hagree; auto.
Qed.

(** C3 as stated fails: the dates ["a"] and ["B"] stay in that order under
    an alphabetical collation, and ["B"] is lexically below ["a"]. *)
Lemma lexical_order_counterexample :
  let rows := [emptyRow "a"; emptyRow "B"] in
  map timestamp (computeHeartbeat alphabeticalCompare rows) = ["aZ"; "BZ"]
  /\ map s_date (sortByDate alphabeticalCompare (map safeRow rows)) = ["a"; "B"]
  /\ ~ StronglySorted lexLe ["a"; "B"].
Proof.
  cbv zeta. split; [reflexivity|]. split; [reflexivity|].
  intros H. apply StronglySorted_inv in H as [_ H].
  apply Forall_cons in H as [H _]. vm_compute in H. discriminate.
Qed.

Lemma output_sorted_by_localeCompare_witness :
  let rows := [emptyRow "2025-11-29"; emptyRow "2025-11-28"] in
  StronglySorted (fun a b => lexLe (s_date a) (s_date b))
    (sortByDate lexicalCompare (map safeRow rows)).
Proof.
  cbv zeta.
  apply (output_sorted_by_localeCompare lexicalCompare
           [emptyRow "2025-11-29"; emptyRow "2025-11-28"]).
  intros a b Ha Hb. simpl in Ha, Hb.
  destruct Ha as [<-|[<-|[]]]; destruct Hb as [<-|[<-|[]]];
    vm_compute; split; congruence.
Defined.

(** ** The percentile denominators *)

Lemma StronglySorted_on {A} (P : A -> Prop) (R R' : A -> A -> Prop) l :
  (forall a b, P a -> P b -> R a b -> R' a b) ->
  Forall P l -> StronglySorted R l -> StronglySorted R' l.
Proof.
  intros HR HP Hs. induction Hs as [|x l Hs IH Hx]; [constructor|].
  apply Forall_cons in HP as [Px Pl].
  constructor; [now apply IH|].
  rewrite List.Forall_forall in Hx, Pl |- *. intros z Hz. apply HR; auto.
Qed.

Lemma sortNumeric_perm values : Permutation (sortNumeric values) values.
Proof. apply JSsort_perm. Qed.

Lemma sortNumeric_sorted values :
  Forall (fun v => is_nan v = false) values ->
  StronglySorted numLe (sortNumeric values).
Proof.
  intros Hn. unfold sortNumeric.
  apply (StronglySorted_on (fun v => is_nan v = false)
           (keepsBefore (fun a b => (a - b)%float))).
  - intros a b Ha Hb. unfold keepsBefore, sortsAfter, numLe.
    rewrite sub_sortsAfter, leb_ord by assumption. lia.
  - eapply Permutation_Forall; [symmetry; apply JSsort_perm|exact Hn].
  - apply (JSsort_sorted _ (fun v => is_nan v = false)).
    + intros a b Ha Hb. unfold keepsBefore, sortsAfter.
      rewrite !sub_sortsAfter by assumption. lia.
    + intros a b c Ha Hb Hc. unfold keepsBefore, sortsAfter.
      rewrite !sub_sortsAfter by assumption. lia.
    + exact Hn.
Qed.

(** On the first lengths the binary64 expression and the integer quotient
    are the same index. *)
Lemma idx75_binary64_agrees :
  forallb (fun n => Nat.eqb (idx75_binary64 n) (idx75 n)) (seq 1 4096) = true.
Proof. vm_compute. reflexivity. Qed.

Lemma idx75_lt n : (0 < n)%nat -> (idx75 n < n)%nat.
Proof.
  intros Hn. unfold idx75. apply Nat.Div0.div_lt_upper_bound. lia.
Qed.

Lemma percentile75_nonempty values :
  values <> [] ->
  exists v, sortNumeric values !! idx75 (length values) = Some v
            /\ percentile75 values = or_else v 1%float.
Proof.
  intros Hne.
  assert (Hlen : (idx75 (length values) < length (sortNumeric values))%nat).
  { unfold sortNumeric. rewrite JSsort_length. apply idx75_lt.
    destruct values; [congruence|simpl; lia]. }
  apply lookup_lt_is_Some_2 in Hlen as [v Hv]. exists v. split; [exact Hv|].
  unfold percentile75. destruct values as [|x values]; [congruence|].
  unfold sortNumeric in *. rewrite JSsort_length. rewrite Hv. reflexivity.
Qed.

(** C2: for a non-empty input the column of a key, sorted, is an ascending
    arrangement of the column's values; the denominator is the value at
    index [floor(0.75 * (n - 1))] of it, or [1] where that value is zero
    (or not a number); so it is never zero.  The empty array gives [1], and
    [[1, 2, 3, 4]] gives [sorted[2] = 3]. *)
Theorem q75_denominator :
  forall rows key,
    rows <> [] ->
    let column := map (fun r => nullish (rawField r key) 0%float) rows in
    let sorted := sortNumeric column in
    Permutation sorted column
    /\ (Forall (fun v => is_nan v = false) column -> StronglySorted numLe sorted)
    /\ (exists v,
          sorted !! idx75 (length rows) = Some v
          /\ q75 (map safeRow rows) key = (if falsy v then 1%float else v)
          /\ (is_zero v = true -> q75 (map safeRow rows) key = 1%float))
    /\ is_zero (q75 (map safeRow rows) key) = false
    /\ is_zero (or_else (q75 (map safeRow rows) key) 1%float) = false
    /\ percentile75 [] = 1%float
    /\ idx75 4 = 2
    /\ percentile75 [1; 2; 3; 4]%float = 3%float.
Proof.
  intros rows key Hne column sorted.
  split; [apply sortNumeric_perm|]. split; [apply sortNumeric_sorted|].
  split.
  - assert (Hcol : column <> []) by (unfold column; destruct rows; simpl; congruence).
    destruct (percentile75_nonempty column Hcol) as (v & Hv & Hp).
    assert (Hl : length column = length rows) by (unfold column; apply length_map).
    rewrite Hl in Hv.
    assert (Hq : q75 (map safeRow rows) key = or_else v 1%float).
    { unfold q75. rewrite map_map.
      rewrite (map_ext _ (fun r => nullish (rawField r key) 0%float))
        by (intros r; apply safeRow_field).
      fold column. rewrite Hp. apply or_else_idem. }
    exists v. split; [exact Hv|]. split; [exact Hq|].
    intros Hz. rewrite Hq. unfold or_else, falsy. rewrite Hz. reflexivity.
  - split; [apply truthy_not_zero, q75_truthy|].
    split; [apply truthy_not_zero, or_else_truthy|].
    repeat split; reflexivity.
Qed.

Lemma q75_denominator_witness :
  quartile_rows <> []
  /\ StronglySorted numLe
       (sortNumeric (map (fun r => nullish (rawField r Orders) 0%float) quartile_rows))
  /\ is_zero (q75 (map safeRow quartile_rows) Orders) = false.
Proof.
  assert (Hne : quartile_rows <> []) by discriminate.
  destruct (q75_denominator quartile_rows Orders Hne) as (_ & Hs & _ & Hz & _).
  split; [exact Hne|]. split; [|exact Hz].
  apply Hs. repeat constructor.
Defined.

(** ** The store: what [computeHeartbeat] reads and writes *)

Lemma bind_Some {A B} (m : M A) (k : A -> M B) h a h' :
  m h = Some (a, h') -> bind m k h = k a h'.
Proof. unfold bind. now intros ->. Qed.

Lemma bind_inv {A B} (m : M A) (k : A -> M B) h r :
  bind m k h = Some r -> exists a h', m h = Some (a, h') /\ k a h' = Some r.
Proof. unfold bind. destruct (m h) as [[a h']|]; [eauto|discriminate]. Qed.

Lemma readRow_inv r h row h' :
  readRow r h = Some (row, h') -> h' = h /\ h !! r = Some (RowObject row).
Proof.
  unfold readRow. destruct (h !! r) as [[| |]|]; try discriminate.
  intros [= <- <-]. auto.
Qed.

Lemma mapM_readRow_inv items : forall h rs h',
  mapM readRow items h = Some (rs, h') ->
  h' = h /\ Forall2 (fun i r => h !! i = Some (RowObject r)) items rs.
Proof.
  induction items as [|i items IH]; intros h rs h' H; simpl in H.
  - unfold ret in H. injection H as <- <-. split; [reflexivity|constructor].
  - apply bind_inv in H as (row & h1 & Hr & H).
    apply readRow_inv in Hr as [-> Hi].
    apply bind_inv in H as (rs' & h2 & E & H).
    unfold ret in H. injection H as <- <-.
    apply IH in E as [-> HF]. split; [reflexivity|]. now constructor.
Qed.

Lemma mapM_readRow_intro h items rs :
  Forall2 (fun i r => h !! i = Some (RowObject r)) items rs ->
  mapM readRow items h = Some (rs, h).
Proof.
  induction 1 as [|i r items rs Hi HF IH]; [reflexivity|].
  simpl. rewrite (bind_Some _ _ h r h) by (unfold readRow; now rewrite Hi).
  rewrite (bind_Some _ _ h rs h IH). reflexivity.
Qed.

Lemma mapM_readSafe_intro h refs ss :
  Forall2 (fun i s => h !! i = Some (SafeObject s)) refs ss ->
  mapM readSafe refs h = Some (ss, h).
Proof.
  induction 1 as [|i s refs ss Hi HF IH]; [reflexivity|].
  simpl. rewrite (bind_Some _ _ h s h) by (unfold readSafe; now rewrite Hi).
  rewrite (bind_Some _ _ h ss h IH). reflexivity.
Qed.

Lemma readRows_inv rows h rs h' :
  readRows rows h = Some (rs, h') ->
  h' = h /\ exists items,
    h !! rows = Some (ArrayObject items)
    /\ Forall2 (fun i r => h !! i = Some (RowObject r)) items rs.
Proof.
  intros H. apply bind_inv in H as (items & h1 & Hr & H).
  unfold readArray in Hr.
  destruct (h !! rows) as [[| |items']|] eqn:Hrows; try discriminate.
  injection Hr as <- <-.
  apply mapM_readRow_inv in H as [-> HF]. eauto.
Qed.

Lemma readRows_intro rows h items rs :
  h !! rows = Some (ArrayObject items) ->
  Forall2 (fun i r => h !! i = Some (RowObject r)) items rs ->
  readRows rows h = Some (rs, h).
Proof.
  intros Hr HF. unfold readRows.
  rewrite (bind_Some _ _ h items h) by (unfold readArray; now rewrite Hr).
  now apply mapM_readRow_intro.
Qed.

Lemma lookup_extend (h ext : store) l o : h !! l = Some o -> (h ++ ext) !! l = Some o.
Proof. intros H. rewrite lookup_app_l; [exact H|]. eapply lookup_lt_Some, H. Qed.

(** The spread copies are appended to the store, one after the other. *)
Lemma mapM_spreadRow h items rs :
  Forall2 (fun i r => h !! i = Some (RowObject r)) items rs ->
  forall ext,
    mapM spreadRow items (h ++ ext) =
      Some (seq (length (h ++ ext)) (length rs),
            (h ++ ext) ++ map (fun r => SafeObject (safeRow r)) rs).
Proof.
  induction 1 as [|i r items rs Hi HF IH]; intros ext.
  - simpl. unfold ret. now rewrite app_nil_r.
  - simpl.
    assert (Hs : spreadRow i (h ++ ext) =
                   Some (length (h ++ ext), h ++ (ext ++ [SafeObject (safeRow r)]))).
    { unfold spreadRow.
      rewrite (bind_Some _ _ _ r (h ++ ext))
        by (unfold readRow; now rewrite (lookup_extend h ext i _ Hi)).
      unfold alloc. now rewrite <- app_assoc. }
    rewrite (bind_Some _ _ _ _ _ Hs), (bind_Some _ _ _ _ _ (IH _)).
    unfold ret. f_equal. f_equal.
    + rewrite !length_app. simpl. f_equal. f_equal. lia.
    + rewrite <- !app_assoc. reflexivity.
Qed.

Lemma safe_objects_at (h : store) ss (rest : store) :
  Forall2 (fun i s => (h ++ map SafeObject ss ++ rest) !! i = Some (SafeObject s))
          (seq (length h) (length ss)) ss.
Proof.
  revert h. induction ss as [|s ss IH]; intros h; simpl; constructor.
  - rewrite lookup_app_r by lia. rewrite Nat.sub_diag. reflexivity.
  - specialize (IH (h ++ [SafeObject s])).
    rewrite length_app in IH. simpl in IH. rewrite Nat.add_1_r in IH.
    rewrite <- app_assoc in IH. exact IH.
Qed.

(** Sorting references by the dates behind them is sorting the objects. *)
Lemma sort_insert_map_on {A B} (f : A -> B) cmp1 cmp2 x l :
  (forall y, In y l -> cmp1 x y = cmp2 (f x) (f y)) ->
  map f (sort_insert cmp1 x l) = sort_insert cmp2 (f x) (map f l).
Proof.
  induction l as [|y l IH]; intros H; simpl; [reflexivity|].
  unfold sortsAfter. rewrite (H y) by (now left).
  destruct (0 <? cmp2 (f x) (f y))%float; [|reflexivity].
  simpl. f_equal. apply IH. intros z Hz. apply H. now right.
Qed.

Lemma JSsort_map_on {A B} (f : A -> B) cmp1 cmp2 l :
  (forall x y, In x l -> In y l -> cmp1 x y = cmp2 (f x) (f y)) ->
  map f (JSsort cmp1 l) = JSsort cmp2 (map f l).
Proof.
  induction l as [|x l IH]; intros H; simpl; [reflexivity|].
  rewrite <- IH by (intros; apply H; now right).
  apply sort_insert_map_on. intros y Hy. apply H; [now left|right].
  eapply Permutation_in; [apply JSsort_perm|exact Hy].
Qed.

Lemma Forall2_lookup_map {A B} (P : A -> B -> Prop) (f : A -> B) l :
  (forall x, In x l -> P x (f x)) -> Forall2 P l (map f l).
Proof.
  induction l as [|x l IH]; intros H; simpl; constructor.
  - apply H. now left.
  - apply IH. intros y Hy. apply H. now right.
Qed.

Lemma Forall2_safe_map (h : store) refs ss (dummy : SafeRow) :
  Forall2 (fun i s => h !! i = Some (SafeObject s)) refs ss ->
  let g := fun i => match h !! i with Some (SafeObject s) => s | _ => dummy end in
  ss = map g refs /\ forall i, In i refs -> h !! i = Some (SafeObject (g i)).
Proof.
  intros HF g. induction HF as [|i s refs ss Hi HF [IH1 IH2]].
  - split; [reflexivity|]. intros i [].
  - assert (Hg : g i = s) by (unfold g; now rewrite Hi).
    split; [simpl; now rewrite Hg, <- IH1|].
    intros j [<-|Hj]; [now rewrite Hg|now apply IH2].
Qed.

(** Reading the array after the in-place sort gives the objects in the
    order [sortByDate] gives the values. *)
Lemma sorted_refs_read localeCompare (h : store) refs ss :
  Forall2 (fun i s => h !! i = Some (SafeObject s)) refs ss ->
  Forall2 (fun i s => h !! i = Some (SafeObject s))
    (JSsort (fun x y => localeCompare (dateAt h x) (dateAt h y)) refs)
    (sortByDate localeCompare ss).
Proof.
  intros HF.
  destruct (Forall2_safe_map h refs ss {| s_date := ""; s_metrics := ordersMetrics 0%float |} HF)
    as [Hss Hg].
  set (g := fun i => match h !! i with
                     | Some (SafeObject s) => s
                     | _ => {| s_date := ""; s_metrics := ordersMetrics 0%float |}
                     end) in *.
  rewrite Hss. unfold sortByDate.
  rewrite <- (JSsort_map_on g (fun x y => localeCompare (dateAt h x) (dateAt h y))).
  - apply Forall2_lookup_map. intros i Hi. apply Hg.
    eapply Permutation_in; [apply JSsort_perm|exact Hi].
  - intros x y Hx Hy. unfold dateAt. now rewrite (Hg x Hx), (Hg y Hy).
Qed.

Lemma lookup_snoc (h : store) o : (h ++ [o]) !! length h = Some o.
Proof. rewrite lookup_app_r by lia. now rewrite Nat.sub_diag. Qed.

Lemma insert_snoc (h : store) o o' : <[length h := o']> (h ++ [o]) = h ++ [o'].
Proof.
  rewrite <- (Nat.add_0_r (length h)). now rewrite insert_app_r.
Qed.

(** What a run of [computeHeartbeat_st] returns and leaves in the store:
    the value of [computeHeartbeat] on the rows read, the old store
    untouched, and behind it the spread copies and the sorted array. *)
Lemma computeHeartbeat_st_run localeCompare (h : store) rows items rs :
  h !! rows = Some (ArrayObject items) ->
  Forall2 (fun i r => h !! i = Some (RowObject r)) items rs ->
  exists sortedRefs,
    computeHeartbeat_st localeCompare rows h =
      Some (computeHeartbeat localeCompare rs,
            h ++ (map (fun r => SafeObject (safeRow r)) rs ++ [ArrayObject sortedRefs])).
Proof.
  intros Hrows HF.
  set (h1 := h ++ map (fun r => SafeObject (safeRow r)) rs).
  set (refs := seq (length h) (length rs)).
  set (h2 := h1 ++ [ArrayObject refs]).
  set (sortedRefs :=
         JSsort (fun x y => localeCompare (dateAt h2 x) (dateAt h2 y)) refs).
  set (h3 := h1 ++ [ArrayObject sortedRefs]).
  exists sortedRefs. unfold computeHeartbeat_st.
  rewrite (bind_Some _ _ h items h) by (unfold readArray; now rewrite Hrows).
  assert (Hspread : mapM spreadRow items h = Some (refs, h1)).
  { pose proof (mapM_spreadRow h items rs HF []) as H.
    now rewrite !app_nil_r in H. }
  rewrite (bind_Some _ _ _ _ _ Hspread).
  rewrite (bind_Some _ _ h1 (length h1) h2) by reflexivity.
  assert (Hsafe2 : Forall2 (fun i s => h2 !! i = Some (SafeObject s)) refs (map safeRow rs)).
  { pose proof (safe_objects_at h (map safeRow rs) [ArrayObject refs]) as H.
    rewrite length_map, map_map in H. unfold h2, h1. now rewrite <- app_assoc. }
  assert (Hcols : (let! r := readArray (length h1) in mapM readSafe r) h2 =
                    Some (map safeRow rs, h2)).
  { rewrite (bind_Some _ _ h2 refs h2)
      by (unfold readArray, h2; now rewrite lookup_snoc).
    now apply mapM_readSafe_intro. }
  rewrite (bind_Some _ _ _ _ _ Hcols).
  assert (Hsort : sortArrayByDate localeCompare (length h1) h2 = Some (tt, h3)).
  { unfold sortArrayByDate. unfold h2 at 1. rewrite lookup_snoc.
    fold sortedRefs. unfold h2. now rewrite insert_snoc. }
  rewrite (bind_Some _ _ _ _ _ Hsort).
  rewrite (bind_Some _ _ h3 sortedRefs h3)
    by (unfold readArray, h3; now rewrite lookup_snoc).
  assert (Hsafe3 : Forall2 (fun i s => h3 !! i = Some (SafeObject s))
                     sortedRefs (sortByDate localeCompare (map safeRow rs))).
  { pose proof (sorted_refs_read localeCompare h2 refs _ Hsafe2) as H.
    fold sortedRefs in H.
    eapply Forall2_impl; [exact H|]. intros i s Hi. cbv beta in *.
    assert (Hlt : (i < length h1)%nat).
    { apply lookup_lt_Some in Hi as Hl. unfold h2 in Hl, Hi.
      rewrite length_app in Hl. simpl in Hl.
      destruct (decide (i = length h1)) as [->|]; [|lia].
      rewrite lookup_snoc in Hi. discriminate. }
    unfold h2 in Hi. unfold h3.
    rewrite lookup_app_l in Hi |- * by exact Hlt. exact Hi. }
  rewrite (bind_Some _ _ _ _ _ (mapM_readSafe_intro _ _ _ Hsafe3)).
  unfold ret, computeHeartbeat, h3, h1. now rewrite <- app_assoc.
Qed.

Lemma rowsAt_inv h rows rs :
  rowsAt h rows = Some rs ->
  exists items,
    h !! rows = Some (ArrayObject items)
    /\ Forall2 (fun i r => h !! i = Some (RowObject r)) items rs.
Proof.
  unfold rowsAt. destruct (readRows rows h) as [[rs' h']|] eqn:E; [|discriminate].
  intros [= <-]. apply readRows_inv in E as [_ H]. exact H.
Qed.

Lemma rowsAt_extend h rows rs ext :
  rowsAt h rows = Some rs -> rowsAt (h ++ ext) rows = Some rs.
Proof.
  intros H. apply rowsAt_inv in H as (items & Hr & HF).
  unfold rowsAt. erewrite readRows_intro; [reflexivity| |].
  - apply lookup_extend, Hr.
  - eapply Forall2_impl; [exact HF|]. intros i r Hi. now apply lookup_extend.
Qed.

(** C9: run on a store in which [rows] is an array of row objects, the
    function returns the value [computeHeartbeat] gives the rows, leaves
    every object that existed as it was (the array and its rows among
    them) and only adds objects of its own; run again, or on any store
    where the rows read the same, it returns the same points. *)
Theorem computeHeartbeat_pure :
  forall localeCompare h rows rs,
    rowsAt h rows = Some rs ->
    exists fresh,
      computeHeartbeat_st localeCompare rows h =
        Some (computeHeartbeat localeCompare rs, h ++ fresh)
      /\ (forall l o, h !! l = Some o -> (h ++ fresh) !! l = Some o)
      /\ rowsAt (h ++ fresh) rows = Some rs
      /\ fst <$> computeHeartbeat_st localeCompare rows (h ++ fresh) =
           Some (computeHeartbeat localeCompare rs)
      /\ forall h' rows',
           rowsAt h' rows' = Some rs ->
           fst <$> computeHeartbeat_st localeCompare rows' h' =
             Some (computeHeartbeat localeCompare rs).
Proof.
  intros lc h rows rs Hrows.
  assert (Hany : forall h' rows',
             rowsAt h' rows' = Some rs ->
             fst <$> computeHeartbeat_st lc rows' h' = Some (computeHeartbeat lc rs)).
  { intros h' rows' H. apply rowsAt_inv in H as (items & Hr & HF).
    destruct (computeHeartbeat_st_run lc h' rows' items rs Hr HF) as [s ->].
    reflexivity. }
  pose proof (rowsAt_inv _ _ _ Hrows) as (items & Hr & HF).
  destruct (computeHeartbeat_st_run lc h rows items rs Hr HF) as [s Hrun].
  eexists. split; [exact Hrun|].
  split; [intros l o; apply lookup_extend|].
  split; [now apply rowsAt_extend|].
  split; [apply Hany; now apply rowsAt_extend|exact Hany].
Qed.

Lemma computeHeartbeat_pure_witness :
  rowsAt example_store 2 =
    Some [ordersRow "2025-01-02" 20%float; ordersRow "2025-01-01" 10%float]
  /\ exists fresh,
       computeHeartbeat_st lexicalCompare 2 example_store =
         Some ([example_point1; example_point2], example_store ++ fresh)
       /\ rowsAt (example_store ++ fresh) 2 =
            Some [ordersRow "2025-01-02" 20%float; ordersRow "2025-01-01" 10%float].
Proof.
  split; [reflexivity|].
  destruct (computeHeartbeat_pure lexicalCompare example_store 2
              [ordersRow "2025-01-02" 20%float; ordersRow "2025-01-01" 10%float]
              eq_refl) as (fresh & Hrun & _ & Hrows & _).
  exists fresh. split; [exact Hrun|exact Hrows].
Defined.

(** ** The join of [GET] *)

Lemma map_get_Some {V} (m : list (string * V)) k v :
  map_get m k = Some v -> In (k, v) m.
Proof.
  induction m as [|[k' v'] m IH]; simpl; [discriminate|].
  destruct (String.eqb_spec k' k) as [->|Hne].
  - intros [= ->]. now left.
  - intros H. right. now apply IH.
Qed.

Lemma map_get_None {V} (m : list (string * V)) k :
  map_get m k = None -> ~ In k (List.map fst m).
Proof.
  induction m as [|[k' v'] m IH]; simpl; [tauto|].
  destruct (String.eqb_spec k' k) as [->|Hne]; [discriminate|].
  intros H [Heq|Hin]; [congruence|]. now apply IH.
Qed.

Lemma keepsRows_refl h : keepsRows h h.
Proof. split; auto. Qed.

Lemma keepsRows_new h dateStr : keepsRows h (h ++ [RowObject (emptyRow dateStr)]).
Proof.
  split.
  - intros r k. unfold dateOfRow.
    destruct (h !! r) as [o'|] eqn:E; [|discriminate].
    now rewrite (lookup_extend h _ r o' E).
  - intros Hf r row Hr.
    destruct (decide (r < length h)%nat) as [Hlt|Hge].
    + rewrite lookup_app_l in Hr by exact Hlt. exact (Hf r row Hr).
    + apply lookup_lt_Some in Hr as Hl. rewrite length_app in Hl. simpl in Hl.
      assert (r = length h) as -> by lia.
      rewrite lookup_snoc in Hr. injection Hr as <-.
      intros key v. destruct key; discriminate.
Qed.

Lemma joinInv_mono h h' m : keepsRows h h' -> joinInv h m -> joinInv h' m.
Proof.
  intros [Hk Hfin] (Hnd & HF & Hf). split; [exact Hnd|]. split; [|auto].
  eapply Forall_impl; [exact HF|]. intros [k r] H. now apply Hk.
Qed.

(** [ensureRow] returns the row object of the date, creating the entry
    when the date is new; the invariant is kept. *)
Lemma ensureRow_spec h m dateStr :
  joinInv h m ->
  exists m' target h',
    ensureRow m dateStr h = Some ((m', target), h')
    /\ joinInv h' m' /\ keepsRows h h'
    /\ dateOfRow h' target = Some dateStr.
Proof.
  intros Hinv. pose proof Hinv as (Hnd & HF & Hf). unfold ensureRow.
  destruct (map_get m dateStr) as [row|] eqn:E.
  - exists m, row, h. split; [reflexivity|]. split; [exact Hinv|].
    split; [apply keepsRows_refl|].
    apply map_get_Some in E. rewrite List.Forall_forall in HF. apply (HF _ E).
  - exists (m ++ [(dateStr, length h)]), (length h),
           (h ++ [RowObject (emptyRow dateStr)]).
    pose proof (keepsRows_new h dateStr) as Hk.
    assert (Hnew : dateOfRow (h ++ [RowObject (emptyRow dateStr)]) (length h)
                   = Some dateStr).
    { unfold dateOfRow. now rewrite lookup_snoc. }
    split; [reflexivity|]. split; [split; [|split]|].
    + rewrite List.map_app. simpl.
      apply NoDup_app. split; [exact Hnd|]. split; [|apply NoDup_singleton].
      intros x Hx Hx'. apply list_elem_of_In in Hx.
      apply list_elem_of_singleton in Hx'. subst x.
      now apply (map_get_None m dateStr).
    + apply Forall_app. split.
      * eapply Forall_impl; [exact HF|]. intros [k r] H. now apply Hk.
      * constructor; [exact Hnew|constructor].
    + now apply Hk.
    + split; [exact Hk|exact Hnew].
Qed.

Lemma rawField_setField key v row key' :
  rawField (setField key v row) key' =
    if decide (key = key') then Some v else rawField row key'.
Proof. destruct key, key'; reflexivity. Qed.

Lemma assign_spec h target key v dateStr :
  dateOfRow h target = Some dateStr -> is_finite v = true ->
  exists h', assign target key v h = Some (tt, h') /\ keepsRows h h'.
Proof.
  unfold dateOfRow, assign. intros H Hv.
  destruct (h !! target) as [[row| |]|] eqn:E; try discriminate.
  assert (Hlt : (target < length h)%nat) by (eapply lookup_lt_Some, E).
  eexists. split; [reflexivity|]. split.
  - intros r k. unfold dateOfRow.
    destruct (decide (r = target)) as [->|Hne].
    + rewrite E. rewrite list_lookup_insert_eq by exact Hlt. intros H'. exact H'.
    + now rewrite list_lookup_insert_ne by congruence.
  - intros Hf r row' Hr.
    destruct (decide (r = target)) as [->|Hne].
    + rewrite list_lookup_insert_eq in Hr by exact Hlt. injection Hr as <-.
      intros key' v'. rewrite rawField_setField.
      destruct (decide (key = key')); [intros [= <-]; exact Hv|apply (Hf _ _ E)].
    + rewrite list_lookup_insert_ne in Hr by congruence. exact (Hf r row' Hr).
Qed.

Lemma assignFinite_spec h target key v dateStr :
  dateOfRow h target = Some dateStr ->
  exists h', assignFinite target key v h = Some (tt, h') /\ keepsRows h h'.
Proof.
  intros H. unfold assignFinite. destruct (is_finite v) eqn:Hv.
  - eapply assign_spec; [exact H|exact Hv].
  - exists h. split; [reflexivity|apply keepsRows_refl].
Qed.

Ltac join_ensure Hinv :=
  match goal with
  | |- context [ensureRow ?m ?d] =>
      let m' := fresh "m'" in let target := fresh "target" in
      let h1 := fresh "h1" in let He := fresh "He" in
      let Ht := fresh "Ht" in let Hinv1 := fresh "Hinv1" in
      destruct (ensureRow_spec _ m d Hinv) as (m' & target & h1 & He & Hinv1 & _ & Ht);
      rewrite (bind_Some _ _ _ _ _ He); cbv beta iota zeta
  end.

Ltac join_write Ht :=
  match goal with
  | |- context [assignFinite ?t ?key ?v] =>
      let h2 := fresh "h2" in let Hw := fresh "Hw" in let Hk := fresh "Hk" in
      destruct (assignFinite_spec _ t key v _ Ht) as (h2 & Hw & Hk);
      rewrite (bind_Some _ _ _ _ _ Hw)
  | |- context [assign ?t ?key ?v] =>
      let h2 := fresh "h2" in let Hw := fresh "Hw" in let Hk := fresh "Hk" in
      destruct (assign_spec _ t key v _ Ht (number_of_nat_finite _)) as (h2 & Hw & Hk);
      rewrite (bind_Some _ _ _ _ _ Hw)
  end.

Section JoinSteps.
Variable trim : string -> string.
Variable Number : option string -> number.

Lemma ordersStep_keeps : stepKeeps (ordersStep trim Number).
Proof.
  intros h m row Hinv. unfold ordersStep. cbv zeta.
  destruct (falsyStr _); [exists m, h; now split|].
  join_ensure Hinv. join_write Ht.
  eexists _, _. split; [reflexivity|]. eapply joinInv_mono; eassumption.
Qed.

Lemma labelsStep_keeps : stepKeeps (labelsStep trim Number).
Proof.
  intros h m row Hinv. unfold labelsStep. cbv zeta.
  destruct (falsyStr _); [exists m, h; now split|].
  join_ensure Hinv. join_write Ht.
  eexists _, _. split; [reflexivity|]. eapply joinInv_mono; eassumption.
Qed.

Lemma packersStep_keeps : stepKeeps (packersStep trim Number).
Proof.
  intros h m row Hinv. unfold packersStep. cbv zeta.
  destruct (falsyStr _); [exists m, h; now split|].
  join_ensure Hinv. join_write Ht. join_write (proj1 Hk _ _ Ht).
  eexists _, _. split; [reflexivity|].
  eapply joinInv_mono; [|eapply joinInv_mono]; eassumption.
Qed.

Lemma pickersStep_keeps : stepKeeps (pickersStep trim Number).
Proof.
  intros h m row Hinv. unfold pickersStep. cbv zeta.
  destruct (falsyStr _); [exists m, h; now split|].
  join_ensure Hinv. join_write Ht. join_write (proj1 Hk _ _ Ht).
  eexists _, _. split; [reflexivity|].
  eapply joinInv_mono; [|eapply joinInv_mono]; eassumption.
Qed.

Lemma activeCountriesStep_keeps : stepKeeps activeCountriesStep.
Proof.
  intros h m [dateStr set] Hinv. unfold activeCountriesStep.
  join_ensure Hinv. join_write Ht.
  eexists _, _. split; [reflexivity|]. eapply joinInv_mono; eassumption.
Qed.

Lemma foldM_keeps {A} (step : MetricsMap -> A -> M MetricsMap) :
  stepKeeps step ->
  forall l h m,
    joinInv h m -> exists m' h', foldM step l m h = Some (m', h') /\ joinInv h' m'.
Proof.
  intros Hstep l. induction l as [|x l IH]; intros h m Hinv; simpl.
  - exists m, h. now split.
  - destruct (Hstep h m x Hinv) as (m1 & h1 & H1 & Hinv1).
    rewrite (bind_Some _ _ _ _ _ H1). now apply IH.
Qed.

(** The rows behind the entries of the map: one per key, with the key as
    date. *)
Lemma joinInv_rows h m :
  joinInv h m ->
  exists rs,
    Forall2 (fun i r => h !! i = Some (RowObject r)) (List.map snd m) rs
    /\ List.map date rs = List.map fst m
    /\ Forall finiteRow rs.
Proof.
  intros (_ & HF & Hf). induction HF as [|[k r] m Hr HF IH].
  - exists []. split; [constructor|]. split; [reflexivity|constructor].
  - destruct IH as (rs & H2 & Hd & Hfin). unfold dateOfRow in Hr. simpl in Hr.
    destruct (h !! r) as [[row| |]|] eqn:E; try discriminate.
    injection Hr as Hr. exists (row :: rs). split; [|split].
    + simpl. now constructor.
    + simpl. now rewrite Hr, Hd.
    + constructor; [exact (Hf r row E)|exact Hfin].
Qed.

(** After the five loops the array handed to [computeHeartbeat] holds row
    objects with pairwise distinct dates. *)
Lemma buildRows_spec ordersCsv labelsCsv byCountryCsv packersCsv pickersCsv :
  exists rows h rs,
    buildRows trim Number ordersCsv labelsCsv byCountryCsv packersCsv pickersCsv []
      = Some (rows, h)
    /\ rowsAt h rows = Some rs
    /\ NoDup (List.map date rs)
    /\ Forall finiteRow rs.
Proof.
  unfold buildRows.
  assert (H0 : joinInv [] []).
  { split; [constructor|]. split; [constructor|]. intros r row Hr. discriminate. }
  destruct (foldM_keeps _ ordersStep_keeps ordersCsv _ _ H0) as (m1 & h1 & E1 & I1).
  rewrite (bind_Some _ _ _ _ _ E1).
  destruct (foldM_keeps _ labelsStep_keeps labelsCsv _ _ I1) as (m2 & h2 & E2 & I2).
  rewrite (bind_Some _ _ _ _ _ E2).
  destruct (foldM_keeps _ packersStep_keeps packersCsv _ _ I2) as (m3 & h3 & E3 & I3).
  rewrite (bind_Some _ _ _ _ _ E3).
  destruct (foldM_keeps _ pickersStep_keeps pickersCsv _ _ I3) as (m4 & h4 & E4 & I4).
  rewrite (bind_Some _ _ _ _ _ E4). cbv zeta.
  destruct (foldM_keeps _ activeCountriesStep_keeps
              (fold_left (countryStep trim) byCountryCsv []) _ _ I4)
    as (m5 & h5 & E5 & I5).
  rewrite (bind_Some _ _ _ _ _ E5).
  destruct (joinInv_rows h5 m5 I5) as (rs & HF & Hd & Hfin).
  exists (length h5), (h5 ++ [ArrayObject (List.map snd m5)]), rs.
  split; [reflexivity|]. split; [|split].
  - unfold rowsAt. erewrite readRows_intro; [reflexivity|apply lookup_snoc|].
    eapply Forall2_impl; [exact HF|]. intros i r Hi. now apply lookup_extend.
  - rewrite Hd. apply I5.
  - exact Hfin.
Qed.
End JoinSteps.

Lemma GET_spec localeCompare trim Number
    ordersCsv labelsCsv byCountryCsv packersCsv pickersCsv :
  exists rows h rs,
    buildRows trim Number ordersCsv labelsCsv byCountryCsv packersCsv pickersCsv []
      = Some (rows, h)
    /\ rowsAt h rows = Some rs
    /\ NoDup (List.map date rs)
    /\ Forall finiteRow rs
    /\ GET localeCompare trim Number ordersCsv labelsCsv byCountryCsv packersCsv pickersCsv
         = Json200 (computeHeartbeat localeCompare rs).
Proof.
  destruct (buildRows_spec trim Number ordersCsv labelsCsv byCountryCsv packersCsv pickersCsv)
    as (rows & h & rs & Hb & Hr & Hnd & Hfin).
  exists rows, h, rs. repeat (split; [assumption|]).
  unfold GET. rewrite (bind_Some _ _ _ _ _ Hb).
  pose proof (rowsAt_inv _ _ _ Hr) as (items & Hi & HF).
  rewrite (bind_Some _ _ h items h) by (unfold readArray; now rewrite Hi).
  destruct items as [|i items].
  - inversion HF; subst. reflexivity.
  - destruct (computeHeartbeat_st_run localeCompare h rows _ rs Hi HF) as [s ->].
    reflexivity.
Qed.

(** C10: [ensureRow] hands out the one row object of a date, creating it
    when the date is new, and keeps the keys of the map distinct; so the
    array [GET] builds and passes to [computeHeartbeat] holds rows with
    pairwise distinct dates, the response is [computeHeartbeat] of them,
    and its points are those of rows with pairwise distinct dates. *)
Theorem GET_one_point_per_date :
  forall localeCompare trim Number ordersCsv labelsCsv byCountryCsv packersCsv pickersCsv,
    (forall h m dateStr,
       joinInv h m ->
       exists m' target h',
         ensureRow m dateStr h = Some ((m', target), h')
         /\ joinInv h' m'
         /\ dateOfRow h' target = Some dateStr
         /\ (forall row, map_get m dateStr = Some row -> m' = m /\ target = row))
    /\ exists rows h rs,
         buildRows trim Number ordersCsv labelsCsv byCountryCsv packersCsv pickersCsv []
           = Some (rows, h)
         /\ rowsAt h rows = Some rs
         /\ NoDup (List.map date rs)
         /\ GET localeCompare trim Number
               ordersCsv labelsCsv byCountryCsv packersCsv pickersCsv
             = Json200 (computeHeartbeat localeCompare rs)
         /\ exists sorted,
              computeHeartbeat localeCompare rs =
                List.map (heartbeatPoint (q75 (List.map safeRow rs))) sorted
              /\ Permutation (List.map s_date sorted) (List.map date rs)
              /\ NoDup (List.map s_date sorted).
Proof.
  intros lc trim Number c1 c2 c3 c4 c5. split.
  - intros h m dateStr Hinv.
    destruct (ensureRow_spec h m dateStr Hinv) as (m' & target & h' & He & Hi & _ & Hd).
    exists m', target, h'. repeat (split; [assumption|]).
    intros row Hrow. unfold ensureRow in He. rewrite Hrow in He.
    unfold ret in He. injection He as <- <- <-. auto.
  - destruct (GET_spec lc trim Number c1 c2 c3 c4 c5)
      as (rows & h & rs & Hb & Hr & Hnd & _ & HG).
    exists rows, h, rs. repeat (split; [assumption|]).
    exists (sortByDate lc (List.map safeRow rs)).
    assert (Hp : Permutation (List.map s_date (sortByDate lc (List.map safeRow rs)))
                             (List.map date rs)).
    { rewrite sortByDate_perm, safeRow_dates. reflexivity. }
    split; [reflexivity|]. split; [exact Hp|].
    rewrite Hp. exact Hnd.
Qed.

Lemma finiteRow_safe r key :
  finiteRow r -> is_finite (field (s_metrics (safeRow r)) key) = true.
Proof.
  intros Hf. rewrite safeRow_field.
  destruct (rawField r key) as [v|] eqn:E; [exact (Hf key v E)|reflexivity].
Qed.

(** In a response of [GET] every row that sits on the seven denominators
    has intensity [100]: the ingestion admits finite values only. *)
Lemma GET_intensity_on_denominators localeCompare trim Number
    ordersCsv labelsCsv byCountryCsv packersCsv pickersCsv :
  exists rs,
    GET localeCompare trim Number ordersCsv labelsCsv byCountryCsv packersCsv pickersCsv
      = Json200 (computeHeartbeat localeCompare rs)
    /\ forall r,
         In r rs ->
         (forall key, field (s_metrics (safeRow r)) key = q75 (map safeRow rs) key) ->
         In (heartbeatPoint (q75 (map safeRow rs)) (safeRow r))
            (computeHeartbeat localeCompare rs)
         /\ intensity (heartbeatPoint (q75 (map safeRow rs)) (safeRow r)) = 100%float.
Proof.
  destruct (GET_spec localeCompare trim Number
              ordersCsv labelsCsv byCountryCsv packersCsv pickersCsv)
    as (rows & h & rs & _ & _ & _ & Hfin & HG).
  exists rs. split; [exact HG|]. intros r Hin Heq. split.
  - now apply point_in_output.
  - apply intensity_100; [|exact Heq]. intros key. apply finiteRow_safe.
    rewrite List.Forall_forall in Hfin. now apply Hfin.
Qed.

(** * Part III: further properties of the code *)

#[local] Set Warnings "-clear-no-such-hyp".

(** ** More on binary64 numbers *)

Lemma finite_not_nan x : is_finite x = true -> is_nan x = false.
Proof.
  rewrite is_finite_spec, is_nan_spec. destruct (Prim2SF x); simpl; congruence.
Qed.

Lemma ltb_ord a b :
  is_nan a = false -> is_nan b = false ->
  (a <? b)%float = (ord a <? ord b)%Z.
Proof.
  intros Ha Hb. rewrite FloatAxioms.ltb_spec. unfold SFltb, ord, Z.ltb.
  rewrite SFcompare_ordZ by auto using Prim2SF_valid, Prim2SF_non_nan.
  reflexivity.
Qed.

Lemma numLe_refl a : is_nan a = false -> numLe a a.
Proof. intros Ha. unfold numLe. rewrite leb_ord by assumption. apply Z.leb_refl. Qed.

(** Two numbers at the same position are the same number, or two zeros. *)
Lemma ord_eq a b :
  is_nan a = false -> is_nan b = false -> ord a = ord b ->
  a = b \/ (is_zero a = true /\ is_zero b = true).
Proof.
  intros Ha Hb Ho.
  pose proof (SFcompare_ordZ (Prim2SF a) (Prim2SF b) (Prim2SF_valid a) (Prim2SF_valid b)
                (Prim2SF_non_nan a Ha) (Prim2SF_non_nan b Hb)) as Hc.
  fold (ord a) (ord b) in Hc. rewrite Ho, Z.compare_refl in Hc.
  rewrite !is_zero_spec.
  destruct (Prim2SF a) as [sa|sa| |sa ma ea] eqn:Ea;
    destruct (Prim2SF b) as [sb|sb| |sb mb eb] eqn:Eb;
    try (right; split; reflexivity);
    try (exfalso; simpl in Hc; repeat match goal with s : bool |- _ => destruct s end;
         discriminate).
  - left. apply Prim2SF_inj. rewrite Ea, Eb.
    destruct sa, sb; simpl in Hc; try discriminate; reflexivity.
  - left. apply Prim2SF_inj. rewrite Ea, Eb. simpl in Hc.
    assert (He : forall c, match (ea ?= eb)%Z with
                           | Eq => c | Lt => Lt | Gt => Gt end = Eq ->
                           ea = eb /\ c = Eq).
    { intros c. destruct (Z.compare_spec ea eb); intros; try discriminate. auto. }
    assert (He' : forall c, match (ea ?= eb)%Z with
                            | Eq => c | Lt => Gt | Gt => Lt end = Eq ->
                            ea = eb /\ c = Eq).
    { intros c. destruct (Z.compare_spec ea eb); intros; try discriminate. auto. }
    destruct sa, sb; try discriminate; injection Hc as Hc.
    + apply He' in Hc as [-> Hm].
      change (PosDef.Pos.compare_cont Eq ma mb) with (Pos.compare ma mb) in Hm.
      destruct (Pos.compare_spec ma mb); try discriminate. now subst.
    + apply He in Hc as [-> Hm].
      change (PosDef.Pos.compare_cont Eq ma mb) with (Pos.compare ma mb) in Hm.
      destruct (Pos.compare_spec ma mb); try discriminate. now subst.
Qed.

Lemma or_else_ord a b :
  is_nan a = false -> is_nan b = false -> ord a = ord b ->
  or_else a 1%float = or_else b 1%float.
Proof.
  intros Ha Hb Ho. destruct (ord_eq a b Ha Hb Ho) as [->|[Za Zb]]; [reflexivity|].
  unfold or_else, falsy. now rewrite Za, Zb.
Qed.

(** A zero divided by a truthy number is a zero; [+0] plus a zero is [+0]. *)
Lemma zero_div z d : is_zero z = true -> falsy d = false -> is_zero (z / d)%float = true.
Proof.
  rewrite falsy_spec, !is_zero_spec, div_spec. unfold SF64div.
  destruct (Prim2SF z) as [sz|sz| |sz mz ez]; try discriminate. intros _.
  destruct (Prim2SF d) as [s|s| |s m e]; simpl; intros; congruence.
Qed.

Lemma plus_zero z : is_zero z = true -> (0 + z)%float = 0%float.
Proof.
  rewrite is_zero_spec. intros Hz. apply Prim2SF_inj. rewrite add_spec.
  change (Prim2SF 0%float) with (S754_zero false). unfold SF64add.
  destruct (Prim2SF z) as [sz|sz| |sz mz ez]; try discriminate.
  destruct sz; reflexivity.
Qed.

(** ** What [percentile75] picks *)

Lemma lookup_In {A} (l : list A) i x : l !! i = Some x -> In x l.
Proof. intros H. apply list_elem_of_In. eapply list_elem_of_lookup_2, H. Qed.

(** X1: the result of [percentile75] is truthy, and it is [1] or one of
    the values; so each denominator is [1] or the value some row has in
    that field. *)
Theorem percentile75_from_values :
  forall values : list number,
    falsy (percentile75 values) = false
    /\ (percentile75 values = 1%float \/ In (percentile75 values) values)
    /\ forall safeRows key,
         q75 safeRows key = 1%float
         \/ exists s, In s safeRows /\ q75 safeRows key = field (s_metrics s) key.
Proof.
  assert (Hp : forall values,
             falsy (percentile75 values) = false
             /\ (percentile75 values = 1%float \/ In (percentile75 values) values)).
  { intros values. destruct values as [|x values]; [split; [reflexivity|now left]|].
    destruct (percentile75_nonempty (x :: values)) as (v & Hv & ->); [discriminate|].
    split; [apply or_else_truthy|].
    unfold or_else. destruct (falsy v); [now left|right].
    eapply Permutation_in; [apply sortNumeric_perm|]. eapply lookup_In, Hv. }
  intros values. split; [apply Hp|]. split; [apply Hp|].
  intros safeRows key. unfold q75.
  destruct (Hp (map (fun r => field (s_metrics r) key) safeRows)) as [Ht [H1|Hin]].
  - left. now rewrite H1.
  - rewrite or_else_id by exact Ht.
    apply in_map_iff in Hin as (s & Hs & Hin). right. exists s. split; [exact Hin|].
    now rewrite Hs.
Qed.

(** ** The order of the rows does not matter to the denominators *)

Lemma StronglySorted_map_on {A B} (P : A -> Prop) (f : A -> B)
    (R : A -> A -> Prop) (R' : B -> B -> Prop) l :
  (forall a b, P a -> P b -> R a b -> R' (f a) (f b)) ->
  Forall P l -> StronglySorted R l -> StronglySorted R' (map f l).
Proof.
  intros HR HP Hs. induction Hs as [|x l Hs IH Hx]; [constructor|].
  apply Forall_cons in HP as [Px Pl]. simpl.
  constructor; [now apply IH|].
  rewrite List.Forall_forall in Hx, Pl |- *. intros z Hz.
  apply in_map_iff in Hz as (y & <- & Hy). apply HR; auto.
Qed.

Lemma sorted_positions (l : list number) :
  Forall (fun v => is_nan v = false) l ->
  StronglySorted Z.le (map ord (sortNumeric l)).
Proof.
  intros Hn.
  apply (StronglySorted_map_on (fun v => is_nan v = false) ord numLe).
  - intros a b Ha Hb. unfold numLe. rewrite leb_ord by assumption. lia.
  - eapply Permutation_Forall; [symmetry; apply sortNumeric_perm|exact Hn].
  - now apply sortNumeric_sorted.
Qed.

Lemma sorted_positions_perm (l l' : list number) :
  Permutation l l' -> Forall (fun v => is_nan v = false) l ->
  map ord (sortNumeric l) = map ord (sortNumeric l').
Proof.
  intros Hp Hn.
  assert (Hn' : Forall (fun v => is_nan v = false) l')
    by (eapply Permutation_Forall; eassumption).
  apply (StronglySorted_unique Z.le); auto using sorted_positions.
  apply Permutation_map. now rewrite !sortNumeric_perm.
Qed.

Lemma lookup_map_ord (l : list number) i v : l !! i = Some v -> map ord l !! i = Some (ord v).
Proof.
  revert i. induction l as [|x l IH]; intros [|i] H; try discriminate.
  - now injection H as ->.
  - simpl. now apply IH.
Qed.

Lemma percentile75_perm (values values' : list number) :
  Permutation values values' -> Forall (fun v => is_nan v = false) values ->
  percentile75 values = percentile75 values'.
Proof.
  intros Hp Hn. destruct values as [|x values].
  - apply Permutation_nil in Hp. now subst.
  - assert (Hne' : values' <> []).
    { intros ->. symmetry in Hp. apply Permutation_nil in Hp. discriminate. }
    destruct (percentile75_nonempty (x :: values)) as (v & Hv & ->); [discriminate|].
    destruct (percentile75_nonempty values' Hne') as (v' & Hv' & ->).
    rewrite <- (Permutation_length Hp) in Hv'.
    assert (Hin : In v (x :: values))
      by (eapply Permutation_in; [apply sortNumeric_perm|eapply lookup_In, Hv]).
    assert (Hin' : In v' (x :: values)).
    { eapply Permutation_in; [symmetry; exact Hp|].
      eapply Permutation_in; [apply sortNumeric_perm|eapply lookup_In, Hv']. }
    rewrite List.Forall_forall in Hn.
    apply or_else_ord; auto.
    apply lookup_map_ord in Hv, Hv'.
    rewrite (sorted_positions_perm _ _ Hp) in Hv
      by (now apply List.Forall_forall).
    congruence.
Qed.

(** X2: the denominator of a key is the same for every arrangement of the
    same rows, as long as the key's column holds no [NaN]. *)
Theorem q75_order_independent :
  forall rows rows' key,
    Permutation rows rows' ->
    Forall (fun r => is_nan (nullish (rawField r key) 0%float) = false) rows ->
    q75 (map safeRow rows) key = q75 (map safeRow rows') key.
Proof.
  intros rows rows' key Hp Hn. unfold q75. f_equal.
  apply percentile75_perm.
  - now do 2 apply Permutation_map.
  - rewrite map_map. apply List.Forall_forall. intros v Hv.
    apply in_map_iff in Hv as (r & <- & Hr). rewrite safeRow_field.
    rewrite List.Forall_forall in Hn. now apply Hn.
Qed.

Lemma q75_order_independent_witness :
  q75 (map safeRow [ordersRow "2025-01-01" 10%float; ordersRow "2025-01-02" 20%float]) Orders
  = q75 (map safeRow [ordersRow "2025-01-02" 20%float; ordersRow "2025-01-01" 10%float])
        Orders.
Proof.
  apply (q75_order_independent
           [ordersRow "2025-01-01" 10%float; ordersRow "2025-01-02" 20%float]
           [ordersRow "2025-01-02" 20%float; ordersRow "2025-01-01" 10%float] Orders).
  - apply perm_swap.
  - repeat constructor.
Defined.

(** ** The rank of the chosen value *)

Lemma filter_length_perm {A} (f : A -> bool) l l' :
  Permutation l l' -> length (List.filter f l) = length (List.filter f l').
Proof.
  induction 1 as [|x l l' _ IH|x y l|l l' l'' _ IH1 _ IH2]; simpl.
  - reflexivity.
  - destruct (f x); simpl; congruence.
  - destruct (f x), (f y); reflexivity.
  - congruence.
Qed.

Lemma filter_all {A} (f : A -> bool) l :
  (forall x, In x l -> f x = true) -> List.filter f l = l.
Proof.
  induction l as [|x l IH]; intros H; simpl; [reflexivity|].
  rewrite (H x) by (now left). f_equal. apply IH. intros y Hy. apply H. now right.
Qed.

(** X3: the value [percentile75] reads at index [floor(0.75 * (n - 1))] has
    at least that many values plus one at or below it, and at least the
    other [n - floor(0.75 * (n - 1))] values at or above it. *)
Theorem percentile75_rank :
  forall values : list number,
    values <> [] ->
    Forall (fun v => is_nan v = false) values ->
    exists v,
      In v values
      /\ percentile75 values = or_else v 1%float
      /\ idx75 (length values) + 1 <= countLe v values
      /\ length values - idx75 (length values) <= countGe v values.
Proof.
  intros values Hne Hn.
  destruct (percentile75_nonempty values Hne) as (v & Hv & Hp).
  pose proof (sortNumeric_perm values) as Hperm.
  pose proof (sortNumeric_sorted values Hn) as Hs.
  assert (Hin : In v values) by (eapply Permutation_in; [exact Hperm|eapply lookup_In, Hv]).
  assert (Hvn : is_nan v = false) by (rewrite List.Forall_forall in Hn; now apply Hn).
  exists v. split; [exact Hin|]. split; [exact Hp|].
  unfold countLe, countGe.
  rewrite <- !(filter_length_perm _ _ _ Hperm).
  pose proof (take_drop_middle _ _ _ Hv) as Hsplit.
  set (l1 := take (idx75 (length values)) (sortNumeric values)) in *.
  set (l2 := drop (S (idx75 (length values))) (sortNumeric values)) in *.
  assert (Hl1 : length l1 = idx75 (length values)).
  { unfold l1. rewrite length_take. apply lookup_lt_Some in Hv. lia. }
  assert (Hlen : length l1 + S (length l2) = length values).
  { rewrite <- (Permutation_length Hperm), <- Hsplit, length_app. reflexivity. }
  rewrite <- Hsplit in Hs. apply StronglySorted_app in Hs as (H12 & _ & Hs2).
  apply StronglySorted_inv in Hs2 as [_ H2].
  rewrite <- Hsplit, !List.filter_app, !length_app. simpl.
  rewrite (numLe_refl v Hvn). simpl. split.
  - rewrite (filter_all _ l1).
    + lia.
    + intros x Hx. apply (H12 x v); [now apply list_elem_of_In|now left].
  - rewrite (filter_all _ l2).
    + lia.
    + intros x Hx. rewrite List.Forall_forall in H2. now apply H2.
Qed.

Lemma percentile75_rank_witness :
  exists v,
    In v [4; 1; 3; 2]%float
    /\ percentile75 [4; 1; 3; 2]%float = or_else v 1%float
    /\ idx75 4 + 1 <= countLe v [4; 1; 3; 2]%float
    /\ 4 - idx75 4 <= countGe v [4; 1; 3; 2]%float.
Proof.
  apply (percentile75_rank [4; 1; 3; 2]%float).
  - discriminate.
  - repeat constructor.
Defined.

(** ** Points and rows *)

(** X4: a row whose seven values are zero (or absent) gets intensity [0],
    whatever the other rows hold. *)
Theorem zero_row_intensity :
  forall localeCompare rows r,
    In r rows ->
    (forall key, is_zero (field (s_metrics (safeRow r)) key) = true) ->
    let p := heartbeatPoint (q75 (map safeRow rows)) (safeRow r) in
    In p (computeHeartbeat localeCompare rows) /\ intensity p = 0%float.
Proof.
  intros lc rows r Hin Hz. cbv zeta. split; [now apply point_in_output|].
  assert (Ht : forall key,
             is_zero (weights key *
                      (field (s_metrics (safeRow r)) key /
                       or_else (q75 (map safeRow rows) key) 1))%float = true).
  { intros key. apply weight_mul_zero, zero_div; [apply Hz|apply or_else_truthy]. }
  unfold heartbeatPoint, intensity, score, metricsKeys, fold_left.
  rewrite !plus_zero by apply Ht. reflexivity.
Qed.

Lemma zero_row_intensity_witness :
  In (heartbeatPoint
        (q75 (map safeRow [emptyRow "2025-11-27"; constRow "2025-11-28" 5%float]))
        (safeRow (emptyRow "2025-11-27")))
     (computeHeartbeat lexicalCompare [emptyRow "2025-11-27"; constRow "2025-11-28" 5%float])
  /\ intensity
       (heartbeatPoint
          (q75 (map safeRow [emptyRow "2025-11-27"; constRow "2025-11-28" 5%float]))
          (safeRow (emptyRow "2025-11-27"))) = 0%float.
Proof.
  apply (zero_row_intensity lexicalCompare
           [emptyRow "2025-11-27"; constRow "2025-11-28" 5%float] (emptyRow "2025-11-27")).
  - simpl. left. reflexivity.
  - intros key. destruct key; reflexivity.
Defined.

(** X5: the output has exactly one point for each input row, carrying the
    row's decorated date and its seven metrics with absent ones as [0];
    no row is dropped, merged or repeated, equal dates or not. *)
Theorem one_point_per_row :
  forall localeCompare rows,
    length (computeHeartbeat localeCompare rows) = length rows
    /\ Permutation
         (map (fun p => (timestamp p, metrics p)) (computeHeartbeat localeCompare rows))
         (map (fun r => (replace_space_T (date r) +:+ "Z", s_metrics (safeRow r))) rows).
Proof.
  intros lc rows. split.
  - rewrite (Permutation_length (computeHeartbeat_points lc rows)). apply length_map.
  - rewrite computeHeartbeat_points, map_map. reflexivity.
Qed.

(** ** Rows with the same date *)

Lemma withDate_insert localeCompare d x l :
  (0 <? localeCompare d d)%float = false ->
  withDate d (sort_insert (fun a b => localeCompare (s_date a) (s_date b)) x l)
  = withDate d (x :: l).
Proof.
  intros Hd. induction l as [|y l IH]; [reflexivity|].
  cbn [sort_insert]. unfold sortsAfter.
  destruct (0 <? localeCompare (s_date x) (s_date y))%float eqn:E; [|reflexivity].
  unfold withDate in *. cbn [List.filter] in *. rewrite IH.
  destruct (String.eqb_spec (s_date x) d) as [Hx|Hx];
    destruct (String.eqb_spec (s_date y) d) as [Hy|Hy]; try reflexivity.
  rewrite Hx, Hy in E. congruence.
Qed.

(** X6: the sort is stable on dates: the rows of one date come out in the
    order they came in, provided [localeCompare] does not put a date after
    itself. *)
Theorem equal_dates_keep_order :
  forall localeCompare rows d,
    (0 <? localeCompare d d)%float = false ->
    withDate d (sortByDate localeCompare (map safeRow rows)) = withDate d (map safeRow rows).
Proof.
  intros lc rows d Hd. unfold sortByDate.
  induction (map safeRow rows) as [|x l IH]; [reflexivity|].
  cbn [JSsort]. rewrite withDate_insert by exact Hd.
  unfold withDate in *. cbn [List.filter]. now rewrite IH.
Qed.

Lemma equal_dates_keep_order_witness :
  withDate "2025-11-28"
    (sortByDate lexicalCompare
       (map safeRow [ordersRow "2025-11-28" 2%float; emptyRow "2025-11-27";
                     ordersRow "2025-11-28" 1%float]))
  = withDate "2025-11-28"
      (map safeRow [ordersRow "2025-11-28" 2%float; emptyRow "2025-11-27";
                    ordersRow "2025-11-28" 1%float]).
Proof.
  apply (equal_dates_keep_order lexicalCompare
           [ordersRow "2025-11-28" 2%float; emptyRow "2025-11-27";
            ordersRow "2025-11-28" 1%float] "2025-11-28").
  reflexivity.
Defined.

(** ** The join, read as a sequence of events *)

Lemma foldM_app {A S} (f : S -> A -> M S) l1 l2 s h :
  foldM f (l1 ++ l2) s h =
    match foldM f l1 s h with
    | Some (s', h') => foldM f l2 s' h'
    | None => None
    end.
Proof.
  revert s h. induction l1 as [|x l1 IH]; intros s h; [reflexivity|].
  simpl. unfold bind. destruct (f s x h) as [[s' h']|]; [apply IH|reflexivity].
Qed.

Lemma foldM_flat_map {A B S} (f : S -> A -> M S) (g : S -> B -> M S) (ev : A -> list B) l :
  (forall s x h, f s x h = foldM g (ev x) s h) ->
  forall s h, foldM f l s h = foldM g (flat_map ev l) s h.
Proof.
  intros Hf. induction l as [|x l IH]; intros s h; [reflexivity|].
  simpl. rewrite foldM_app. unfold bind. rewrite Hf.
  destruct (foldM g (ev x) s h) as [[s' h']|]; [apply IH|reflexivity].
Qed.

Lemma foldM_map {A B S} (f : S -> A -> M S) (g : S -> B -> M S) (ev : A -> B) l :
  (forall s x h, f s x h = g s (ev x) h) ->
  forall s h, foldM f l s h = foldM g (List.map ev l) s h.
Proof.
  intros Hf. induction l as [|x l IH]; intros s h; [reflexivity|].
  simpl. unfold bind. rewrite Hf.
  destruct (g s (ev x) h) as [[s' h']|]; [apply IH|reflexivity].
Qed.

Section JoinEvents.
Variable trim : string -> string.
Variable Number : option string -> number.

Ltac step_is_event :=
  intros m row h; unfold feedEvents, ordersDate, rowDate, keyOf;
  match goal with |- context [falsyStr ?s] => destruct (falsyStr s) end;
  [reflexivity|];
  cbn [foldM List.map fst snd]; unfold eventStep, bind; cbn [fst snd writeAll];
  match goal with |- context [ensureRow ?m ?d ?h] =>
    destruct (ensureRow m d h) as [[[m' t] h1]|] end; [|reflexivity];
  unfold bind;
  repeat match goal with |- context [assignFinite ?t ?k ?v ?h] =>
    destruct (assignFinite t k v h) as [[[] ?]|] end;
  reflexivity.

Lemma ordersStep_events :
  forall m row h,
    ordersStep trim Number m row h =
      foldM eventStep (feedEvents Number (ordersDate trim) [(Orders, "orders")] row) m h.
Proof. unfold ordersStep. step_is_event. Qed.

Lemma labelsStep_events :
  forall m row h,
    labelsStep trim Number m row h =
      foldM eventStep
        (feedEvents Number (rowDate trim) [(ShippingLabels, "shipping_labels")] row) m h.
Proof. unfold labelsStep. step_is_event. Qed.

Lemma packersStep_events :
  forall m row h,
    packersStep trim Number m row h =
      foldM eventStep
        (feedEvents Number (rowDate trim)
           [(TotalPackers, "total_packers"); (TotalWarehousesPackers, "total_warehouses")]
           row) m h.
Proof. unfold packersStep. step_is_event. Qed.

Lemma pickersStep_events :
  forall m row h,
    pickersStep trim Number m row h =
      foldM eventStep
        (feedEvents Number (rowDate trim)
           [(TotalPickers, "total_pickers"); (TotalWarehousesPickers, "total_warehouses")]
           row) m h.
Proof. unfold pickersStep. step_is_event. Qed.

Lemma activeCountriesStep_event :
  forall m entry h, activeCountriesStep m entry h = eventStep m (countryEvent entry) h.
Proof.
  intros m [d set] h. unfold activeCountriesStep, eventStep, countryEvent, bind.
  cbn [fst snd writeAll].
  destruct (ensureRow m d h) as [[[m' t] h1]|]; [|reflexivity].
  unfold bind, assignFinite. rewrite number_of_nat_finite.
  destruct (assign t ActiveCountries (number_of_nat (size set)) h1) as [[[] ?]|];
    reflexivity.
Qed.

(** [buildRows] is the run of its events, then the array of the rows. *)
Lemma buildRows_events ordersCsv labelsCsv byCountryCsv packersCsv pickersCsv h :
  buildRows trim Number ordersCsv labelsCsv byCountryCsv packersCsv pickersCsv h =
    match foldM eventStep
            (joinEvents trim Number ordersCsv labelsCsv byCountryCsv packersCsv pickersCsv)
            [] h with
    | Some (m, h') => alloc (ArrayObject (List.map snd m)) h'
    | None => None
    end.
Proof.
  unfold buildRows, joinEvents, bind.
  rewrite foldM_app, (foldM_flat_map _ eventStep _ ordersCsv ordersStep_events).
  destruct (foldM eventStep _ [] h) as [[m1 h1]|]; [|reflexivity].
  rewrite foldM_app, (foldM_flat_map _ eventStep _ labelsCsv labelsStep_events).
  destruct (foldM eventStep _ m1 h1) as [[m2 h2]|]; [|reflexivity].
  rewrite foldM_app, (foldM_flat_map _ eventStep _ packersCsv packersStep_events).
  destruct (foldM eventStep _ m2 h2) as [[m3 h3]|]; [|reflexivity].
  rewrite foldM_app, (foldM_flat_map _ eventStep _ pickersCsv pickersStep_events).
  destruct (foldM eventStep _ m3 h3) as [[m4 h4]|]; [|reflexivity].
  cbv zeta.
  rewrite (foldM_map _ eventStep countryEvent _ activeCountriesStep_event).
  destruct (foldM eventStep _ m4 h4) as [[m5 h5]|]; reflexivity.
Qed.
End JoinEvents.

(** ** What the events leave in the store *)

Lemma In_map_get {V} (m : list (string * V)) d v :
  NoDup (List.map fst m) -> In (d, v) m -> map_get m d = Some v.
Proof.
  induction m as [|[k w] m IH]; intros Hnd Hin; [destruct Hin|].
  simpl in Hnd. apply NoDup_cons in Hnd as [Hk Hnd]. simpl.
  destruct (String.eqb_spec k d) as [->|Hne].
  - destruct Hin as [[= ->]|Hin]; [reflexivity|].
    exfalso. apply Hk. apply list_elem_of_In.
    apply (in_map fst) in Hin. exact Hin.
  - destruct Hin as [[= -> ->]|Hin]; [congruence|]. now apply IH.
Qed.

Lemma existsb_eqb_In d keys : existsb (String.eqb d) keys = true <-> In d keys.
Proof.
  rewrite existsb_exists. split.
  - intros (x & Hx & He). apply String.eqb_eq in He. now subst.
  - intros H. exists d. split; [exact H|apply String.eqb_refl].
Qed.

Lemma addKey_In keys d x : In x (addKey keys d) <-> In x keys \/ x = d.
Proof.
  unfold addKey. destruct (existsb (String.eqb d) keys) eqn:E.
  - apply existsb_eqb_In in E. split; [auto|]. intros [H | ->]; assumption.
  - rewrite in_app_iff. simpl. intuition congruence.
Qed.

Lemma fold_addKey_In ds : forall acc x,
  In x (fold_left addKey ds acc) <-> In x acc \/ In x ds.
Proof.
  induction ds as [|d ds IH]; intros acc x; simpl; [tauto|].
  rewrite IH, addKey_In. intuition congruence.
Qed.

Lemma firstSeen_In ds x : In x (firstSeen ds) <-> In x ds.
Proof. unfold firstSeen. rewrite fold_addKey_In. simpl. tauto. Qed.

Lemma addKey_NoDup keys d : NoDup keys -> NoDup (addKey keys d).
Proof.
  intros H. unfold addKey. destruct (existsb (String.eqb d) keys) eqn:E; [exact H|].
  apply NoDup_app. split; [exact H|]. split; [|apply NoDup_singleton].
  intros x Hx Hd. apply list_elem_of_singleton in Hd. subst x.
  apply list_elem_of_In, existsb_eqb_In in Hx. congruence.
Qed.

Lemma fold_addKey_NoDup ds : forall acc, NoDup acc -> NoDup (fold_left addKey ds acc).
Proof.
  induction ds as [|d ds IH]; intros acc H; simpl; [exact H|].
  apply IH, addKey_NoDup, H.
Qed.

Lemma firstSeen_NoDup ds : NoDup (firstSeen ds).
Proof. apply fold_addKey_NoDup. constructor. Qed.

Lemma firstSeen_snoc ds d : firstSeen (ds ++ [d]) = addKey (firstSeen ds) d.
Proof. unfold firstSeen. now rewrite fold_left_app. Qed.

Lemma holds_ext h m F G :
  (forall d key, F d key = G d key) -> holds h m F -> holds h m G.
Proof.
  intros HFG [Hnd H]. split; [exact Hnd|]. intros d r Hin.
  destruct (H d r Hin) as (row & Hr & Hd & Hf). exists row.
  split; [exact Hr|]. split; [exact Hd|]. intros key. now rewrite Hf.
Qed.

Lemma holds_same_ref h m F d r r' :
  holds h m F -> In (d, r) m -> In (d, r') m -> r = r'.
Proof.
  intros [Hnd _] H1 H2.
  apply (In_map_get _ _ _ Hnd) in H1, H2. congruence.
Qed.

Lemma holds_same_date h m F d d' r :
  holds h m F -> In (d, r) m -> In (d', r) m -> d = d'.
Proof.
  intros [_ H] H1 H2.
  destruct (H _ _ H1) as (row & Hr & Hd & _).
  destruct (H _ _ H2) as (row' & Hr' & Hd' & _). congruence.
Qed.

(** [ensureRow] on a store that holds [F]: the row of [d] is found, or a
    new row without fields is filed under [d] at the end of the map. *)
Lemma ensureRow_holds h m F d :
  holds h m F ->
  (~ In d (List.map fst m) -> forall key, F d key = None) ->
  exists m' target h',
    ensureRow m d h = Some ((m', target), h')
    /\ holds h' m' F /\ In (d, target) m'
    /\ List.map fst m' = addKey (List.map fst m) d.
Proof.
  intros Hh Hnew. pose proof Hh as [Hnd H]. unfold ensureRow, addKey.
  destruct (map_get m d) as [row|] eqn:E.
  - apply map_get_Some in E as Hin.
    assert (Hex : existsb (String.eqb d) (List.map fst m) = true).
    { apply existsb_eqb_In. apply (in_map fst) in Hin. exact Hin. }
    rewrite Hex. exists m, row, h. auto.
  - apply map_get_None in E as Hnin.
    assert (Hex : existsb (String.eqb d) (List.map fst m) = false).
    { destruct (existsb _ _) eqn:Ex; [|reflexivity].
      apply existsb_eqb_In in Ex. contradiction. }
    rewrite Hex.
    exists (m ++ [(d, length h)]), (length h), (h ++ [RowObject (emptyRow d)]).
    split; [reflexivity|]. split; [split|split].
    + rewrite List.map_app. simpl. apply NoDup_app.
      split; [exact Hnd|]. split; [|apply NoDup_singleton].
      intros x Hx Hx'. apply list_elem_of_In in Hx.
      apply list_elem_of_singleton in Hx'. now subst x.
    + intros d' r Hin. apply in_app_or in Hin as [Hin|[[= <- <-]|[]]].
      * destruct (H d' r Hin) as (row & Hr & Hd & Hf). exists row.
        split; [now apply lookup_extend|auto].
      * exists (emptyRow d). split; [apply lookup_snoc|]. split; [reflexivity|].
        intros key. rewrite (Hnew Hnin key). destruct key; reflexivity.
    + apply in_or_app. right. now left.
    + now rewrite List.map_app.
Qed.

(** A write to the row of [d] changes the field [key] of [d], when the
    number is finite, and nothing else. *)
Lemma assignFinite_holds h m F d target key v :
  holds h m F -> In (d, target) m ->
  exists h',
    assignFinite target key v h = Some (tt, h')
    /\ holds h' m
         (fun d' key' =>
            if decide (d' = d /\ key' = key) then lastFrom (F d key) [v] else F d' key').
Proof.
  intros Hh Hin. pose proof Hh as [Hnd H].
  destruct (H d target Hin) as (row & Hr & Hd & Hf).
  unfold assignFinite, lastFrom. simpl.
  destruct (is_finite v) eqn:Hv.
  - unfold assign. rewrite Hr. eexists. split; [reflexivity|].
    assert (Hlt : (target < length h)%nat) by (eapply lookup_lt_Some, Hr).
    split; [exact Hnd|]. intros d' r Hin'.
    destruct (decide (r = target)) as [->|Hne].
    + assert (d' = d) as -> by (eapply holds_same_date; eassumption).
      exists (setField key v row).
      split; [now rewrite list_lookup_insert_eq by exact Hlt|].
      split; [exact Hd|]. intros key'. rewrite rawField_setField.
      destruct (decide (key = key')) as [->|Hk].
      * now rewrite decide_True by auto.
      * rewrite decide_False by (intros [_ ?]; congruence). apply Hf.
    + destruct (H d' r Hin') as (row' & Hr' & Hd' & Hf'). exists row'.
      split; [now rewrite list_lookup_insert_ne by congruence|].
      split; [exact Hd'|]. intros key'.
      rewrite decide_False; [apply Hf'|].
      intros [-> _]. apply Hne. eapply holds_same_ref; eassumption.
  - exists h. split; [reflexivity|]. eapply holds_ext; [|exact Hh].
    intros d' key'. destruct (decide (d' = d /\ key' = key)) as [[-> ->]|]; reflexivity.
Qed.

(** The values a list of writes offers to [key]. *)
Lemma writeAll_holds ws : forall h m F d target,
  holds h m F -> In (d, target) m ->
  exists h',
    writeAll target ws h = Some (tt, h')
    /\ holds h' m
         (fun d' key' =>
            if decide (d' = d)
            then lastFrom (F d key')
                   (List.map snd (List.filter (fun w => bool_decide (fst w = key')) ws))
            else F d' key').
Proof.
  induction ws as [|[key v] ws IH]; intros h m F d target Hh Hin.
  - exists h. split; [reflexivity|]. eapply holds_ext; [|exact Hh].
    intros d' key'. destruct (decide (d' = d)) as [->|]; reflexivity.
  - destruct (assignFinite_holds h m F d target key v Hh Hin) as (h1 & H1 & Hh1).
    destruct (IH h1 m _ d target Hh1 Hin) as (h2 & H2 & Hh2).
    exists h2. split.
    + cbn [writeAll]. unfold bind. now rewrite H1.
    + eapply holds_ext; [|exact Hh2]. intros d' key'. cbv beta.
      destruct (decide (d' = d)) as [->|Hd]; [|now rewrite decide_False by tauto].
      cbn [List.filter fst snd].
      destruct (decide (key' = key)) as [->|Hk].
      * rewrite decide_True by auto. rewrite bool_decide_eq_true_2 by reflexivity.
        reflexivity.
      * rewrite decide_False by tauto.
        rewrite bool_decide_eq_false_2 by congruence. reflexivity.
Qed.

Lemma writesOf_app E1 E2 d key :
  writesOf (E1 ++ E2) d key = writesOf E1 d key ++ writesOf E2 d key.
Proof. unfold writesOf. apply flat_map_app. Qed.

Lemma writesOf_absent E d key : ~ In d (List.map fst E) -> writesOf E d key = [].
Proof.
  induction E as [|e E IH]; intros Hn; [reflexivity|].
  unfold writesOf in *. simpl in *.
  destruct (String.eqb_spec (fst e) d) as [He|He]; [tauto|].
  rewrite IH by tauto. reflexivity.
Qed.

Lemma writesOf_one d ws d' key :
  writesOf [(d, ws)] d' key =
  if String.eqb d d'
  then List.map snd (List.filter (fun w => bool_decide (fst w = key)) ws)
  else [].
Proof. unfold writesOf. simpl. apply app_nil_r. Qed.

(** One event on a store that holds the fields of the events before it. *)
Lemma eventStep_holds h m E e :
  holds h m (fieldsOf E) -> List.map fst m = firstSeen (List.map fst E) ->
  exists m' h',
    eventStep m e h = Some (m', h')
    /\ holds h' m' (fieldsOf (E ++ [e]))
    /\ List.map fst m' = firstSeen (List.map fst (E ++ [e])).
Proof.
  intros Hh Hk. destruct e as [d ws].
  destruct (ensureRow_holds h m (fieldsOf E) d Hh) as (m1 & t & h1 & He & Hh1 & Hin & Hk1).
  { intros Hn key. unfold fieldsOf. rewrite writesOf_absent; [reflexivity|].
    rewrite Hk in Hn. now rewrite firstSeen_In in Hn. }
  destruct (writeAll_holds ws h1 m1 _ d t Hh1 Hin) as (h2 & Hw & Hh2).
  exists m1, h2. split; [|split].
  - unfold eventStep, bind. cbn [fst snd]. rewrite He. cbv beta iota.
    unfold bind. now rewrite Hw.
  - eapply holds_ext; [|exact Hh2]. intros d' key. cbv beta.
    unfold fieldsOf, lastFinite, lastFrom.
    rewrite writesOf_app, fold_left_app.
    rewrite writesOf_one.
    destruct (decide (d' = d)) as [->|Hd].
    + now rewrite String.eqb_refl.
    + destruct (String.eqb_spec d d'); [congruence|reflexivity].
  - rewrite List.map_app. cbn [List.map fst]. rewrite firstSeen_snoc, Hk1, Hk. reflexivity.
Qed.

Lemma foldM_eventStep_holds events : forall h m E,
  holds h m (fieldsOf E) -> List.map fst m = firstSeen (List.map fst E) ->
  exists m' h',
    foldM eventStep events m h = Some (m', h')
    /\ holds h' m' (fieldsOf (E ++ events))
    /\ List.map fst m' = firstSeen (List.map fst (E ++ events)).
Proof.
  induction events as [|e events IH]; intros h m E Hh Hk.
  - exists m, h. rewrite app_nil_r. auto.
  - destruct (eventStep_holds h m E e Hh Hk) as (m1 & h1 & H1 & Hh1 & Hk1).
    destruct (IH h1 m1 _ Hh1 Hk1) as (m2 & h2 & H2 & Hh2 & Hk2).
    exists m2, h2. rewrite <- app_assoc in Hh2, Hk2.
    split; [|auto]. simpl. unfold bind. now rewrite H1.
Qed.

(** The rows behind the map of a store that holds [F]. *)
Lemma holds_rows h m F :
  holds h m F ->
  exists rs,
    Forall2 (fun i r => h !! i = Some (RowObject r)) (List.map snd m) rs
    /\ List.map date rs = List.map fst m
    /\ forall r, In r rs -> forall key, rawField r key = F (date r) key.
Proof.
  intros [_ H]. induction m as [|[d r] m IH].
  - exists []. split; [constructor|]. split; [reflexivity|]. intros r [].
  - destruct IH as (rs & H2 & Hd & Hf); [intros d' r' Hin; apply H; now right|].
    destruct (H d r) as (row & Hr & Hdate & Hfields); [now left|].
    exists (row :: rs). split; [simpl; now constructor|].
    split; [simpl; now rewrite Hdate, Hd|].
    intros r' [<-|Hin] key; [rewrite Hdate; apply Hfields|now apply Hf].
Qed.

(** ** The events of the feeds, read as values *)

Lemma addKey_present keys d : In d keys -> addKey keys d = keys.
Proof. intros H. unfold addKey. apply existsb_eqb_In in H. now rewrite H. Qed.

Lemma addKey_absent keys d : ~ In d keys -> addKey keys d = keys ++ [d].
Proof.
  intros H. unfold addKey. destruct (existsb (String.eqb d) keys) eqn:E; [|reflexivity].
  apply existsb_eqb_In in E. contradiction.
Qed.

Lemma fold_addKey_firstSeen C : forall acc,
  fold_left addKey (firstSeen C) acc = fold_left addKey C acc.
Proof.
  induction C as [|c C IH] using rev_ind; intros acc; [reflexivity|].
  rewrite firstSeen_snoc, fold_left_app. simpl. rewrite <- IH.
  destruct (in_dec string_dec c (firstSeen C)) as [E|E].
  - assert (Hin : In c (fold_left addKey (firstSeen C) acc))
      by (apply fold_addKey_In; now right).
    now rewrite (addKey_present _ _ Hin), (addKey_present _ _ E).
  - now rewrite (addKey_absent _ _ E), fold_left_app.
Qed.

Lemma firstSeen_app_firstSeen A C : firstSeen (A ++ firstSeen C) = firstSeen (A ++ C).
Proof. unfold firstSeen at 1 3. rewrite !fold_left_app. apply fold_addKey_firstSeen. Qed.

Section JoinValues.
Variable trim : string -> string.
Variable Number : option string -> number.

Lemma feedEvents_dates dateOf cols csv :
  List.map fst (flat_map (feedEvents Number dateOf cols) csv) = omap dateOf csv.
Proof.
  induction csv as [|row csv IH]; [reflexivity|].
  cbn [flat_map omap list_omap]. unfold feedEvents at 1.
  destruct (dateOf row); cbn [app List.map fst]; [f_equal|]; exact IH.
Qed.

Lemma written_values (row : RawRow) key (cs : list (MetricKey * string)) :
  List.map snd
    (List.filter (fun w : MetricKey * number => bool_decide (fst w = key))
       (List.map (fun c => (fst c, Number (row !! snd c))) cs))
  = List.map (fun c => Number (row !! snd c))
      (List.filter (fun c : MetricKey * string => bool_decide (fst c = key)) cs).
Proof.
  induction cs as [|c cs IHc]; [reflexivity|]. cbn [List.map List.filter fst snd].
  destruct (bool_decide (fst c = key)); cbn [List.map snd]; now rewrite IHc.
Qed.

(** A feed that writes [key] from the column [col]. *)
Lemma feedEvents_values dateOf cols key col d csv :
  List.filter (fun c : MetricKey * string => bool_decide (fst c = key)) cols = [(key, col)] ->
  writesOf (flat_map (feedEvents Number dateOf cols) csv) d key
  = valuesOn Number dateOf col d csv.
Proof.
  intros Hc. unfold valuesOn.
  induction csv as [|row csv IH]; [reflexivity|].
  cbn [flat_map List.filter]. rewrite writesOf_app, IH. unfold feedEvents.
  destruct (dateOf row) as [d'|].
  - rewrite writesOf_one. destruct (String.eqb_spec d' d) as [->|Hne].
    + rewrite bool_decide_eq_true_2 by reflexivity. cbn [List.map app].
      f_equal.
      rewrite written_values, Hc. reflexivity.
    + rewrite bool_decide_eq_false_2 by congruence. reflexivity.
  - rewrite bool_decide_eq_false_2 by discriminate. reflexivity.
Qed.

(** A feed that does not write [key]. *)
Lemma feedEvents_silent dateOf cols key d csv :
  List.filter (fun c : MetricKey * string => bool_decide (fst c = key)) cols = [] ->
  writesOf (flat_map (feedEvents Number dateOf cols) csv) d key = [].
Proof.
  intros Hc. induction csv as [|row csv IH]; [reflexivity|].
  cbn [flat_map]. rewrite writesOf_app, IH, app_nil_r. unfold feedEvents.
  destruct (dateOf row) as [d'|]; [|reflexivity].
  rewrite writesOf_one. destruct (String.eqb d' d); [|reflexivity].
  rewrite written_values, Hc. reflexivity.
Qed.

(** *** The countries of a date *)

Lemma countryStep_rowCountry cbd row :
  countryStep trim cbd row =
  match rowCountry trim row with
  | Some (d, c) => addCountry cbd d c
  | None => cbd
  end.
Proof.
  unfold countryStep, rowCountry, rowDate, keyOf.
  destruct (falsyStr (trim <$> row !! "date")); [reflexivity|].
  destruct (falsyStr (trim <$> row !! "shipping_country")); reflexivity.
Qed.

Lemma countriesOn_snoc d csv row :
  countriesOn trim d (csv ++ [row]) =
  countriesOn trim d csv ∪
    match rowCountry trim row with
    | Some (d', c) => if String.eqb d' d then {[c]} else ∅
    | None => ∅
    end.
Proof.
  unfold countriesOn. rewrite omap_app, list_to_set_app_L. f_equal.
  cbn [omap list_omap]. destruct (rowCountry trim row) as [[d' c]|]; [|reflexivity].
  destruct (String.eqb d' d); [|reflexivity]. cbn. set_solver.
Qed.

Lemma addCountry_keys cbd d c :
  List.map fst (addCountry cbd d c) = addKey (List.map fst cbd) d.
Proof.
  unfold addKey. induction cbd as [|[k s] cbd IH]; [reflexivity|].
  cbn [addCountry List.map fst existsb].
  rewrite (String.eqb_sym d k). destruct (String.eqb k d) eqn:E; [reflexivity|].
  cbn [List.map fst orb]. rewrite IH.
  destruct (existsb (String.eqb d) (List.map fst cbd)); reflexivity.
Qed.

Lemma addCountry_In cbd d c d' s' :
  NoDup (List.map fst cbd) ->
  In (d', s') (addCountry cbd d c) ->
  (d' <> d /\ In (d', s') cbd)
  \/ (d' = d /\ ((exists s, In (d, s) cbd /\ s' = s ∪ {[c]})
                 \/ (~ In d (List.map fst cbd) /\ s' = {[c]}))).
Proof.
  induction cbd as [|[k s] cbd IH]; intros Hnd Hin.
  - destruct Hin as [[= <- <-]|[]]. right. split; [reflexivity|]. right. auto.
  - cbn [List.map fst] in Hnd. apply NoDup_cons in Hnd as [Hk Hnd].
    cbn [addCountry] in Hin. destruct (String.eqb_spec k d) as [->|Hne].
    + destruct Hin as [[= <- <-]|Hin].
      * right. split; [reflexivity|]. left. exists s. split; [now left|reflexivity].
      * left. split; [|now right]. intros ->. apply Hk, list_elem_of_In.
        apply (in_map fst) in Hin. exact Hin.
    + destruct Hin as [[= <- <-]|Hin]; [left; split; [exact Hne|now left]|].
      destruct (IH Hnd Hin) as [[Hd Hi]|[-> [(s0 & Hi & ->)|[Hn ->]]]].
      * left. split; [exact Hd|now right].
      * right. split; [reflexivity|]. left. exists s0. split; [now right|reflexivity].
      * right. split; [reflexivity|]. right. split; [|reflexivity].
        cbn [List.map fst]. intros [?|?]; [congruence|contradiction].
Qed.

Lemma countryStep_after cbd csv row :
  countriesAfter trim cbd csv -> countriesAfter trim (countryStep trim cbd row) (csv ++ [row]).
Proof.
  intros (Hnd & Hk & Hs & He). rewrite countryStep_rowCountry.
  unfold countriesAfter. rewrite omap_app. cbn [omap list_omap].
  setoid_rewrite countriesOn_snoc.
  destruct (rowCountry trim row) as [[d c]|]; cbn [fmap option_fmap option_map fst].
  - rewrite firstSeen_snoc, <- Hk, addCountry_keys.
    split; [now apply addKey_NoDup|]. split; [reflexivity|]. split.
    + intros d' s' Hin.
      destruct (addCountry_In _ _ _ _ _ Hnd Hin) as [[Hd Hi]|[-> [(s0 & Hi & ->)|[Hn ->]]]].
      * destruct (Hs _ _ Hi) as [-> Hne].
        destruct (String.eqb_spec d d'); [congruence|].
        split; [set_solver|exact Hne].
      * destruct (Hs _ _ Hi) as [-> Hne]. rewrite String.eqb_refl. split; set_solver.
      * rewrite String.eqb_refl, (He _ Hn). split; set_solver.
    + intros d' Hn. rewrite addKey_In in Hn.
      destruct (String.eqb_spec d d') as [->|Hne]; [tauto|].
      rewrite He by tauto. set_solver.
  - rewrite app_nil_r. split; [exact Hnd|]. split; [exact Hk|]. split.
    + intros d s Hin. destruct (Hs _ _ Hin) as [-> Hne]. split; [set_solver|exact Hne].
    + intros d Hn. rewrite (He _ Hn). set_solver.
Qed.

Lemma countrySteps_after csv : forall cbd pre,
  countriesAfter trim cbd pre ->
  countriesAfter trim (fold_left (countryStep trim) csv cbd) (pre ++ csv).
Proof.
  induction csv as [|row csv IH]; intros cbd pre H; [now rewrite app_nil_r|].
  cbn [fold_left]. replace (pre ++ row :: csv) with ((pre ++ [row]) ++ csv)
    by now rewrite <- app_assoc.
  apply IH, countryStep_after, H.
Qed.

Lemma countries_after csv : countriesAfter trim (fold_left (countryStep trim) csv []) csv.
Proof.
  apply (countrySteps_after csv [] []).
  split; [constructor|]. split; [reflexivity|]. split; [intros d s []|].
  intros d _. reflexivity.
Qed.

Lemma countryEvents_silent cbd d key :
  key <> ActiveCountries -> writesOf (List.map countryEvent cbd) d key = [].
Proof.
  intros Hk. induction cbd as [|[k s] cbd IH]; [reflexivity|].
  cbn [List.map]. change (?x :: ?l) with ([x] ++ l). rewrite writesOf_app, IH, app_nil_r.
  unfold countryEvent. rewrite writesOf_one. cbn [fst snd].
  destruct (String.eqb k d); [|reflexivity].
  cbn [List.filter fst]. rewrite bool_decide_eq_false_2 by congruence. reflexivity.
Qed.

Lemma countryEvents_absent cbd d key :
  ~ In d (List.map fst cbd) -> writesOf (List.map countryEvent cbd) d key = [].
Proof.
  intros Hn. apply writesOf_absent. rewrite List.map_map. exact Hn.
Qed.

Lemma countryEvents_value cbd d s :
  NoDup (List.map fst cbd) -> In (d, s) cbd ->
  writesOf (List.map countryEvent cbd) d ActiveCountries = [number_of_nat (size s)].
Proof.
  induction cbd as [|[k s0] cbd IH]; intros Hnd Hin; [destruct Hin|].
  cbn [List.map fst] in Hnd. apply NoDup_cons in Hnd as [Hk Hnd].
  cbn [List.map]. change (?x :: ?l) with ([x] ++ l). rewrite writesOf_app.
  unfold countryEvent at 1. rewrite writesOf_one. cbn [fst snd].
  destruct Hin as [[= -> ->]|Hin].
  - rewrite String.eqb_refl. cbn [List.filter fst].
    rewrite bool_decide_eq_true_2 by reflexivity. cbn [List.map snd app].
    rewrite countryEvents_absent; [reflexivity|].
    intros Hd. apply Hk, list_elem_of_In, Hd.
  - destruct (String.eqb_spec k d) as [->|Hne].
    + exfalso. apply Hk, list_elem_of_In. apply (in_map fst) in Hin. exact Hin.
    + now apply IH.
Qed.

(** *** The fields the events of a run leave *)

Lemma joinEvents_dates ordersCsv labelsCsv byCountryCsv packersCsv pickersCsv :
  firstSeen
    (List.map fst (joinEvents trim Number ordersCsv labelsCsv byCountryCsv packersCsv pickersCsv))
  = firstSeen (feedDates trim ordersCsv labelsCsv byCountryCsv packersCsv pickersCsv).
Proof.
  unfold joinEvents, feedDates. rewrite !List.map_app, !feedEvents_dates.
  destruct (countries_after byCountryCsv) as (_ & Hk & _).
  rewrite List.map_map. change (fun x => fst (countryEvent x)) with (@fst string (gset string)).
  rewrite Hk, !app_assoc. apply firstSeen_app_firstSeen.
Qed.

Lemma joinEvents_fields ordersCsv labelsCsv byCountryCsv packersCsv pickersCsv d key :
  fieldsOf (joinEvents trim Number ordersCsv labelsCsv byCountryCsv packersCsv pickersCsv) d key
  = rawField
      (joinedRow trim Number ordersCsv labelsCsv byCountryCsv packersCsv pickersCsv d) key.
Proof.
  unfold fieldsOf, joinEvents. rewrite !writesOf_app.
  destruct (decide (key = ActiveCountries)) as [->|Hk].
  - rewrite !feedEvents_silent by reflexivity. cbn [app rawField joinedRow active_countries].
    destruct (countries_after byCountryCsv) as (Hnd & _ & Hs & He).
    unfold activeOn.
    destruct (in_dec string_dec d (List.map fst (fold_left (countryStep trim) byCountryCsv [])))
      as [Hin|Hn].
    + apply in_map_iff in Hin as ([d' s] & Hd & Hin). cbn [fst] in Hd. subst d'.
      rewrite (countryEvents_value _ _ _ Hnd Hin).
      destruct (Hs _ _ Hin) as [<- Hne].
      unfold lastFinite, lastFrom. cbn [fold_left]. rewrite number_of_nat_finite.
      destruct (size s) eqn:Es; [|reflexivity].
      apply size_empty_iff in Es. exfalso. apply Hne. now apply leibniz_equiv.
    + rewrite (countryEvents_absent _ _ _ Hn), (He _ Hn). reflexivity.
  - rewrite (countryEvents_silent _ _ _ Hk), app_nil_r.
    destruct key; try congruence;
      repeat match goal with
        | |- context [writesOf (flat_map (feedEvents _ ?dateOf ?cols) ?csv) ?d ?key] =>
            first [ rewrite (feedEvents_silent dateOf cols key d csv eq_refl)
                  | rewrite (feedEvents_values dateOf cols key _ d csv eq_refl) ]
        end;
      rewrite ?app_nil_r; reflexivity.
Qed.
End JoinValues.

(** ** The join, as a function of the five feeds *)

Lemma row_ext (r r' : MetricsRow) :
  date r = date r' -> (forall key, rawField r key = rawField r' key) -> r = r'.
Proof.
  destruct r, r'. cbn [date]. intros -> H.
  pose proof (H Orders). pose proof (H ShippingLabels). pose proof (H TotalPackers).
  pose proof (H TotalPickers). pose proof (H TotalWarehousesPackers).
  pose proof (H TotalWarehousesPickers). pose proof (H ActiveCountries).
  cbn [rawField orders shipping_labels total_packers total_pickers
       total_warehouses_packers total_warehouses_pickers active_countries] in *.
  congruence.
Qed.

(** The last finite value: the one after which no value is finite. *)
Lemma lastFrom_spec vs : forall init,
  (Forall (fun v => is_finite v = false) vs /\ lastFrom init vs = init)
  \/ exists pre v post,
       vs = pre ++ v :: post /\ is_finite v = true
       /\ Forall (fun x => is_finite x = false) post /\ lastFrom init vs = Some v.
Proof.
  unfold lastFrom. induction vs as [|v vs IH]; intros init; [left; split; [constructor|reflexivity]|].
  cbn [fold_left].
  destruct (IH (if is_finite v then Some v else init))
    as [[Hall He]|(pre & w & post & -> & Hw & Hpost & He)].
  - destruct (is_finite v) eqn:Hv.
    + right. exists [], v, vs. auto.
    + left. split; [now constructor|exact He].
  - right. exists (v :: pre), w, post. auto.
Qed.

Section JoinResult.
Variable trim : string -> string.
Variable Number : option string -> number.

(** The rows [buildRows] leaves in the array: the row of each date, the
    dates in the order the loops meet them first. *)
Lemma buildRows_joined ordersCsv labelsCsv byCountryCsv packersCsv pickersCsv :
  exists rows h,
    buildRows trim Number ordersCsv labelsCsv byCountryCsv packersCsv pickersCsv []
      = Some (rows, h)
    /\ rowsAt h rows
       = Some (List.map
                 (joinedRow trim Number ordersCsv labelsCsv byCountryCsv packersCsv pickersCsv)
                 (firstSeen
                    (feedDates trim ordersCsv labelsCsv byCountryCsv packersCsv pickersCsv))).
Proof.
  rewrite buildRows_events.
  set (E := joinEvents trim Number ordersCsv labelsCsv byCountryCsv packersCsv pickersCsv).
  destruct (foldM_eventStep_holds E [] [] []) as (m & h & Hf & Hh & Hk).
  { split; [constructor|]. intros d r []. }
  { reflexivity. }
  cbn [app] in Hh, Hk. rewrite Hf. unfold alloc.
  exists (length h), (h ++ [ArrayObject (List.map snd m)]). split; [reflexivity|].
  destruct (holds_rows _ _ _ Hh) as (rs & H2 & Hd & Hr).
  unfold rowsAt. erewrite readRows_intro; [| apply lookup_snoc |].
  2:{ eapply Forall2_impl; [exact H2|]. intros i r Hi. now apply lookup_extend. }
  cbn [fmap option_fmap option_map fst]. f_equal.
  rewrite <- (joinEvents_dates trim Number). fold E. rewrite <- Hk, <- Hd.
  clear - Hr. subst E. induction rs as [|r rs IH]; [reflexivity|].
  cbn [List.map]. f_equal.
  - apply row_ext; [reflexivity|]. intros key.
    rewrite (Hr r (or_introl eq_refl) key). apply joinEvents_fields.
  - apply IH. intros r' Hin. apply Hr. now right.
Qed.

Lemma GET_joined localeCompare ordersCsv labelsCsv byCountryCsv packersCsv pickersCsv :
  GET localeCompare trim Number ordersCsv labelsCsv byCountryCsv packersCsv pickersCsv
  = Json200
      (computeHeartbeat localeCompare
         (List.map
            (joinedRow trim Number ordersCsv labelsCsv byCountryCsv packersCsv pickersCsv)
            (firstSeen
               (feedDates trim ordersCsv labelsCsv byCountryCsv packersCsv pickersCsv)))).
Proof.
  destruct (buildRows_joined ordersCsv labelsCsv byCountryCsv packersCsv pickersCsv)
    as (rows & h & Hb & Hr).
  unfold GET. rewrite (bind_Some _ _ _ _ _ Hb).
  pose proof (rowsAt_inv _ _ _ Hr) as (items & Hi & HF).
  rewrite (bind_Some _ _ h items h) by (unfold readArray; now rewrite Hi).
  destruct items as [|i items].
  - apply Forall2_nil_inv_l in HF. rewrite HF. reflexivity.
  - destruct (computeHeartbeat_st_run localeCompare h rows _ _ Hi HF) as [s ->].
    reflexivity.
Qed.

Lemma joinedRow_finite ordersCsv labelsCsv byCountryCsv packersCsv pickersCsv d :
  finiteRow (joinedRow trim Number ordersCsv labelsCsv byCountryCsv packersCsv pickersCsv d).
Proof.
  assert (Hl : forall vs v, lastFinite vs = Some v -> is_finite v = true).
  { intros vs v. unfold lastFinite.
    destruct (lastFrom_spec vs None) as [[_ ->]|(pre & w & post & _ & Hw & _ & ->)];
      [discriminate|]. now intros [= <-]. }
  intros key v. destruct key; cbn [rawField joinedRow orders shipping_labels total_packers
    total_pickers total_warehouses_packers total_warehouses_pickers active_countries];
    try apply Hl.
  unfold activeOn. destruct (size _); [discriminate|]. intros [= <-].
  apply number_of_nat_finite.
Qed.
End JoinResult.


(** X8: every field a feed fills holds the last finite number the feed
    offers for the date of the row, in the order of the rows of the feed;
    a later value that is not finite leaves an earlier finite one, and a
    field no finite number is offered for stays absent.  The packers and
    the pickers feed fill their own warehouses field, both from the column
    [total_warehouses]. *)
Theorem join_last_finite_value_wins :
  forall trim Number ordersCsv labelsCsv byCountryCsv packersCsv pickersCsv,
  exists rows h rs,
    buildRows trim Number ordersCsv labelsCsv byCountryCsv packersCsv pickersCsv []
      = Some (rows, h)
    /\ rowsAt h rows = Some rs
    /\ Forall
         (fun r =>
            orders r
              = lastFinite (valuesOn Number (ordersDate trim) "orders" (date r) ordersCsv)
            /\ shipping_labels r
              = lastFinite
                  (valuesOn Number (rowDate trim) "shipping_labels" (date r) labelsCsv)
            /\ total_packers r
              = lastFinite (valuesOn Number (rowDate trim) "total_packers" (date r) packersCsv)
            /\ total_warehouses_packers r
              = lastFinite
                  (valuesOn Number (rowDate trim) "total_warehouses" (date r) packersCsv)
            /\ total_pickers r
              = lastFinite (valuesOn Number (rowDate trim) "total_pickers" (date r) pickersCsv)
            /\ total_warehouses_pickers r
              = lastFinite
                  (valuesOn Number (rowDate trim) "total_warehouses" (date r) pickersCsv))
         rs.
Proof.
  intros trim Number o l c p k.
  destruct (buildRows_joined trim Number o l c p k) as (rows & h & Hb & Hr).
  eexists rows, h, _. split; [exact Hb|]. split; [exact Hr|].
  apply List.Forall_forall. intros r Hin. apply in_map_iff in Hin as (d & <- & _).
  cbn. auto 7.
Qed.

(** X9: [active_countries] of a row is the number of distinct countries
    the by-country feed names on the rows of that date, blank dates and
    blank countries left out; it is at least one where present, and
    absent on a date the feed has no such row for. *)
Theorem join_active_countries_counts_distinct :
  forall trim Number ordersCsv labelsCsv byCountryCsv packersCsv pickersCsv,
  exists rows h rs,
    buildRows trim Number ordersCsv labelsCsv byCountryCsv packersCsv pickersCsv []
      = Some (rows, h)
    /\ rowsAt h rows = Some rs
    /\ Forall
         (fun r =>
            let countries := countriesOn trim (date r) byCountryCsv in
            active_countries r
            = if decide (countries = ∅) then None
              else Some (number_of_nat (size countries)))
         rs.
Proof.
  intros trim Number o l c p k.
  destruct (buildRows_joined trim Number o l c p k) as (rows & h & Hb & Hr).
  eexists rows, h, _. split; [exact Hb|]. split; [exact Hr|].
  apply List.Forall_forall. intros r Hin. apply in_map_iff in Hin as (d & <- & _).
  cbn [joinedRow date active_countries]. cbv zeta. unfold activeOn.
  destruct (decide (countriesOn trim d c = ∅)) as [He|Hne].
  - rewrite He, size_empty. reflexivity.
  - destruct (size (countriesOn trim d c)) eqn:Es; [|reflexivity].
    apply size_empty_iff in Es. exfalso. apply Hne. now apply leibniz_equiv.
Qed.

(** X10: [GET] never answers with the status 500 once the five feeds are
    read: its body is [computeHeartbeat] of the joined rows, a function
    of the five feeds alone (and [[]] when no feed has a dated row). *)
Theorem GET_is_heartbeat_of_joined_rows :
  forall localeCompare trim Number ordersCsv labelsCsv byCountryCsv packersCsv pickersCsv,
    GET localeCompare trim Number ordersCsv labelsCsv byCountryCsv packersCsv pickersCsv
    = Json200
        (computeHeartbeat localeCompare
           (List.map
              (joinedRow trim Number ordersCsv labelsCsv byCountryCsv packersCsv pickersCsv)
              (firstSeen
                 (feedDates trim ordersCsv labelsCsv byCountryCsv packersCsv pickersCsv)))).
Proof. intros. apply GET_joined. Qed.


(** X12: every metric of every point of the response is a finite number:
    the loops admit finite values only, a set size is finite, and an
    absent field is [0]. *)
Theorem GET_metrics_finite :
  forall localeCompare trim Number ordersCsv labelsCsv byCountryCsv packersCsv pickersCsv,
  exists body,
    GET localeCompare trim Number ordersCsv labelsCsv byCountryCsv packersCsv pickersCsv
      = Json200 body
    /\ forall p key, In p body -> is_finite (field (metrics p) key) = true.
Proof.
  intros lc trim Number o l c p k. eexists. split; [apply GET_joined|].
  intros pt key Hin.
  apply (Permutation_in _ (computeHeartbeat_points lc _)) in Hin.
  apply in_map_iff in Hin as (r & <- & Hr). apply in_map_iff in Hr as (d & <- & _).
  cbn [heartbeatPoint metrics]. apply finiteRow_safe, joinedRow_finite.
Qed.

(** ** [ensureRow], twice *)

Lemma map_get_app {V} (m m' : list (string * V)) k :
  map_get (m ++ m') k = match map_get m k with Some v => Some v | None => map_get m' k end.
Proof.
  induction m as [|[k' v] m IH]; [reflexivity|]. simpl.
  destruct (String.eqb k' k); [reflexivity|exact IH].
Qed.

(** X13: [ensureRow] always returns a row; the row is then the one the
    map has for the date, so a second call returns the same object and
    changes neither the map nor the store; the first call keeps every
    other entry of the map and every object of the store, and a row it
    creates has the date and no metric. *)
Theorem ensureRow_idempotent :
  forall map dateStr h,
  exists map' target h',
    ensureRow map dateStr h = Some ((map', target), h')
    /\ map_get map' dateStr = Some target
    /\ ensureRow map' dateStr h' = Some ((map', target), h')
    /\ (forall d r, map_get map d = Some r -> map_get map' d = Some r)
    /\ (forall i o, h !! i = Some o -> h' !! i = Some o)
    /\ (map_get map dateStr = None -> h' !! target = Some (RowObject (emptyRow dateStr))).
Proof.
  intros m d h. unfold ensureRow at 1. destruct (map_get m d) as [row|] eqn:E.
  - exists m, row, h. split; [reflexivity|]. split; [exact E|].
    split; [unfold ensureRow; now rewrite E|]. split; [auto|]. split; [auto|discriminate].
  - exists (m ++ [(d, length h)]), (length h), (h ++ [RowObject (emptyRow d)]).
    assert (Hg : map_get (m ++ [(d, length h)]) d = Some (length h)).
    { rewrite map_get_app, E. simpl. now rewrite String.eqb_refl. }
    split; [reflexivity|]. split; [exact Hg|].
    split; [unfold ensureRow; now rewrite Hg|]. split; [|split].
    + intros d' r H. now rewrite map_get_app, H.
    + intros i o H. now apply lookup_extend.
    + intros _. apply lookup_snoc.
Qed.

(** ** The comets route *)

Lemma pushArc_groups (g : string -> list Comets.CometArc) keys d a :
  NoDup keys -> (~ In d keys -> g d = []) ->
  Comets.pushArc (List.map (fun k => (k, g k)) keys) d a
  = List.map (fun k => (k, if String.eqb k d then g k ++ [a] else g k)) (addKey keys d).
Proof.
  induction keys as [|k keys IH]; intros Hnd Hg.
  - cbn. rewrite String.eqb_refl, Hg by tauto. reflexivity.
  - apply NoDup_cons in Hnd as [Hk Hnd]. cbn [List.map Comets.pushArc].
    destruct (String.eqb_spec k d) as [->|Hne].
    + rewrite addKey_present by now left. cbn [List.map].
      rewrite String.eqb_refl. f_equal. apply map_ext_in. intros k' Hk'.
      destruct (String.eqb_spec k' d) as [->|_]; [|reflexivity].
      exfalso. apply Hk, list_elem_of_In, Hk'.
    + rewrite IH; [|exact Hnd|intros Hn; apply Hg; intros [?|?]; [congruence|tauto]].
      assert (Ha : addKey (k :: keys) d = k :: addKey keys d).
      { unfold addKey. cbn [existsb]. rewrite (String.eqb_sym d k).
        destruct (String.eqb_spec k d); [congruence|]. cbn [orb].
        destruct (existsb (String.eqb d) keys); reflexivity. }
      rewrite Ha. cbn [List.map].
      destruct (String.eqb_spec k d); [congruence|reflexivity].
Qed.

(** The arcs of a list, grouped by date over keys that cover the dates,
    are the arcs of the list. *)
Lemma grouped_perm (l : list Comets.CometArc) : forall keys,
  NoDup keys -> (forall a, In a l -> In (Comets.a_date a) keys) ->
  Permutation
    (concat (List.map (fun d => List.filter (fun a => String.eqb (Comets.a_date a) d) l) keys))
    l.
Proof.
  induction l as [|a l IH]; intros keys Hnd Hin.
  - cbn [List.filter]. induction keys as [|k keys IHk]; [reflexivity|].
    apply NoDup_cons in Hnd as [_ Hnd]. cbn. apply IHk; [exact Hnd|]. intros a [].
  - transitivity
      (a :: concat (List.map
                      (fun d => List.filter (fun b => String.eqb (Comets.a_date b) d) l) keys));
      [|apply perm_skip, IH; [exact Hnd|intros b Hb; apply Hin; now right]].
    assert (Ha : In (Comets.a_date a) keys) by (apply Hin; now left).
    clear IH Hin. cbn [List.filter].
    induction keys as [|k keys IHk]; [destruct Ha|].
    apply NoDup_cons in Hnd as [Hk Hnd]. cbn [List.map concat].
    destruct (String.eqb_spec (Comets.a_date a) k) as [He|Hne].
    + cbn [app]. apply perm_skip. apply Permutation_app_head.
      assert (Hsame : List.map
                (fun d => if String.eqb (Comets.a_date a) d
                          then a :: List.filter (fun b => String.eqb (Comets.a_date b) d) l
                          else List.filter (fun b => String.eqb (Comets.a_date b) d) l) keys
              = List.map (fun d => List.filter (fun b => String.eqb (Comets.a_date b) d) l) keys).
      { apply map_ext_in. intros d Hd.
        destruct (String.eqb_spec (Comets.a_date a) d) as [He'|]; [|reflexivity].
        exfalso. apply Hk, list_elem_of_In. congruence. }
      now rewrite Hsame.
    + destruct Ha as [Ha|Ha]; [congruence|].
      rewrite (IHk Hnd Ha). symmetry. apply Permutation_middle.
Qed.

Section CometsFacts.
Variable localeCompare : string -> string -> number.
Variable trim : string -> string.
Variable Number : option string -> number.
Variable inherited : string -> bool.

Lemma arcStep_arcOf byDate row :
  Comets.arcStep trim Number inherited byDate row
  = match Comets.arcOf trim Number inherited row with
    | Some a => Comets.pushArc byDate (Comets.a_date a) a
    | None => byDate
    end.
Proof.
  unfold Comets.arcStep, Comets.arcOf, keyOf.
  destruct (falsyStr (trim <$> row !! "date")); [reflexivity|].
  destruct (falsyStr (trim <$> row !! "shipping_country")); [reflexivity|].
  destruct (is_finite (Number (row !! "shipping_labels_by_country"))); reflexivity.
Qed.

Lemma arcs_of_unseen_date d rows :
  ~ In d (firstSeen (Comets.arcDates trim Number inherited rows)) ->
  Comets.arcsOn trim Number inherited d rows = [].
Proof.
  rewrite firstSeen_In. unfold Comets.arcDates, Comets.arcsOn. intros Hn.
  induction (omap (Comets.arcOf trim Number inherited) rows) as [|a l IH]; [reflexivity|].
  cbn [List.map List.filter] in *.
  destruct (String.eqb_spec (Comets.a_date a) d); [exfalso; apply Hn; now left|].
  apply IH. intros H. apply Hn. now right.
Qed.

(** The map after the loop: the dates in the order they are met first,
    each with the arcs of its rows in the order of the rows. *)
Lemma arcSteps_groups rows :
  fold_left (Comets.arcStep trim Number inherited) rows []
  = List.map (fun d => (d, Comets.arcsOn trim Number inherited d rows))
      (firstSeen (Comets.arcDates trim Number inherited rows)).
Proof.
  induction rows as [|row rows IH] using rev_ind; [reflexivity|].
  rewrite fold_left_app. cbn [fold_left]. rewrite IH, arcStep_arcOf.
  unfold Comets.arcDates, Comets.arcsOn. rewrite omap_app. cbn [omap list_omap].
  destruct (Comets.arcOf trim Number inherited row) as [a|].
  - rewrite List.map_app. cbn [List.map]. rewrite firstSeen_snoc.
    rewrite (pushArc_groups (fun d => Comets.arcsOn trim Number inherited d rows)).
    + apply map_ext. intros k. f_equal. unfold Comets.arcsOn.
      rewrite List.filter_app. cbn [List.filter]. rewrite (String.eqb_sym k).
      destruct (String.eqb (Comets.a_date a) k); [reflexivity|now rewrite app_nil_r].
    + apply firstSeen_NoDup.
    + apply arcs_of_unseen_date.
  - now rewrite !app_nil_r.
Qed.

Lemma GET_groups rows :
  Comets.GET localeCompare trim Number inherited rows
  = List.map (fun e => {| Comets.b_date := fst e; Comets.arcs := snd e |})
      (JSsort (fun a b => localeCompare (fst a) (fst b))
         (List.map (fun d => (d, Comets.arcsOn trim Number inherited d rows))
            (firstSeen (Comets.arcDates trim Number inherited rows)))).
Proof.
  unfold Comets.GET. destruct rows as [|row rows]; [reflexivity|].
  now rewrite arcSteps_groups.
Qed.

Lemma GET_buckets rows :
  Permutation (Comets.GET localeCompare trim Number inherited rows)
    (List.map (fun d => {| Comets.b_date := d;
                           Comets.arcs := Comets.arcsOn trim Number inherited d rows |})
       (firstSeen (Comets.arcDates trim Number inherited rows))).
Proof. rewrite GET_groups, JSsort_perm, List.map_map. reflexivity. Qed.

End CometsFacts.

(** X14: the response of the comets route has one bucket for each date
    some row passes the guard with; no date comes twice and no bucket is
    empty; the arcs of a bucket are those of the rows of its date, in the
    order of the rows. *)
Theorem comets_one_bucket_per_date :
  forall localeCompare trim Number inherited rows,
    let body := Comets.GET localeCompare trim Number inherited rows in
    Permutation (List.map Comets.b_date body)
      (firstSeen (Comets.arcDates trim Number inherited rows))
    /\ NoDup (List.map Comets.b_date body)
    /\ forall b, In b body ->
         Comets.arcs b = Comets.arcsOn trim Number inherited (Comets.b_date b) rows
         /\ Comets.arcs b <> [].
Proof.
  intros lc trim Number inh rows body.
  pose proof (GET_buckets lc trim Number inh rows) as Hb. fold body in Hb.
  assert (Hd : Permutation (List.map Comets.b_date body)
                 (firstSeen (Comets.arcDates trim Number inh rows))).
  { rewrite Hb, List.map_map. cbn [Comets.b_date]. now rewrite List.map_id. }
  split; [exact Hd|]. split; [rewrite Hd; apply firstSeen_NoDup|].
  intros b Hin. apply (Permutation_in _ Hb) in Hin.
  apply in_map_iff in Hin as (d & <- & Hin). cbn [Comets.arcs Comets.b_date].
  split; [reflexivity|]. intros He. apply (proj1 (firstSeen_In _ _)) in Hin.
  unfold Comets.arcDates in Hin. apply in_map_iff in Hin as (a & Ha & Hin).
  unfold Comets.arcsOn in He.
  assert (Hf : In a (List.filter (fun a => String.eqb (Comets.a_date a) d)
                       (omap (Comets.arcOf trim Number inh) rows))).
  { apply filter_In. split; [exact Hin|]. rewrite Ha. apply String.eqb_refl. }
  rewrite He in Hf. destruct Hf.
Qed.

(** X15: every row that passes the guard gives exactly one arc of the
    response, and the response has no other arc. *)
Theorem comets_every_valid_row_once :
  forall localeCompare trim Number inherited rows,
    Permutation
      (concat (List.map Comets.arcs (Comets.GET localeCompare trim Number inherited rows)))
      (omap (Comets.arcOf trim Number inherited) rows).
Proof.
  intros lc trim Number inh rows.
  rewrite (GET_buckets lc trim Number inh rows), List.map_map. cbn [Comets.arcs].
  apply grouped_perm; [apply firstSeen_NoDup|].
  intros a Ha. apply firstSeen_In. unfold Comets.arcDates. now apply in_map.
Qed.

(** X16: the buckets are in the order [localeCompare] gives their dates:
    ascending, wherever the comparison is consistent on these dates. *)
Theorem comets_sorted_by_localeCompare :
  forall localeCompare trim Number inherited rows,
    consistentOn localeCompare (Comets.arcDates trim Number inherited rows) ->
    StronglySorted
      (fun a b => localeLe localeCompare (Comets.b_date a) (Comets.b_date b))
      (Comets.GET localeCompare trim Number inherited rows).
Proof.
  intros lc trim Number inh rows [Htot Htrans]. rewrite GET_groups.
  set (dates := Comets.arcDates trim Number inh rows).
  set (groups := List.map _ (firstSeen dates)).
  assert (HP : Forall (fun e : string * list Comets.CometArc => In (fst e) dates) groups).
  { apply List.Forall_forall. intros e He. apply in_map_iff in He as (d & <- & Hd).
    now apply firstSeen_In. }
  apply (StronglySorted_map_on (fun e => In (fst e) dates) _
           (keepsBefore (fun a b => lc (fst a) (fst b)))).
  - intros a b _ _ H. exact H.
  - eapply Permutation_Forall; [symmetry; apply JSsort_perm|exact HP].
  - apply (JSsort_sorted _ (fun e => In (fst e) dates)); [| |exact HP].
    + intros a b Ha Hb. apply (Htot _ _ Ha Hb).
    + intros a b c Ha Hb Hc. apply (Htrans _ _ _ Ha Hb Hc).
Qed.

Lemma comets_sorted_by_localeCompare_witness :
  let row d c n : RawRow :=
    <["date" := d]> (<["shipping_country" := c]>
      (<["shipping_labels_by_country" := n]> ∅)) in
  let rows := [row "2025-11-29" "US" "12"; row "2025-11-28" "DE" "3";
               row "2025-11-29" "FR" "5"] in
  List.map Comets.b_date
    (Comets.GET lexicalCompare (fun s => s) (fun _ => 1%float) (fun _ => false) rows)
  = ["2025-11-28"; "2025-11-29"]
  /\ StronglySorted
       (fun a b => localeLe lexicalCompare (Comets.b_date a) (Comets.b_date b))
       (Comets.GET lexicalCompare (fun s => s) (fun _ => 1%float) (fun _ => false) rows).
Proof.
  cbv zeta. split; [vm_compute; reflexivity|].
  apply comets_sorted_by_localeCompare.
  assert (Hd : forall a,
             In a (Comets.arcDates (fun s => s) (fun _ => 1%float) (fun _ => false)
                     [<["date" := "2025-11-29"]> (<["shipping_country" := "US"]>
                        (<["shipping_labels_by_country" := "12"]> ∅));
                      <["date" := "2025-11-28"]> (<["shipping_country" := "DE"]>
                        (<["shipping_labels_by_country" := "3"]> ∅));
                      <["date" := "2025-11-29"]> (<["shipping_country" := "FR"]>
                        (<["shipping_labels_by_country" := "5"]> ∅))]) ->
             a = "2025-11-29" \/ a = "2025-11-28").
  { vm_compute. intros a [<-|[<-|[<-|[]]]]; auto. }
  split.
  - intros a b Ha Hb. destruct (Hd a Ha) as [->| ->], (Hd b Hb) as [->| ->];
      vm_compute; auto.
  - intros a b c Ha Hb Hc.
    destruct (Hd a Ha) as [->| ->], (Hd b Hb) as [->| ->], (Hd c Hc) as [->| ->];
      vm_compute; congruence.
Defined.



(** ** The heartbeat chart *)

Lemma decorated_not_empty s : s +:+ "Z" <> "".
Proof. destruct s; discriminate. Qed.

(** The greatest and the least of a list of numbers, as the loops find
    them. *)
Lemma running_max vs : forall init,
  is_nan init = false -> Forall (fun v => is_nan v = false) vs ->
  let m := fold_left (fun max v => if (max <? v)%float then v else max) vs init in
  In m (init :: vs) /\ (ord init <= ord m)%Z /\ Forall (fun v => (ord v <= ord m)%Z) vs.
Proof.
  induction vs as [|v vs IH]; intros init Hi Hvs; cbn [fold_left].
  - split; [now left|]. split; [lia|constructor].
  - apply Forall_cons in Hvs as [Hv Hvs]. rewrite (ltb_ord _ _ Hi Hv).
    destruct (Z.ltb_spec (ord init) (ord v)) as [Hlt|Hge].
    + destruct (IH v Hv Hvs) as (Hin & Hle & Hall).
      split; [now right|]. split; [lia|]. now constructor.
    + destruct (IH init Hi Hvs) as (Hin & Hle & Hall).
      split; [destruct Hin as [<-|Hin]; [now left|now right; right]|].
      split; [exact Hle|]. constructor; [lia|exact Hall].
Qed.

Lemma running_min vs : forall init,
  is_nan init = false -> Forall (fun v => is_nan v = false) vs ->
  let m := fold_left (fun min v => if (v <? min)%float then v else min) vs init in
  In m (init :: vs) /\ (ord m <= ord init)%Z /\ Forall (fun v => (ord m <= ord v)%Z) vs.
Proof.
  induction vs as [|v vs IH]; intros init Hi Hvs; cbn [fold_left].
  - split; [now left|]. split; [lia|constructor].
  - apply Forall_cons in Hvs as [Hv Hvs]. rewrite (ltb_ord _ _ Hv Hi).
    destruct (Z.ltb_spec (ord v) (ord init)) as [Hlt|Hge].
    + destruct (IH v Hv Hvs) as (Hin & Hle & Hall).
      split; [now right|]. split; [lia|]. now constructor.
    + destruct (IH init Hi Hvs) as (Hin & Hle & Hall).
      split; [destruct Hin as [<-|Hin]; [now left|now right; right]|].
      split; [exact Hle|]. constructor; [lia|exact Hall].
Qed.

Lemma fold_intensity {B} (f : B -> number -> B) (data : list HeartbeatPoint) : forall init,
  fold_left (fun acc p => f acc (intensity p)) data init
  = fold_left f (List.map intensity data) init.
Proof. induction data as [|p data IH]; intros init; [reflexivity|apply IH]. Qed.

Lemma fold_min_max (data : list HeartbeatPoint) : forall lo hi,
  fold_left
    (fun '(min, max) p =>
       let min := if (intensity p <? min)%float then intensity p else min in
       let max := if (max <? intensity p)%float then intensity p else max in
       (min, max))
    data (lo, hi)
  = (fold_left (fun min v => if (v <? min)%float then v else min) (List.map intensity data) lo,
     fold_left (fun max v => if (max <? v)%float then v else max) (List.map intensity data) hi).
Proof. induction data as [|p data IH]; intros lo hi; [reflexivity|apply IH]. Qed.

Lemma ord_numLe a b :
  is_nan a = false -> is_nan b = false -> (ord a <= ord b)%Z -> numLe a b.
Proof. intros Ha Hb H. unfold numLe. rewrite leb_ord by assumption. now apply Z.leb_le. Qed.

(** X18: [cleaned] only drops and reorders: it keeps exactly the points
    with a finite intensity and a non-empty timestamp; and of a response
    of [computeHeartbeat] it drops a point for its intensity only, every
    timestamp of a response being non-empty. *)
Theorem cleaned_keeps_finite_points :
  forall localeCompare raw,
    Permutation (HeartbeatChart.cleaned localeCompare raw)
      (List.filter HeartbeatChart.keep raw)
    /\ Forall (fun p => is_finite (intensity p) = true /\ timestamp p <> "")
         (HeartbeatChart.cleaned localeCompare raw)
    /\ forall apiCompare rows,
         Permutation
           (HeartbeatChart.cleaned localeCompare (computeHeartbeat apiCompare rows))
           (List.filter (fun p => is_finite (intensity p))
              (computeHeartbeat apiCompare rows)).
Proof.
  intros lc raw.
  assert (Hp : forall raw, Permutation (HeartbeatChart.cleaned lc raw)
                             (List.filter HeartbeatChart.keep raw))
    by (intros; apply JSsort_perm).
  split; [apply Hp|]. split.
  - eapply Permutation_Forall; [symmetry; apply Hp|].
    apply List.Forall_forall. intros p Hin. apply filter_In in Hin as [_ Hk].
    unfold HeartbeatChart.keep in Hk. apply andb_prop in Hk as [Hf Ht].
    split; [exact Hf|]. intros He. rewrite He in Ht. discriminate.
  - intros lc' rows. rewrite Hp. apply Permutation_refl'.
    apply filter_ext_in. intros p Hin.
    apply (Permutation_in _ (computeHeartbeat_points lc' rows)) in Hin.
    apply in_map_iff in Hin as (r & <- & _).
    unfold HeartbeatChart.keep. cbn [heartbeatPoint timestamp].
    pose proof (decorated_not_empty (replace_space_T (s_date (safeRow r)))) as Hne.
    destruct (replace_space_T (s_date (safeRow r)) +:+ "Z"); [congruence|].
    apply andb_true_r.
Qed.

(** X19: the chart's data are in the order [localeCompare] gives their
    timestamps: ascending, wherever the comparison is consistent on the
    timestamps that are kept. *)
Theorem cleaned_sorted_by_timestamp :
  forall localeCompare raw,
    consistentOn localeCompare (List.map timestamp (List.filter HeartbeatChart.keep raw)) ->
    StronglySorted (fun a b => localeLe localeCompare (timestamp a) (timestamp b))
      (HeartbeatChart.cleaned localeCompare raw).
Proof.
  intros lc raw [Htot Htrans]. unfold HeartbeatChart.cleaned.
  set (kept := List.filter HeartbeatChart.keep raw) in *.
  apply (JSsort_sorted (fun a b => lc (timestamp a) (timestamp b))
           (fun p => In (timestamp p) (List.map timestamp kept))).
  - intros a b Ha Hb. apply (Htot _ _ Ha Hb).
  - intros a b c Ha Hb Hc. apply (Htrans _ _ _ Ha Hb Hc).
  - apply List.Forall_forall. intros p Hp. now apply in_map.
Qed.

Lemma cleaned_sorted_by_timestamp_witness :
  let m := s_metrics (safeRow (emptyRow "")) in
  let raw := [ {| timestamp := "2025-11-29T00:00Z"; intensity := 40%float; metrics := m |};
               {| timestamp := "2025-11-28T00:00Z"; intensity := 60%float; metrics := m |} ] in
  List.map timestamp (HeartbeatChart.cleaned lexicalCompare raw)
  = ["2025-11-28T00:00Z"; "2025-11-29T00:00Z"]
  /\ StronglySorted (fun a b => localeLe lexicalCompare (timestamp a) (timestamp b))
       (HeartbeatChart.cleaned lexicalCompare raw).
Proof.
  cbv zeta. split; [vm_compute; reflexivity|].
  apply cleaned_sorted_by_timestamp. split.
  - intros a b Ha Hb. vm_compute in Ha, Hb.
    destruct Ha as [<-|[<-|[]]], Hb as [<-|[<-|[]]]; vm_compute; auto.
  - intros a b c Ha Hb Hc. vm_compute in Ha, Hb, Hc.
    destruct Ha as [<-|[<-|[]]], Hb as [<-|[<-|[]]], Hc as [<-|[<-|[]]];
      vm_compute; congruence.
Defined.

(** X20: [recentData] is the end of the data: the last 96 points where
    there are more, all of them otherwise. *)
Theorem recentData_is_the_end :
  forall data,
    length (HeartbeatChart.recentData data) = Nat.min (length data) 96
    /\ exists older, data = older ++ HeartbeatChart.recentData data.
Proof.
  intros data. unfold HeartbeatChart.recentData, HeartbeatChart.MAX_RECENT_POINTS.
  destruct data as [|p data]; [split; [reflexivity|now exists []]|].
  destruct (Nat.leb_spec (length (p :: data)) 96) as [Hle|Hgt].
  - split; [lia|now exists []].
  - split.
    + rewrite length_drop. lia.
    + exists (take (length (p :: data) - 96) (p :: data)). now rewrite take_drop.
Qed.

(** X21: on points without [NaN] (those of [cleaned]), [maxIntensity] is
    the intensity of one of the points and no point has a greater one. *)
Theorem maxIntensity_is_greatest :
  forall recentData,
    recentData <> [] ->
    Forall (fun p => is_nan (intensity p) = false) recentData ->
    In (HeartbeatChart.maxIntensity recentData) (List.map intensity recentData)
    /\ Forall (fun p => numLe (intensity p) (HeartbeatChart.maxIntensity recentData))
         recentData.
Proof.
  intros data Hne Hn. destruct data as [|p0 data]; [congruence|].
  unfold HeartbeatChart.maxIntensity.
  rewrite (fold_intensity (fun max v => if (max <? v)%float then v else max)).
  assert (Hn' : Forall (fun v => is_nan v = false) (List.map intensity (p0 :: data))).
  { apply List.Forall_forall. intros v Hv. apply in_map_iff in Hv as (p & <- & Hp).
    rewrite List.Forall_forall in Hn. now apply Hn. }
  pose proof Hn' as Hn0. apply Forall_cons in Hn0 as [H0 _].
  destruct (running_max (List.map intensity (p0 :: data)) (intensity p0) H0 Hn')
    as (Hin & _ & Hall).
  set (m := fold_left _ _ _) in *.
  assert (Hm : In m (List.map intensity (p0 :: data))).
  { destruct Hin as [<-|Hin]; [now left|exact Hin]. }
  split; [exact Hm|].
  rewrite List.Forall_forall in Hall, Hn' |- *. intros p Hp.
  apply ord_numLe; [apply Hn'; now apply in_map|now apply Hn'|].
  apply Hall. now apply in_map.
Qed.

Lemma maxIntensity_is_greatest_witness :
  let m := s_metrics (safeRow (emptyRow "")) in
  let data := [ {| timestamp := "a"; intensity := 40%float; metrics := m |};
                {| timestamp := "b"; intensity := 60%float; metrics := m |};
                {| timestamp := "c"; intensity := 50%float; metrics := m |} ] in
  HeartbeatChart.maxIntensity data = 60%float
  /\ Forall (fun p => numLe (intensity p) (HeartbeatChart.maxIntensity data)) data.
Proof.
  cbv zeta. split; [reflexivity|].
  apply maxIntensity_is_greatest; [discriminate|].
  repeat constructor.
Defined.

(** X22: on points without [NaN], the scale of the heat strip starts at
    the least intensity and ends at the greatest one, or one above the
    least where the two are equal numbers. *)
Theorem minMaxAll_bounds :
  forall data,
    data <> [] ->
    Forall (fun p => is_nan (intensity p) = false) data ->
    exists lo hi,
      In lo (List.map intensity data) /\ In hi (List.map intensity data)
      /\ Forall (fun p => numLe lo (intensity p) /\ numLe (intensity p) hi) data
      /\ HeartbeatChart.minMaxAll data
         = if (lo =? hi)%float then (lo, (lo + 1)%float) else (lo, hi).
Proof.
  intros data Hne Hn. destruct data as [|p0 data]; [congruence|].
  assert (Hn' : Forall (fun v => is_nan v = false) (List.map intensity (p0 :: data))).
  { apply List.Forall_forall. intros v Hv. apply in_map_iff in Hv as (p & <- & Hp).
    rewrite List.Forall_forall in Hn. now apply Hn. }
  pose proof Hn' as Hn0. apply Forall_cons in Hn0 as [H0 _].
  destruct (running_max (List.map intensity (p0 :: data)) (intensity p0) H0 Hn')
    as (Hhi & _ & Hmax).
  destruct (running_min (List.map intensity (p0 :: data)) (intensity p0) H0 Hn')
    as (Hlo & _ & Hmin).
  set (hi := fold_left _ _ _) in Hhi, Hmax.
  set (lo := fold_left _ _ _) in Hlo, Hmin.
  assert (Hhi' : In hi (List.map intensity (p0 :: data)))
    by (destruct Hhi as [<-|Hhi]; [now left|exact Hhi]).
  assert (Hlo' : In lo (List.map intensity (p0 :: data)))
    by (destruct Hlo as [<-|Hlo]; [now left|exact Hlo]).
  exists lo, hi. split; [exact Hlo'|]. split; [exact Hhi'|]. split.
  - rewrite List.Forall_forall in Hmax, Hmin, Hn' |- *. intros p Hp.
    pose proof (in_map intensity _ _ Hp) as Hv.
    split; apply ord_numLe; auto.
  - unfold HeartbeatChart.minMaxAll.
    rewrite fold_min_max. reflexivity.
Qed.

Lemma minMaxAll_bounds_witness :
  let m := s_metrics (safeRow (emptyRow "")) in
  let data := [ {| timestamp := "a"; intensity := 40%float; metrics := m |};
                {| timestamp := "b"; intensity := 60%float; metrics := m |};
                {| timestamp := "c"; intensity := 50%float; metrics := m |} ] in
  HeartbeatChart.minMaxAll data = (40%float, 60%float)
  /\ exists lo hi,
       In lo (List.map intensity data) /\ In hi (List.map intensity data)
       /\ Forall (fun p => numLe lo (intensity p) /\ numLe (intensity p) hi) data
       /\ HeartbeatChart.minMaxAll data
          = if (lo =? hi)%float then (lo, (lo + 1)%float) else (lo, hi).
Proof.
  cbv zeta. split; [reflexivity|].
  apply minMaxAll_bounds; [discriminate|].
  repeat constructor.
Defined.

(** ** The order of the rows *)

Lemma heartbeatPoint_ext (q q' : MetricKey -> number) s :
  (forall key, q key = q' key) -> heartbeatPoint q s = heartbeatPoint q' s.
Proof.
  intros Hq. unfold heartbeatPoint, score, metricsKeys. cbn [fold_left].
  now rewrite !Hq.
Qed.

Lemma q75_perm rows rows' :
  Permutation rows rows' ->
  Forall (fun r => forall key, is_nan (nullish (rawField r key) 0%float) = false) rows ->
  forall key, q75 (map safeRow rows) key = q75 (map safeRow rows') key.
Proof.
  intros Hp Hn key. unfold q75. f_equal. apply percentile75_perm.
  - now do 2 apply Permutation_map.
  - rewrite map_map. apply List.Forall_forall. intros v Hv.
    apply in_map_iff in Hv as (r & <- & Hr). rewrite safeRow_field.
    rewrite List.Forall_forall in Hn. now apply Hn.
Qed.

(** Two sorted arrangements of the same elements are the same list, where
    the order is antisymmetric on the elements. *)
Lemma sorted_unique_on {A} (R : A -> A -> Prop) (l1 : list A) : forall l2,
  (forall a b, In a l1 -> In b l1 -> R a b -> R b a -> a = b) ->
  StronglySorted R l1 -> StronglySorted R l2 -> Permutation l1 l2 -> l1 = l2.
Proof.
  induction l1 as [|x t1 IH]; intros l2 Hanti H1 H2 Hp.
  - apply Permutation_nil in Hp. now subst.
  - destruct l2 as [|y t2]; [apply Permutation_sym, Permutation_nil in Hp; discriminate|].
    apply StronglySorted_inv in H1 as [Ht1 Hx]. apply StronglySorted_inv in H2 as [Ht2 Hy].
    rewrite List.Forall_forall in Hx, Hy.
    assert (Hxy : x = y).
    { assert (Hy1 : In y (x :: t1))
        by (eapply Permutation_in; [symmetry; exact Hp|now left]).
      assert (Hx2 : In x (y :: t2)) by (eapply Permutation_in; [exact Hp|now left]).
      destruct Hy1 as [Hy1|Hy1]; [exact Hy1|].
      destruct Hx2 as [Hx2|Hx2]; [now symmetry|].
      apply Hanti; [now left|now right|now apply Hx|now apply Hy]. }
    subst y. f_equal. apply IH; [|exact Ht1|exact Ht2|].
    + intros a b Ha Hb. apply Hanti; now right.
    + eapply Permutation_cons_inv, Hp.
Qed.

Lemma same_date_same_row (l : list SafeRow) a b :
  NoDup (List.map s_date l) -> In a l -> In b l -> s_date a = s_date b -> a = b.
Proof.
  induction l as [|x l IH]; intros Hnd Ha Hb He; [destruct Ha|].
  cbn [List.map] in Hnd. apply NoDup_cons in Hnd as [Hx Hnd].
  destruct Ha as [<-|Ha], Hb as [<-|Hb]; [reflexivity| | |now apply IH].
  - exfalso. apply Hx, list_elem_of_In. rewrite He. now apply in_map.
  - exfalso. apply Hx, list_elem_of_In. rewrite <- He. now apply in_map.
Qed.

(** X23: the points of the output do not depend on the order of the rows:
    two arrangements of the same rows give the same points, up to their
    order, as long as no value is [NaN]. *)
Theorem computeHeartbeat_points_order_independent :
  forall localeCompare rows rows',
    Permutation rows rows' ->
    Forall (fun r => forall key, is_nan (nullish (rawField r key) 0%float) = false) rows ->
    Permutation (computeHeartbeat localeCompare rows) (computeHeartbeat localeCompare rows').
Proof.
  intros lc rows rows' Hp Hn. rewrite !computeHeartbeat_points.
  rewrite (Permutation_map _ Hp). apply Permutation_refl'.
  apply map_ext. intros r. apply heartbeatPoint_ext. now apply q75_perm.
Qed.

Lemma computeHeartbeat_points_order_independent_witness :
  Permutation
    (computeHeartbeat lexicalCompare
       [ordersRow "2025-01-01" 10%float; ordersRow "2025-01-02" 20%float])
    (computeHeartbeat lexicalCompare
       [ordersRow "2025-01-02" 20%float; ordersRow "2025-01-01" 10%float]).
Proof.
  apply (computeHeartbeat_points_order_independent lexicalCompare
           [ordersRow "2025-01-01" 10%float; ordersRow "2025-01-02" 20%float]
           [ordersRow "2025-01-02" 20%float; ordersRow "2025-01-01" 10%float]).
  - apply perm_swap.
  - repeat constructor; intros key; destruct key; reflexivity.
Defined.

(** X24: on rows with pairwise distinct dates (those [GET] builds), the
    output is the same list for every arrangement of the rows, where
    [localeCompare] is consistent on the dates and puts no two distinct
    dates level, and no value is [NaN]. *)
Theorem computeHeartbeat_order_independent :
  forall localeCompare rows rows',
    Permutation rows rows' ->
    NoDup (List.map date rows) ->
    consistentOn localeCompare (List.map date rows) ->
    (forall a b, In a (List.map date rows) -> In b (List.map date rows) ->
       localeLe localeCompare a b -> localeLe localeCompare b a -> a = b) ->
    Forall (fun r => forall key, is_nan (nullish (rawField r key) 0%float) = false) rows ->
    computeHeartbeat localeCompare rows = computeHeartbeat localeCompare rows'.
Proof.
  intros lc rows rows' Hp Hnd Hc Hanti Hn. unfold computeHeartbeat.
  assert (Hd : Permutation (List.map date rows) (List.map date rows'))
    by now apply Permutation_map.
  assert (Hs : sortByDate lc (map safeRow rows) = sortByDate lc (map safeRow rows')).
  { apply (sorted_unique_on (fun a b => localeLe lc (s_date a) (s_date b))).
    - intros a b Ha Hb Hab Hba.
      apply (Permutation_in _ (sortByDate_perm lc _)) in Ha, Hb.
      apply (same_date_same_row (map safeRow rows));
        [now rewrite safeRow_dates|exact Ha|exact Hb|].
      apply Hanti; try assumption; rewrite <- safeRow_dates; now apply in_map.
    - apply sortByDate_sorted. now rewrite safeRow_dates.
    - apply sortByDate_sorted. rewrite safeRow_dates.
      destruct Hc as [Htot Htrans]. split.
      + intros a b Ha Hb. apply Htot; eapply Permutation_in;
          try (symmetry; exact Hd); assumption.
      + intros a b c Ha Hb Hc'. apply Htrans; eapply Permutation_in;
          try (symmetry; exact Hd); assumption.
    - rewrite !sortByDate_perm. now apply Permutation_map. }
  rewrite Hs. apply map_ext. intros s. apply heartbeatPoint_ext. now apply q75_perm.
Qed.

Lemma computeHeartbeat_order_independent_witness :
  computeHeartbeat lexicalCompare
    [ordersRow "2025-01-01" 10%float; ordersRow "2025-01-02" 20%float]
  = computeHeartbeat lexicalCompare
      [ordersRow "2025-01-02" 20%float; ordersRow "2025-01-01" 10%float].
Proof.
  apply (computeHeartbeat_order_independent lexicalCompare
           [ordersRow "2025-01-01" 10%float; ordersRow "2025-01-02" 20%float]
           [ordersRow "2025-01-02" 20%float; ordersRow "2025-01-01" 10%float]).
  - apply perm_swap.
  - cbn. apply NoDup_cons. split; [|apply NoDup_singleton].
    intros H. apply list_elem_of_singleton in H. discriminate.
  - split.
    + intros a b Ha Hb. cbn in Ha, Hb.
      destruct Ha as [<-|[<-|[]]], Hb as [<-|[<-|[]]]; vm_compute; auto.
    + intros a b c Ha Hb Hc. cbn in Ha, Hb, Hc.
      destruct Ha as [<-|[<-|[]]], Hb as [<-|[<-|[]]], Hc as [<-|[<-|[]]];
        vm_compute; congruence.
  - intros a b Ha Hb. cbn in Ha, Hb.
    destruct Ha as [<-|[<-|[]]], Hb as [<-|[<-|[]]]; vm_compute; congruence.
  - repeat constructor; intros key; destruct key; reflexivity.
Defined.
